(** * Translator.py: chunking, generation gateway and pipeline

    A shallow embedding of [src/Translator.py].

    Python [str] values are lists of Unicode code points, Python [int]s
    are [Z].  Slicing, [str.rfind], [str.strip], [str.split] and the three
    regular expressions of [TextChunker.chunk_text] are written out with
    the semantics CPython gives them (negative indices wrap once and are
    then clamped, [re.finditer] yields the non-overlapping leftmost
    matches).  The [while] loop of the chunker takes fuel. *)

From Stdlib Require Import ZArith List Bool Lia String Ascii QArith Sorted DecimalString.
Import ListNotations.
#[local] Open Scope Z_scope.

(** ** Python strings *)

Module Py.

(** A character is a Unicode code point. *)
Definition char : Type := N.
Definition str : Type := list char.

(** An ASCII literal as a Python string. *)
Definition lit (s : string) : str :=
  List.map N_of_ascii (list_ascii_of_string s).

Definition len (s : str) : Z := Z.of_nat (List.length s).

Definition NL : char := 10%N.
Definition SPACE : char := 32%N.

(** [str.isspace] on one character; the same predicate decides [\s] in
    [re] for [str] patterns and what [str.strip] and [str.split] remove. *)
Definition is_space (c : char) : bool :=
  ((9 <=? c) && (c <=? 13) || (28 <=? c) && (c <=? 32)
   || (c =? 133) || (c =? 160) || (c =? 5760)
   || (8192 <=? c) && (c <=? 8202)
   || (c =? 8232) || (c =? 8233) || (c =? 8239) || (c =? 8287)
   || (c =? 12288))%N.

(** The character class [[.!?]]. *)
Definition is_terminal (c : char) : bool :=
  ((c =? 46) || (c =? 33) || (c =? 63))%N.

(** The character class [["»"]]: the straight double quote and the right
    guillemet (the straight quote is listed twice in the source). *)
Definition is_closing_quote (c : char) : bool :=
  ((c =? 34) || (c =? 187) || (c =? 34))%N.

(** Index normalisation of slices and of the [start]/[end] arguments of
    [str.rfind]: a negative index counts from the end, then clamp. *)
Definition norm_index (n i : Z) : Z :=
  if i <? 0 then Z.max 0 (i + n) else Z.min i n.

(** [s[lo:hi]] *)
Definition slice (s : str) (lo hi : Z) : str :=
  let lo' := norm_index (len s) lo in
  let hi' := norm_index (len s) hi in
  firstn (Z.to_nat (hi' - lo')) (skipn (Z.to_nat lo') s).

(** [s[lo:]] *)
Definition slice_from (s : str) (lo : Z) : str :=
  skipn (Z.to_nat (norm_index (len s) lo)) s.

(** [s[:hi]] *)
Definition slice_to (s : str) (hi : Z) : str :=
  firstn (Z.to_nat (norm_index (len s) hi)) s.

Fixpoint drop_while (p : char -> bool) (s : str) : str :=
  match s with
  | [] => []
  | c :: s' => if p c then drop_while p s' else s
  end.

Fixpoint take_while (p : char -> bool) (s : str) : str :=
  match s with
  | [] => []
  | c :: s' => if p c then c :: take_while p s' else []
  end.

Definition lstrip (s : str) : str := drop_while is_space s.

(** [s.rstrip()]: the text up to its last character that is not
    whitespace. *)
Fixpoint rstrip (s : str) : str :=
  match s with
  | [] => []
  | c :: s' =>
      match rstrip s' with
      | [] => if is_space c then [] else [c]
      | r => c :: r
      end
  end.

(** [s.strip()] *)
Definition strip (s : str) : str := rstrip (lstrip s).

(** Index of the last element satisfying [p]. *)
Fixpoint last_index (p : char -> bool) (s : str) : option nat :=
  match s with
  | [] => None
  | c :: s' =>
      match last_index p s' with
      | Some i => Some (S i)
      | None => if p c then Some O else None
      end
  end.

(** [s.rfind(c, start, stop)] for a one-character needle: the highest
    index in [s[start:stop]] holding [c], or [-1]. *)
Definition rfind (c : char) (s : str) (start stop : Z) : Z :=
  let a := norm_index (len s) start in
  let b := norm_index (len s) stop in
  match last_index (N.eqb c) (firstn (Z.to_nat (b - a)) (skipn (Z.to_nat a) s)) with
  | Some i => a + Z.of_nat i
  | None => -1
  end.

(** [re.finditer(pattern, s)], as the list of [match.end()] values.
    [m] decides a match at the start of a suffix and gives its length;
    the scan resumes after a match and one character further after a
    failure.  [skip] counts the characters of the current match still
    to pass.  None of the three patterns matches the empty string. *)
Fixpoint finditer_ends (m : str -> option nat) (s : str) (pos : Z) (skip : nat)
  : list Z :=
  match s with
  | [] => []
  | _ :: s' =>
      match skip with
      | S k => finditer_ends m s' (pos + 1) k
      | O =>
          match m s with
          | Some n => (pos + Z.of_nat n) :: finditer_ends m s' (pos + 1) (Nat.pred n)
          | None => finditer_ends m s' (pos + 1) O
          end
      end
  end.

(** [[.!?]\s+] at the start of [s]: greedy, nothing follows the run. *)
Definition match_sentence (s : str) : option nat :=
  match s with
  | c :: rest =>
      if is_terminal c then
        match List.length (take_while is_space rest) with
        | O => None
        | S k => Some (S (S k))
        end
      else None
  | [] => None
  end.

(** [[.!?]["»"]\s+] at the start of [s]. *)
Definition match_quoted (s : str) : option nat :=
  match s with
  | c :: q :: rest =>
      if is_terminal c && is_closing_quote q then
        match List.length (take_while is_space rest) with
        | O => None
        | S k => Some (S (S (S k)))
        end
      else None
  | _ => None
  end.

(** [\n\s*\n] at the start of [s]: [\s*] takes the whole whitespace run
    and gives back until a newline follows, so the match ends after the
    last newline of the run. *)
Definition match_paragraph (s : str) : option nat :=
  match s with
  | c :: rest =>
      if (c =? NL)%N then
        match last_index (N.eqb NL) (take_while is_space rest) with
        | Some j => Some (S (S j))
        | None => None
        end
      else None
  | [] => None
  end.

(** [sep.join(parts)] *)
Fixpoint join (sep : str) (parts : list str) : str :=
  match parts with
  | [] => []
  | p :: rest =>
      match rest with
      | [] => p
      | _ :: _ => p ++ sep ++ join sep rest
      end
  end.

(** Puts [c] in front of the first piece. *)
Definition cons_head (c : char) (pieces : list str) : list str :=
  match pieces with
  | [] => [[c]]
  | p :: ps => (c :: p) :: ps
  end.

(** [s.split('\n\n')]: cut at each blank line, leftmost first; the
    result is never empty. *)
Fixpoint split_blank (s : str) : list str :=
  match s with
  | [] => [[]]
  | c :: s' =>
      match s' with
      | d :: s'' =>
          if ((c =? NL) && (d =? NL))%N then [] :: split_blank s''
          else cons_head c (split_blank s')
      | [] => cons_head c (split_blank s')
      end
  end.

(** [s.split()]: the maximal runs of characters that are not whitespace.
    [cur] holds the current run, latest character first. *)
Fixpoint words_from (s : str) (cur : str) : list str :=
  match s with
  | [] => match cur with [] => [] | _ :: _ => [rev cur] end
  | c :: s' =>
      if is_space c then
        match cur with
        | [] => words_from s' []
        | _ :: _ => rev cur :: words_from s' []
        end
      else words_from s' (c :: cur)
  end.

Definition words (s : str) : list str := words_from s [].

(** [str.lower] on ASCII text; the concrete examples use it. *)
Definition ascii_lower (s : str) : str :=
  List.map (fun c => if ((65 <=? c) && (c <=? 90))%N then (c + 32)%N else c) s.

(** [max(xs, default=d)] *)
Definition max_default (xs : list Z) (d : Z) : Z :=
  match xs with
  | [] => d
  | x :: xs' => fold_left Z.max xs' x
  end.

End Py.

(** ** TextChunker *)

Module TextChunker.
Import Py.

(** One element of the returned list: [(chunk_text, overlap_context,
    is_first_chunk)]. *)
Definition chunk : Type := (str * str * bool)%type.

(** The candidate positions one pattern contributes: [search_start +
    match.end()] for every match, kept when
    [position < actual_pos <= chunk_end + 100]. *)
Definition breaks_of (m : str -> option nat) (search_text : str)
    (search_start position chunk_end : Z) : list Z :=
  filter (fun actual_pos => (position <? actual_pos) && (actual_pos <=? chunk_end + 100))
         (finditer_ends m search_text search_start O).

(** Matches of [[.!?]\s+] (lines 40-43). *)
Definition plain_breaks (text : str) (position chunk_end : Z) : list Z :=
  let search_start := Z.max position (chunk_end - 200) in
  let search_text := slice text search_start (chunk_end + 100) in
  breaks_of match_sentence search_text search_start position chunk_end.

(** Matches of the pattern with the closing quote (lines 45-48). *)
Definition quoted_breaks (text : str) (position chunk_end : Z) : list Z :=
  let search_start := Z.max position (chunk_end - 200) in
  let search_text := slice text search_start (chunk_end + 100) in
  breaks_of match_quoted search_text search_start position chunk_end.

(** The list [sentence_breaks] after both [for] loops: the matches of the
    first pattern, then those of the second. *)
Definition sentence_breaks (text : str) (position chunk_end : Z) : list Z :=
  plain_breaks text position chunk_end ++ quoted_breaks text position chunk_end.

Definition para_breaks (text : str) (position chunk_end : Z) : list Z :=
  let search_start := Z.max position (chunk_end - 200) in
  let search_text := slice text search_start (chunk_end + 100) in
  breaks_of match_paragraph search_text search_start position chunk_end.

(** [max([b for b in breaks if b <= chunk_end], default=breaks[0])] for
    a non-empty [breaks] starting with [b0]. *)
Definition best_break (breaks : list Z) (b0 chunk_end : Z) : Z :=
  max_default (filter (fun b => b <=? chunk_end) breaks) b0.

(** The value of [chunk_end] when the slice is taken (lines 32-70). *)
Definition cut_point (text : str) (position max_chars : Z) : Z :=
  let text_length := len text in
  let chunk_end := Z.min (position + max_chars) text_length in
  if chunk_end <? text_length then
    match sentence_breaks text position chunk_end with
    | (b0 :: _) as breaks => best_break breaks b0 chunk_end
    | [] =>
        match para_breaks text position chunk_end with
        | (p0 :: _) as breaks => best_break breaks p0 chunk_end
        | [] =>
            let space_pos := rfind SPACE text (chunk_end - 100) chunk_end in
            if position <? space_pos then space_pos + 1 else chunk_end
        end
    end
  else chunk_end.

(** The context handed to the next chunk (lines 76-80). *)
Definition next_context (overlap : Z) (chunk_text : str) : str :=
  let context_size := Z.min overlap (len chunk_text) in
  if context_size <? len chunk_text then slice_from chunk_text (- context_size)
  else chunk_text.

(** One pass of the loop body, with the span it cut kept beside the
    tuple it appended. *)
Record iteration : Type := {
  it_position : Z;
  it_chunk_end : Z;
  it_chunk : chunk
}.

(** The [while position < text_length] loop.  [None]: out of fuel. *)
Fixpoint chunk_loop (fuel : nat) (text : str) (max_chars overlap : Z)
    (position : Z) (previous_end : str) : option (list iteration) :=
  if position <? len text then
    match fuel with
    | O => None
    | S fuel' =>
        let chunk_end := cut_point text position max_chars in
        let chunk_text := strip (slice text position chunk_end) in
        let is_first := position =? 0 in
        let it := {| it_position := position; it_chunk_end := chunk_end;
                     it_chunk := (chunk_text, previous_end, is_first) |} in
        option_map (cons it)
          (chunk_loop fuel' text max_chars overlap chunk_end
                      (next_context overlap chunk_text))
    end
  else Some [].

(** [TextChunker.chunk_text(text, max_chars, overlap)] *)
Definition chunk_text (fuel : nat) (text : str) (max_chars overlap : Z)
  : option (list chunk) :=
  if max_chars =? -1 then Some [(text, [], true)]
  else if len text <=? max_chars then Some [(text, [], true)]
  else option_map (List.map it_chunk) (chunk_loop fuel text max_chars overlap 0 []).

End TextChunker.

Import Py TextChunker.

(** ** Paragraph deduplication *)

Module Dedup.

Section WithLower.

(** [str.lower], a function of the whole string (the Unicode lowering
    may change the length). *)
Variable lower : str -> str.

(** [' '.join(para_stripped.lower().split())] *)
Definition normalize (para_stripped : str) : str :=
  join [SPACE] (words (lower para_stripped)).

Definition str_eq_dec : forall a b : str, {a = b} + {a <> b} :=
  list_eq_dec N.eq_dec.

(** The [for para in paragraphs] loop; [seen] is the set of normalised
    forms met so far, the result is what the loop appends to
    [deduplicated]. *)
Fixpoint dedup_loop (paragraphs : list str) (seen : list str) : list str :=
  match paragraphs with
  | [] => []
  | para :: rest =>
      let para_stripped := strip para in
      match para_stripped with
      | [] => dedup_loop rest seen
      | _ :: _ =>
          let para_normalized := normalize para_stripped in
          if in_dec str_eq_dec para_normalized seen then dedup_loop rest seen
          else para_stripped :: dedup_loop rest (para_normalized :: seen)
      end
  end.

(** [OllamaProcessor.deduplicate_paragraphs(text)] *)
Definition deduplicate_paragraphs (text : str) : str :=
  join [NL; NL] (dedup_loop (split_blank text) []).

End WithLower.

End Dedup.

Import Dedup.

(** ** OllamaProcessor *)

Module Processor.

(** *** Exceptions and responses *)

(** An exception raised inside the code: an instance of a subclass of
    [Exception], with its [str(e)].  [ResponseError] also carries
    [e.error]; [OtherException] stands for every other class and carries
    [type(e).__name__].  What derives from [BaseException] alone
    ([asyncio.CancelledError], [KeyboardInterrupt]) is not an [exn]: see
    [raised] below. *)
Inductive exn : Type :=
| TimeoutError (text : str)
| ConnectionError (text : str)
| ResponseError (error text : str)
| KeyError (text : str)
| AttributeError (text : str)
| OtherException (type_name text : str).

Definition exn_str (e : exn) : str :=
  match e with
  | TimeoutError t | ConnectionError t | ResponseError _ t
  | KeyError t | AttributeError t | OtherException _ t => t
  end.

Definition exn_type_name (e : exn) : str :=
  match e with
  | TimeoutError _ => lit "TimeoutError"
  | ConnectionError _ => lit "ConnectionError"
  | ResponseError _ _ => lit "ResponseError"
  | KeyError _ => lit "KeyError"
  | AttributeError _ => lit "AttributeError"
  | OtherException n _ => n
  end.

(** The classes named by the [except] clauses. *)
Inductive exn_class : Type :=
| CTimeoutError | CConnectionError | CResponseError
| CKeyError | CAttributeError | CException.

Definition isinstance (e : exn) (c : exn_class) : bool :=
  match c, e with
  | CException, _ => true
  | CTimeoutError, TimeoutError _ => true
  | CConnectionError, ConnectionError _ => true
  | CResponseError, ResponseError _ _ => true
  | CKeyError, KeyError _ => true
  | CAttributeError, AttributeError _ => true
  | _, _ => false
  end.

Inductive result (A : Type) : Type :=
| Ok (a : A)
| Raise (e : exn).
Arguments Ok {A} a.
Arguments Raise {A} e.

#[local] Set Warnings "-register-all".

(** What [client.chat] may hand back: a string, [None], a [dict], or an
    object with a class name and data attributes. *)
Inductive pyval : Type :=
| VStr (s : str)
| VNone
| VDict (items : list (str * pyval))
| VObject (cls : str) (attrs : list (str * pyval)).

Fixpoint lookup {A : Type} (key : str) (items : list (str * A)) : option A :=
  match items with
  | [] => None
  | (k, v) :: rest => if Dedup.str_eq_dec key k then Some v else lookup key rest
  end.

Definition type_name (v : pyval) : str :=
  match v with
  | VStr _ => lit "str"
  | VNone => lit "NoneType"
  | VDict _ => lit "dict"
  | VObject cls _ => cls
  end.

(** [f"{type(v)}"] *)
Definition type_repr (v : pyval) : str :=
  lit "<class '" ++ type_name v ++ lit "'>".

(** [v[key]] *)
Definition subscript (v : pyval) (key : str) : result pyval :=
  match v with
  | VDict items =>
      match lookup key items with
      | Some x => Ok x
      | None => Raise (KeyError (lit "'" ++ key ++ lit "'"))
      end
  | VStr _ =>
      Raise (OtherException (lit "TypeError")
                            (lit "string indices must be integers, not 'str'"))
  | _ =>
      Raise (OtherException (lit "TypeError")
                            (lit "'" ++ type_name v ++ lit "' object is not subscriptable"))
  end.

(** [getattr(v, name)] for the data attributes [message] and [content];
    [hasattr] is whether it succeeds. *)
Definition getattr (v : pyval) (name : str) : option pyval :=
  match v with
  | VObject _ attrs => lookup name attrs
  | _ => None
  end.

(** [v.strip()] *)
Definition call_strip (v : pyval) : result str :=
  match v with
  | VStr s => Ok (strip s)
  | _ => Raise (AttributeError
                  (lit "'" ++ type_name v ++ lit "' object has no attribute 'strip'"))
  end.

(** *** Signals, settings, state *)

Inductive signal : Type :=
| processing_progress (current total : Z) (phase : str)
| processing_finished (output_path : str)
| processing_error (error_message : str)
| step_status (status_message : str)
| step_saved (file_path : str).

(** One [client.chat] call: the model, the two messages, the temperature
    ([top_p] and [num_predict] are constants). *)
Record request : Type := {
  req_model : str;
  req_system : str;
  req_user : str;
  req_temperature : Q
}.

(** [op_config['prompts']] *)
Record prompts_config : Type := {
  system_first : option str;
  user_first : option str;
  system_continuation : option str;
  user_continuation : option str
}.

Record sub_operation : Type := {
  sub_system : option str;
  sub_step_name : option str
}.

(** [op_settings['config']]; the dicts read with [.get] have optional
    fields, [sub_operations] keeps its key order. *)
Record op_config : Type := {
  prompts : option prompts_config;
  step_name : option str;
  tab_name : option str;
  sub_operations : list (str * sub_operation)
}.

Record op_settings : Type := {
  operation_id : str;
  config : op_config;
  model : option str;
  source_language : option str;
  target_language : option str;
  chunk_size : option Z;
  overlap : option Z;
  deduplicate : option bool;
  temperature : option Q;
  flags : list (str * bool)
}.

(** [d.get(key, default)] *)
Definition get {A : Type} (field : option A) (default : A) : A :=
  match field with Some v => v | None => default end.

(** The processor object and, beside it, what it has done to the outside:
    the signals emitted, the files written and the chat calls issued
    (latest first), and the number of suspension points passed. *)
Record world : Type := {
  is_running : bool;
  output_base_path : option str;
  clock : nat;
  signals : list signal;
  files : list (str * str);
  requests : list request
}.

Definition set_running (b : bool) (w : world) : world :=
  {| is_running := b; output_base_path := output_base_path w; clock := clock w;
     signals := signals w; files := files w; requests := requests w |}.

Definition set_base_path (p : option str) (w : world) : world :=
  {| is_running := is_running w; output_base_path := p; clock := clock w;
     signals := signals w; files := files w; requests := requests w |}.

Definition add_signal (s : signal) (w : world) : world :=
  {| is_running := is_running w; output_base_path := output_base_path w;
     clock := clock w; signals := s :: signals w; files := files w;
     requests := requests w |}.

Definition add_file (path content : str) (w : world) : world :=
  {| is_running := is_running w; output_base_path := output_base_path w;
     clock := clock w; signals := signals w; files := (path, content) :: files w;
     requests := requests w |}.

Definition add_request (r : request) (w : world) : world :=
  {| is_running := is_running w; output_base_path := output_base_path w;
     clock := clock w; signals := signals w; files := files w;
     requests := r :: requests w |}.

(** The Python library functions the code calls and this file does not
    spell out. *)
Record library : Type := {
  lower : str -> str;  (* str.lower *)
  format : str -> list (string * str) -> result str;
    (* str.format with keyword arguments *)
  py_str : pyval -> str;  (* the builtin str *)
  splitext : str -> str * str  (* os.path.splitext *)
}.

(** What lies outside the processor.  Suspension points ([await]) are
    numbered in the order the run passes them. *)
Record environment : Type := {
  chat_reply : nat -> request -> result pyval;  (* client.chat at that point *)
  probe_reply : nat -> result unit;             (* client.list at that point *)
  stop_during : nat -> bool;  (* stop_processing() runs while suspended there *)
  read_file : str -> result str;                (* open(path).read() *)
  write_error : str -> option exn               (* open(path, 'w') / write fails *)
}.

(** A computation on the world that returns, raises, or ([None]) never
    finishes because the chunker does not. *)
Definition M (A : Type) : Type := world -> option (result A * world).

Definition ret {A : Type} (a : A) : M A := fun w => Some (Ok a, w).

Definition raise {A : Type} (e : exn) : M A := fun w => Some (Raise e, w).

Definition bind {A B : Type} (m : M A) (k : A -> M B) : M B :=
  fun w =>
    match m w with
    | Some (Ok a, w') => k a w'
    | Some (Raise e, w') => Some (Raise e, w')
    | None => None
    end.

Definition lift {A : Type} (r : result A) : M A := fun w => Some (r, w).

Definition emit (s : signal) : M unit := fun w => Some (Ok tt, add_signal s w).

Definition set_clock (n : nat) (w : world) : world :=
  {| is_running := is_running w; output_base_path := output_base_path w;
     clock := n; signals := signals w; files := files w; requests := requests w |}.

Notation "x <- m ;; k" := (bind m (fun x => k))
  (at level 61, m at next level, right associativity).
Notation "m ;;; k" := (bind m (fun _ => k))
  (at level 61, right associativity).

(** [s.startswith(prefix)] *)
Fixpoint startswith (s prefix : str) : bool :=
  match prefix, s with
  | [], _ => true
  | p :: prefix', c :: s' => (c =? p)%N && startswith s' prefix'
  | _ :: _, [] => false
  end.

(** [f"{n}"] and [f"{n:02d}"] for an [int]. *)
Definition decimal (n : Z) : str :=
  lit (DecimalString.NilZero.string_of_int (Z.to_int n)).

Definition decimal_02d (n : Z) : str :=
  if len (decimal n) <? 2 then lit "0" ++ decimal n else decimal n.

Definition unwanted_prefixes : list str :=
  [ lit "here is the translation:";
    lit "translation:";
    lit "here's the translation:";
    lit "translated text:";
    lit "here is the complete translation:";
    lit "complete translation:";
    lit "here is the processed text:";
    lit "processed text:" ].

(** The [for prefix in unwanted_prefixes] loop with its [break]. *)
Fixpoint remove_prefix (prefixes : list str) (result result_lower : str) : str :=
  match prefixes with
  | [] => result
  | prefix :: rest =>
      if startswith result_lower prefix then strip (slice_from result (len prefix))
      else remove_prefix rest result result_lower
  end.

(** The text after the tag in every placeholder: [f"{text[:100]}...]"]. *)
Definition placeholder (tag : string) (text : str) : str :=
  lit "[" ++ lit tag ++ lit ": " ++ slice_to text 100 ++ lit "...]".

(** The four [except] clauses of [process_with_llm] in source order: the
    class each one names, and the error message and return value it
    builds. *)
Definition except_clauses (text model : str)
  : list (exn_class * (exn -> str * str)) :=
  [ (CTimeoutError, fun _ =>
       ([9201; 65039]%N
          ++ lit " Timeout: Ollama took too long to respond (>2 min). Check if model '"
          ++ model ++ lit "' is loaded.",
        placeholder "TIMEOUT ERROR" text));
    (CConnectionError, fun e =>
       ([128268]%N
          ++ lit " Connection Error: Cannot connect to Ollama. Is it running?"
          ++ [NL] ++ lit "Details: " ++ exn_str e,
        placeholder "CONNECTION ERROR" text));
    (CResponseError, fun e =>
       ([10060]%N ++ lit " Ollama Error: "
          ++ match e with ResponseError error _ => error | _ => [] end,
        placeholder "PROCESSING FAILED" text));
    (CException, fun e =>
       ([10060]%N ++ lit " Unexpected Error: " ++ exn_type_name e ++ lit ": "
          ++ exn_str e,
        placeholder "ERROR" text)) ].

(** The first clause whose class the exception is an instance of. *)
Fixpoint dispatch (clauses : list (exn_class * (exn -> str * str))) (e : exn)
  : option (str * str) :=
  match clauses with
  | [] => None
  | (c, handler) :: rest =>
      if isinstance e c then Some (handler e) else dispatch rest e
  end.

Section Run.

Variable lib : library.
Variable env : environment.

(** [build_combined_prompt] (lines 330-411) assembles the fused prompt
    pair from the settings and the enabled task ids; it touches neither
    the state nor the outside, and is taken as given. *)
Variable build_combined_prompt : op_settings -> list str -> result (str * str).

(** Passing a suspension point: the outside may call [stop_processing].
    One run is followed: a second [process_pipeline] started on the same
    object while this one is suspended, which would set the flag again,
    is not part of [environment]. *)
Definition suspend (w : world) : world :=
  let w' := if stop_during env (clock w) then set_running false w else w in
  set_clock (S (clock w)) w'.

(** [await self.client.chat(...)] *)
Definition client_chat (r : request) : M pyval :=
  fun w => Some (chat_reply env (clock w) r, suspend (add_request r w)).

(** [await asyncio.sleep(...)] *)
Definition sleep : M unit := fun w => Some (Ok tt, suspend w).

(** Lines 158-173: reading the text out of the response, with the inner
    [except (KeyError, AttributeError)] that re-raises as [Exception]. *)
Definition interpret_response (response : pyval) : result str :=
  let attempt : result str :=
    match response with
    | VDict _ =>
        match subscript response (lit "message") with
        | Ok message =>
            match subscript message (lit "content") with
            | Ok content => call_strip content
            | Raise e => Raise e
            end
        | Raise e => Raise e
        end
    | _ =>
        match getattr response (lit "message") with
        | Some message =>
            match getattr message (lit "content") with
            | Some content => call_strip content
            | None => Ok (strip (py_str lib message))
            end
        | None => Ok (strip (py_str lib response))
        end
    end in
  match attempt with
  | Ok r => Ok r
  | Raise e =>
      if isinstance e CKeyError || isinstance e CAttributeError then
        Raise (OtherException (lit "Exception")
                 (lit "Cannot parse Ollama response: " ++ type_repr response
                    ++ lit ". Error: " ++ exn_str e))
      else Raise e
  end.

(** The body of the outer [try] (lines 145-197). *)
Definition try_body (system_prompt user_prompt model : str) (temperature : Q)
  : M str :=
  response <- client_chat {| req_model := model; req_system := system_prompt;
                             req_user := user_prompt;
                             req_temperature := temperature |} ;;
  result <- lift (interpret_response response) ;;
  ret (remove_prefix unwanted_prefixes result (lower lib result)).

(** [OllamaProcessor.process_with_llm]: the [try] body, then the clause
    that catches what it raised; an exception no clause names would go
    on to the caller. *)
Definition process_with_llm (text system_prompt user_prompt model : str)
    (temperature : Q) : M str :=
  fun w =>
    match try_body system_prompt user_prompt model temperature w with
    | Some (Raise e, w') =>
        match dispatch (except_clauses text model) e with
        | Some (error_msg, value) =>
            Some (Ok value, add_signal (processing_error error_msg) w')
        | None => Some (Raise e, w')
        end
    | r => r
    end.

(** [generate_step_filename] *)
Definition generate_step_filename (w : world) (step : str) : option str :=
  match output_base_path w with
  | None => None
  | Some [] => None
  | Some path =>
      let (base, ext) := splitext lib path in
      Some (base ++ lit "_step_" ++ step ++ ext)
  end.

(** [save_step]: a failed write becomes an error signal. *)
Definition save_step (content step : str) : M unit :=
  fun w =>
    match generate_step_filename w step with
    | None => Some (Ok tt, w)
    | Some step_file =>
        match write_error env step_file with
        | None => Some (Ok tt, add_signal (step_saved step_file)
                                 (add_file step_file content w))
        | Some e =>
            Some (Ok tt, add_signal
                           (processing_error
                              (lit "Error saving step " ++ step ++ lit ": " ++ exn_str e))
                           w)
        end
    end.

(** *** Stage executors *)

Definition blank_line : str := [NL; NL].

Definition empty_prompts : prompts_config :=
  {| system_first := None; user_first := None;
     system_continuation := None; user_continuation := None |}.

Definition src_lang_of (st : op_settings) : str :=
  get (source_language st) (lit "English").
Definition target_lang_of (st : op_settings) : str :=
  get (target_language st) (lit "Czech").
Definition model_of (st : op_settings) : str :=
  get (model st) (lit "mistral:latest").

(** Lines 280-299: the prompt pair of one chunk. *)
Definition translation_prompts (st : op_settings) (c : chunk) : result (str * str) :=
  let '(chunk, context, is_first) := c in
  let prompts := get (prompts (config st)) empty_prompts in
  let src_lang := src_lang_of st in
  let target_lang := target_lang_of st in
  if negb is_first && negb (len context =? 0) then
    let context_snippet :=
      if 150 <? len context then slice_from context (-150) else context in
    match format lib (get (system_continuation prompts) [])
                 [("src_lang"%string, src_lang); ("target_lang"%string, target_lang)] with
    | Raise e => Raise e
    | Ok system_prompt =>
        match format lib (get (user_continuation prompts) [])
                     [("src_lang"%string, src_lang); ("target_lang"%string, target_lang);
                      ("context_snippet"%string, context_snippet);
                      ("chunk"%string, chunk)] with
        | Raise e => Raise e
        | Ok user_prompt => Ok (system_prompt, user_prompt)
        end
    end
  else
    match format lib (get (system_first prompts) [])
                 [("src_lang"%string, src_lang); ("target_lang"%string, target_lang)] with
    | Raise e => Raise e
    | Ok system_prompt =>
        match format lib (get (user_first prompts) [])
                     [("src_lang"%string, src_lang); ("target_lang"%string, target_lang);
                      ("chunk"%string, chunk)] with
        | Raise e => Raise e
        | Ok user_prompt => Ok (system_prompt, user_prompt)
        end
    end.

(** Lines 313-314. *)
Definition translation_tail (overlap : Z) (translated_chunk : str) : str :=
  let context_size := Z.min overlap (len translated_chunk) in
  if context_size <? len translated_chunk then slice_from translated_chunk (- context_size)
  else translated_chunk.

(** The [for i, (chunk, context, is_first) in enumerate(chunks)] loop of
    [execute_translation]; returns [translated_parts]. *)
Fixpoint translation_loop (st : op_settings) (total_chunks : Z)
    (chunks : list chunk) (i : Z) (translated_parts : list str)
    (last_translation : str) : M (list str) :=
  match chunks with
  | [] => ret translated_parts
  | c :: rest =>
      fun w =>
        if negb (is_running w) then ret translated_parts w
        else
          (p <- lift (translation_prompts st c) ;;
           translated_chunk <-
             process_with_llm (fst (fst c)) (fst p) (snd p) (model_of st) (3 # 10) ;;
           let translated_parts' := translated_parts ++ [translated_chunk] in
           save_step (join blank_line translated_parts')
                     (get (step_name (config st)) (lit "translation") ++ lit "_progress") ;;;
           let last_translation' :=
             translation_tail (get (overlap st) 200) translated_chunk in
           emit (processing_progress (i + 1) total_chunks
                   (lit "Translating (" ++ src_lang_of st ++ lit " " ++ [8594%N]
                      ++ lit " " ++ target_lang_of st ++ lit ")")) ;;;
           sleep ;;;
           translation_loop st total_chunks rest (i + 1) translated_parts'
                            last_translation') w
  end.

(** [OllamaProcessor.execute_translation] *)
Definition execute_translation (fuel : nat) (text : str) (st : op_settings) : M str :=
  fun w =>
    match chunk_text fuel text (get (chunk_size st) 2500) (get (overlap st) 200) with
    | None => None
    | Some chunks =>
        let total_chunks := Z.of_nat (List.length chunks) in
        if total_chunks =? 0 then ret text w
        else
          (emit (step_status
                   ([128221%N] ++ lit " Translation: " ++ src_lang_of st ++ lit " "
                      ++ [8594%N] ++ lit " " ++ target_lang_of st ++ lit " | "
                      ++ decimal total_chunks ++ lit " chunks | Model: "
                      ++ model_of st)) ;;;
           translated_parts <- translation_loop st total_chunks chunks 0 [] [] ;;
           let result := join blank_line translated_parts in
           ret (if get (deduplicate st) true
                then deduplicate_paragraphs (lower lib) result else result)) w
    end.

(** The chunk loop of [execute_combined_operation]. *)
Fixpoint combined_loop (st : op_settings) (task_count total : Z)
    (system_prompt user_prompt_template : str)
    (chunks : list chunk) (idx : Z) (processed_chunks : list str) : M (list str) :=
  match chunks with
  | [] => ret processed_chunks
  | c :: rest =>
      fun w =>
        if negb (is_running w) then ret processed_chunks w
        else
          (formatted_user <-
             lift (format lib user_prompt_template [("text"%string, fst (fst c))]) ;;
           processed <-
             process_with_llm (fst (fst c)) system_prompt formatted_user (model_of st)
                              (get (temperature st) (1 # 2)) ;;
           emit (processing_progress (idx + 1) total
                   (get (tab_name (config st)) (lit "Processing") ++ lit " ("
                      ++ decimal task_count ++ lit " tasks combined)")) ;;;
           sleep ;;;
           combined_loop st task_count total system_prompt user_prompt_template
                         rest (idx + 1) (processed_chunks ++ [processed])) w
  end.

(** [OllamaProcessor.execute_combined_operation] *)
Definition execute_combined_operation (fuel : nat) (text : str) (st : op_settings)
    (enabled_sub_ops : list str) : M str :=
  match enabled_sub_ops with
  | [] => ret text
  | _ :: _ =>
      fun w =>
        match build_combined_prompt st enabled_sub_ops with
        | Raise e => Some (Raise e, w)
        | Ok (system_prompt, user_prompt_template) =>
            match chunk_text fuel text (get (chunk_size st) 5000)
                             (get (overlap st) 200) with
            | None => None
            | Some chunks =>
                let total := Z.of_nat (List.length chunks) in
                let task_count := Z.of_nat (List.length enabled_sub_ops) in
                (emit (step_status
                         ([128295%N] ++ lit " "
                            ++ get (tab_name (config st)) (lit "Processing") ++ lit ": "
                            ++ decimal task_count ++ lit " tasks combined | "
                            ++ decimal total ++ lit " chunks | Model: "
                            ++ model_of st)) ;;;
                 processed_chunks <-
                   combined_loop st task_count total system_prompt
                                 user_prompt_template chunks 0 [] ;;
                 ret (deduplicate_paragraphs (lower lib)
                        (join blank_line processed_chunks))) w
            end
        end
  end.

(** *** The pipeline *)

(** Lines 531-536: the sub-operation ids whose flag is set. *)
Definition enabled_sub_ops_of (st : op_settings) : list str :=
  List.map fst
    (filter (fun kv => get (lookup (fst kv) (flags st)) false)
            (sub_operations (config st))).

(** Lines 543-545. *)
Definition combined_step_name (st : op_settings) (enabled : list str) : str :=
  join (lit "_")
       (List.map (fun sub_op_id =>
                    match lookup sub_op_id (sub_operations (config st)) with
                    | Some sub => get (sub_step_name sub) sub_op_id
                    | None => sub_op_id
                    end) enabled).

(** The [for op_settings in pipeline] loop; returns the text after it. *)
Fixpoint run_stages (fuel : nat) (pipeline : list op_settings) (text : str)
    (step_counter : Z) : M str :=
  match pipeline with
  | [] => ret text
  | st :: rest =>
      fun w =>
        if negb (is_running w) then ret text w
        else
          (emit (step_status
                   ([128260%N] ++ lit " Starting: "
                      ++ get (tab_name (config st)) (operation_id st))) ;;;
           if Dedup.str_eq_dec (operation_id st) (lit "translation") then
             text' <- execute_translation fuel text st ;;
             save_step text'
                       (decimal_02d step_counter ++ lit "_"
                          ++ get (step_name (config st)) (lit "translated")) ;;;
             run_stages fuel rest text' (step_counter + 1)
           else
             match enabled_sub_ops_of st with
             | [] => run_stages fuel rest text step_counter
             | (_ :: _) as enabled =>
                 text' <- execute_combined_operation fuel text st enabled ;;
                 save_step text'
                           (decimal_02d step_counter ++ lit "_"
                              ++ combined_step_name st enabled) ;;;
                 run_stages fuel rest text' (step_counter + 1)
             end) w
  end.

Definition stop_run : M unit := fun w => Some (Ok tt, set_running false w).

(** Lines 550-558: the final write, skipped when the run was stopped. *)
Definition write_output (output_path text : str) : M unit :=
  fun w =>
    if is_running w then
      match write_error env output_path with
      | None => Some (Ok tt, add_signal (processing_finished output_path)
                               (add_file output_path text w))
      | Some e =>
          Some (Ok tt, add_signal
                         (processing_error (lit "File writing error: " ++ exn_str e)) w)
      end
    else Some (Ok tt, w).

(** [OllamaProcessor.process_pipeline] *)
Definition process_pipeline (fuel : nat) (input_path output_path : str)
    (pipeline : list op_settings) : M unit :=
  fun w =>
    if is_running w then
      emit (processing_error (lit "A process is already running.")) w
    else
      let w1 := add_signal (step_status ([128269%N] ++ lit " Testing Ollama connection..."))
                  (set_base_path (Some output_path) (set_running true w)) in
      let w2 := suspend w1 in
      match probe_reply env (clock w1) with
      | Raise e =>
          let message :=
            if isinstance e CTimeoutError then
              [9201; 65039]%N
                ++ lit " Timeout: Cannot connect to Ollama (5 sec timeout). Is Ollama running?"
            else
              [128268%N] ++ lit " Cannot connect to Ollama: " ++ exn_str e
                ++ [NL; NL] ++ lit "Make sure Ollama is running!" in
          Some (Ok tt, set_running false (add_signal (processing_error message) w2))
      | Ok _ =>
          let w3 := add_signal (step_status ([9989%N] ++ lit " Ollama connected successfully"))
                      w2 in
          let w4 := add_signal (step_status ([128214%N] ++ lit " Reading input file..."))
                      w3 in
          match read_file env input_path with
          | Raise e =>
              Some (Ok tt, set_running false
                             (add_signal (processing_error
                                            (lit "File reading error: " ++ exn_str e)) w4))
          | Ok text =>
              (emit (step_status ([9989%N] ++ lit " Loaded " ++ decimal (len text)
                                    ++ lit " characters")) ;;;
               text' <- run_stages fuel pipeline text 1 ;;
               write_output output_path text' ;;;
               stop_run) w4
          end
      end.

(** [OllamaProcessor.stop_processing] *)
Definition stop_processing : M unit := stop_run.

End Run.

(** *** The [try] statement of [process_with_llm] under any raise *)

(** What the awaited call can raise: an instance of [Exception], or an
    instance of a class that derives from [BaseException] alone, such as
    [asyncio.CancelledError] or [KeyboardInterrupt], with its class name
    and its [str(e)]. *)
Inductive raised : Type :=
| AnException (e : exn)
| BaseOnly (type_name text : str).

(** Every class the [except] clauses name derives from [Exception]. *)
Definition isinstance_raised (r : raised) (c : exn_class) : bool :=
  match r with
  | AnException e => isinstance e c
  | BaseOnly _ _ => false
  end.

(** The [e] that [except ... as e] binds. *)
Definition bound_exn (r : raised) : exn :=
  match r with
  | AnException e => e
  | BaseOnly type_name text => OtherException type_name text
  end.

(** The first clause whose class the raised object is an instance of. *)
Fixpoint catch (clauses : list (exn_class * (exn -> str * str))) (r : raised)
  : option (str * str) :=
  match clauses with
  | [] => None
  | (c, handler) :: rest =>
      if isinstance_raised r c then Some (handler (bound_exn r)) else catch rest r
  end.

(** What [await self.client.chat(...)] did. *)
Inductive awaited : Type :=
| Returned (response : pyval)
| Threw (r : raised).

(** How the call ends: it returns a string, having emitted an error
    message or not, or the raised object goes on to the caller. *)
Inductive ending : Type :=
| Returns (value : str) (emitted : option str)
| Propagates (r : raised).

Definition awaited_of (reply : result pyval) : awaited :=
  match reply with
  | Ok response => Returned response
  | Raise e => Threw (AnException e)
  end.

(** Lines 143-225 from the answer of the awaited call on. *)
Definition process_with_llm_ending (lib : library) (text model : str) (a : awaited)
  : ending :=
  let body : str + raised :=
    match a with
    | Threw r => inr r
    | Returned response =>
        match interpret_response lib response with
        | Ok result => inl (remove_prefix unwanted_prefixes result (lower lib result))
        | Raise e => inr (AnException e)
        end
    end in
  match body with
  | inl value => Returns value None
  | inr r =>
      match catch (except_clauses text model) r with
      | Some (error_msg, value) => Returns value (Some error_msg)
      | None => Propagates r
      end
  end.

End Processor.

Import Processor.

(** *** Examples *)

Module Example.

(** [os.path.splitext] on a plain file name: cut before the last dot. *)
Definition splitext_plain (path : str) : str * str :=
  match last_index (N.eqb 46%N) path with
  | Some i => (firstn i path, skipn i path)
  | None => (path, [])
  end.

(** A library whose templates hold no replacement field. *)
Definition lib : library :=
  {| lower := ascii_lower;
     format := fun template _ => Ok template;
     py_str := fun _ => lit "<object>";
     splitext := splitext_plain |}.

Definition reply_ok : pyval :=
  VDict [(lit "message", VDict [(lit "content", VStr (lit "Ahoj"))])].

(** The service answers every call; the stop button is pressed while the
    call at suspension point [stop_at] is in flight. *)
Definition env (stop_at : nat) : environment :=
  {| chat_reply := fun _ _ => Ok reply_ok;
     probe_reply := fun _ => Ok tt;
     stop_during := fun n => Nat.eqb n stop_at;
     read_file := fun _ => Ok (lit "Hello");
     write_error := fun _ => None |}.

(** The service is down for every generation call; nobody presses
    stop. *)
Definition env_down : environment :=
  {| chat_reply := fun _ _ => Raise (ConnectionError (lit "refused"));
     probe_reply := fun _ => Ok tt;
     stop_during := fun _ => false;
     read_file := fun _ => Ok (lit "Hello");
     write_error := fun _ => None |}.

Definition no_compose (_ : op_settings) (_ : list str) : result (str * str) :=
  Ok ([], lit "{text}").

Definition translation_stage : op_settings :=
  {| operation_id := lit "translation";
     config := {| prompts := None; step_name := None; tab_name := None;
                  sub_operations := [] |};
     model := None; source_language := None; target_language := None;
     chunk_size := Some 5; overlap := Some 2; deduplicate := None;
     temperature := None; flags := [] |}.

Definition idle : world :=
  {| is_running := false; output_base_path := None; clock := O;
     signals := []; files := []; requests := [] |}.

Definition started : world :=
  {| is_running := true; output_base_path := Some (lit "out.txt"); clock := 1%nat;
     signals := []; files := []; requests := [] |}.

End Example.

(** ** The prompt composer *)

Module Composer.

(** [s.replace(old, new)] for a non-empty [old]: the occurrences are
    taken leftmost first and do not overlap.  [skip] counts the
    characters of the current occurrence still to pass. *)
Fixpoint replace_from (old new s : str) (skip : nat) : str :=
  match s with
  | [] => []
  | c :: s' =>
      match skip with
      | S k => replace_from old new s' k
      | O =>
          if startswith s old then
            new ++ replace_from old new s' (Nat.pred (List.length old))
          else c :: replace_from old new s' O
      end
  end.

Definition replace (s old new : str) : str := replace_from old new s O.

Definition task_name_map : list (str * str) :=
  [ (lit "improve_flow", lit "improve flow and readability");
    (lit "simplify_language", lit "simplify complex language");
    (lit "remove_idioms", lit "replace idioms with literal language");
    (lit "adjust_tone_formal", lit "adjust tone to be more formal");
    (lit "adjust_tone_casual", lit "adjust tone to be more casual");
    (lit "adjust_tone_professional", lit "adjust tone to be more professional");
    (lit "adjust_tone_conversational", lit "adjust tone to be more conversational") ].

(** The phrases removed from a task's system prompt, in the order of the
    chained [replace] calls. *)
Definition removed_phrases : list str :=
  [ lit "You are a professional content rewriter. Your task is to ";
    lit "You are a professional content rewriter specializing in ";
    lit " DO NOT translate or change the language of the text.";
    lit " Do NOT omit any content, change the meaning, or alter factual information.";
    lit " Output ONLY the processed text without any explanations.";
    lit " Output ONLY the rewritten text without any explanations.";
    lit " Output ONLY the simplified text without any explanations." ].

(** Lines 375-389: the chained [replace] calls, then [.split('\n')[0]]. *)
Definition core_instruction (original_system : str) : str :=
  take_while (fun c => negb (c =? NL)%N)
             (fold_left (fun s old => replace s old []) removed_phrases original_system).

Definition system_head : list str :=
  [ lit "You are a professional content rewriter and editor. You will perform MULTIPLE tasks on the provided text in a SINGLE pass.";
    [NL] ++ lit "Your tasks are:" ].

Definition system_rules : list str :=
  [ [NL; NL] ++ lit "CRITICAL REQUIREMENTS:";
    [8226%N] ++ lit " Perform ALL tasks listed above in a single pass - do not process the text multiple times";
    [8226%N] ++ lit " DO NOT translate or change the language of the text";
    [8226%N] ++ lit " Do NOT omit any content, change the meaning, or alter factual information";
    [8226%N] ++ lit " Preserve all key points, arguments, and details";
    [8226%N] ++ lit " All tasks should work together harmoniously in the output";
    [NL] ++ lit "OUTPUT FORMAT:";
    lit "Output ONLY the fully processed text with all tasks applied. No explanations, no meta-comments, no introductory remarks. Start immediately with the processed content." ].

(** [task_name_map.get(sub_op_id, sub_op_id.replace('_', ' '))] *)
Definition task_name (sub_op_id : str) : str :=
  match lookup sub_op_id task_name_map with
  | Some name => name
  | None => replace sub_op_id (lit "_") (lit " ")
  end.

(** The [for idx, sub_op_id in enumerate(enabled_sub_ops, 1)] loop:
    returns [system_parts] and [task_descriptions]. *)
Fixpoint compose_loop (sub_ops : list (str * sub_operation)) (ids : list str)
    (idx : Z) (system_parts task_descriptions : list str) : list str * list str :=
  match ids with
  | [] => (system_parts, task_descriptions)
  | sub_op_id :: rest =>
      match lookup sub_op_id sub_ops with
      | None => compose_loop sub_ops rest (idx + 1) system_parts task_descriptions
      | Some sub_op_config =>
          compose_loop sub_ops rest (idx + 1)
            (system_parts
               ++ [[NL] ++ decimal idx ++ lit ". "
                     ++ core_instruction (get (sub_system sub_op_config) [])])
            (task_descriptions ++ [task_name sub_op_id])
      end
  end.

(** Line 408: the task names joined with commas, the last one after
    [", and "]; indexing an empty list raises. *)
Definition tasks_list (task_descriptions : list str) : result str :=
  let front := join (lit ", ") (removelast task_descriptions) in
  if 1 <? Z.of_nat (List.length task_descriptions) then
    Ok (front ++ lit ", and " ++ last task_descriptions [])
  else
    match task_descriptions with
    | first :: _ => Ok (front ++ first)
    | [] => Raise (OtherException (lit "IndexError") (lit "list index out of range"))
    end.

(** [OllamaProcessor.build_combined_prompt] *)
Definition build_combined_prompt (st : op_settings) (enabled_sub_ops : list str)
  : result (str * str) :=
  match enabled_sub_ops with
  | [] => Ok ([], [])
  | _ :: _ =>
      let (system_parts, task_descriptions) :=
        compose_loop (sub_operations (config st)) enabled_sub_ops 1 system_head [] in
      let system_prompt := List.concat (system_parts ++ system_rules) in
      match tasks_list task_descriptions with
      | Raise e => Raise e
      | Ok tasks =>
          Ok (system_prompt,
              lit "Process this text by applying these tasks: " ++ tasks
                ++ lit "." ++ [NL; NL] ++ lit "Text to process:" ++ [NL; NL]
                ++ lit "{text}")
      end
  end.

End Composer.

Import Composer.

(** A rewrite stage with three tasks, the second one switched off. *)
Definition rewrite_stage : op_settings :=
  {| operation_id := lit "rewrite";
     config :=
       {| prompts := None; step_name := None; tab_name := None;
          sub_operations :=
            [ (lit "improve_flow",
               {| sub_system :=
                    Some (lit "You are a professional content rewriter. Your task is to improve the flow. Output ONLY the rewritten text without any explanations."
                            ++ [NL] ++ lit "Second line.");
                  sub_step_name := Some (lit "flow") |});
              (lit "remove_idioms", {| sub_system := None; sub_step_name := None |});
              (lit "fix_typos",
               {| sub_system := Some (lit "Fix typos."); sub_step_name := None |}) ] |};
     model := None; source_language := None; target_language := None;
     chunk_size := Some 5000; overlap := Some 200; deduplicate := None;
     temperature := None;
     flags := [(lit "improve_flow", true); (lit "remove_idioms", false);
               (lit "fix_typos", true)] |}.

(** ** Vocabulary of the statements *)

(** A pattern whose matches are non-empty and lie inside the text. *)
Definition sound_matcher (m : str -> option nat) : Prop :=
  forall s n, m s = Some n -> (1 <= n <= List.length s)%nat.

(** The raw slice [text[position:chunk_end]] of one pass. *)
Definition span_text (text : str) (it : iteration) : str :=
  slice text (it_position it) (it_chunk_end it).

(** Consecutive spans from [a] to [b]: each starts where the one before
    ended. *)
Fixpoint spans_from (a : Z) (its : list iteration) (b : Z) : Prop :=
  match its with
  | [] => a = b
  | it :: rest => it_position it = a /\ spans_from (it_chunk_end it) rest b
  end.

(** The last character, when there is one, is not whitespace. *)
Fixpoint last_ok (s : str) : Prop :=
  match s with
  | [] => True
  | c :: s' => match s' with [] => is_space c = false | _ :: _ => last_ok s' end
  end.

(** No two consecutive newlines. *)
Fixpoint blank_free (s : str) : Prop :=
  match s with
  | [] => True
  | c :: s' =>
      match s' with [] => True | d :: _ => ~ (c = NL /\ d = NL) end
      /\ blank_free s'
  end.

(** The tag of the placeholder for each kind of failure. *)
Definition failure_tag (e : exn) : string :=
  match e with
  | TimeoutError _ => "TIMEOUT ERROR"
  | ConnectionError _ => "CONNECTION ERROR"
  | ResponseError _ _ => "PROCESSING FAILED"
  | _ => "ERROR"
  end.

(** Whether the run is still on after the suspension point at [clock w]. *)
Definition running_after (env : environment) (w : world) : bool :=
  if stop_during env (clock w) then false else is_running w.

(** The chat call of one chunk of the translation stage. *)
Definition translation_request (lib : library) (st : op_settings) (c : chunk)
  : option request :=
  match translation_prompts lib st c with
  | Ok p => Some {| req_model := model_of st; req_system := fst p;
                    req_user := snd p; req_temperature := 3 # 10 |}
  | Raise _ => None
  end.

(** The requests a run of the translation loop issues, from the chunks,
    the settings and the stop schedule alone. *)
Fixpoint issued (lib : library) (stop : nat -> bool) (st : op_settings)
    (chunks : list chunk)
    (running : bool) (clk : nat) : list request :=
  match chunks with
  | [] => []
  | c :: rest =>
      if running then
        match translation_request lib st c with
        | Some r =>
            r :: issued lib stop st rest
                   (negb (stop clk) && negb (stop (S clk))) (S (S clk))
        | None => []
        end
      else []
  end.

(** The environment [env] with other answers to the chat calls. *)
Definition with_chat_reply (reply : nat -> request -> result pyval)
    (env : environment) : environment :=
  {| chat_reply := reply; probe_reply := probe_reply env;
     stop_during := stop_during env; read_file := read_file env;
     write_error := write_error env |}.

(** One closing-quote break at 10 and one plain break at 15, both after
    the naive cut 5. *)
Definition quote_then_plain : str :=
  lit "aaaaaaa." ++ [34%N] ++ lit " bbb. ccc".

(** A break at 3, far before the naive cut 300. *)
Definition early_break : str :=
  lit "A. " ++ repeat 98%N 400.

(** Two paragraphs, the blank line ending at 6. *)
Definition two_paragraphs : str :=
  lit "aaaa" ++ [NL; NL] ++ lit "bbbbbbbb".

(** Twenty-four five-letter words, 120 characters with the spaces. *)
Definition spaced_words : str :=
  List.concat (repeat (lit "aaaa ") 24).

(** [l1] is [l2] with some elements left out, the order kept. *)
Inductive subseq {A : Type} : list A -> list A -> Prop :=
| subseq_nil : subseq [] []
| subseq_skip (x : A) (l1 l2 : list A) : subseq l1 l2 -> subseq l1 (x :: l2)
| subseq_keep (x : A) (l1 l2 : list A) : subseq l1 l2 -> subseq (x :: l1) (x :: l2).

(** A service whose answers lack the key [message]. *)
Definition env_no_message : environment :=
  {| chat_reply := fun _ _ => Ok (VDict [(lit "done", VNone)]);
     probe_reply := fun _ => Ok tt;
     stop_during := fun _ => false;
     read_file := fun _ => Ok (lit "Hello");
     write_error := fun _ => None |}.

(** A service whose answers open with a boilerplate phrase. *)
Definition env_prefixed : environment :=
  {| chat_reply := fun _ _ =>
       Ok (VDict [(lit "message",
                   VDict [(lit "content", VStr (lit "Translation:  Ahoj "))])]);
     probe_reply := fun _ => Ok tt;
     stop_during := fun _ => false;
     read_file := fun _ => Ok (lit "Hello");
     write_error := fun _ => None |}.

(** [s] begins with [phrase]. *)
Definition begins_with (s phrase : str) : Prop :=
  exists rest, s = phrase ++ rest.

(** What is left of [process_pipeline] when the stage loop stands before
    the stages [pipeline] (lines 513-560): those stages, the final write
    and the reset of the flag. *)
Definition stages_onward (lib : library) (env : environment)
    (build_combined_prompt : op_settings -> list str -> result (str * str))
    (fuel : nat) (output_path : str) (pipeline : list op_settings) (text : str)
    (step_counter : Z) : M unit :=
  bind (run_stages lib env build_combined_prompt fuel pipeline text step_counter)
       (fun text' => bind (write_output env output_path text') (fun _ => stop_run)).

(** The world of an accepted run when the stage loop begins, after the
    probe and the read have succeeded (lines 481-511). *)
Definition at_first_stage (env : environment) (output_path text : str) (w : world)
  : world :=
  add_signal (step_status ([9989%N] ++ lit " Loaded " ++ decimal (len text)
                             ++ lit " characters"))
    (add_signal (step_status ([128214%N] ++ lit " Reading input file..."))
       (add_signal (step_status ([9989%N] ++ lit " Ollama connected successfully"))
          (suspend env
             (add_signal
                (step_status ([128269%N] ++ lit " Testing Ollama connection..."))
                (set_base_path (Some output_path) (set_running true w)))))).

(** The signals one call adds, from the message it emitted. *)
Definition error_signals (emitted : option str) : list signal :=
  match emitted with
  | Some error_msg => [processing_error error_msg]
  | None => []
  end.

(** No stop arrives at the suspension points [a], ..., [b - 1]. *)
Definition quiet (env : environment) (a b : nat) : Prop :=
  forall n, (a <= n < b)%nat -> stop_during env n = false.

Definition is_finished (s : signal) : bool :=
  match s with processing_finished _ => true | _ => false end.

Definition is_status (s : signal) : bool :=
  match s with step_status _ => true | _ => false end.

(** How the world moves while the stages run: the clock goes on, the
    flag is on exactly when it was on and no stop has arrived since, and
    the signals added are not the completion signal. *)
Definition follows (env : environment) (w w' : world) : Prop :=
  (clock w <= clock w')%nat
  /\ (is_running w' = true <-> is_running w = true /\ quiet env (clock w) (clock w'))
  /\ exists new, signals w' = new ++ signals w
                 /\ forallb (fun s => negb (is_finished s)) new = true.

(** A computation every run of which moves the world that way. *)
Definition keeps {A : Type} (env : environment) (m : M A) : Prop :=
  forall w r w', m w = Some (r, w') -> follows env w w'.

(** Whether [sub_op_id] is a key of [sub_ops]. *)
Definition known (sub_ops : list (str * sub_operation)) (sub_op_id : str) : bool :=
  match lookup sub_op_id sub_ops with Some _ => true | None => false end.

(** A mark that can close a sentence: terminal punctuation or a closing
    quote. *)
Definition is_closing_mark (c : char) : bool :=
  is_terminal c || is_closing_quote c.

(** What a match of either sentence pattern covers: possibly a
    character, then a closing mark, then whitespace. *)
Definition closes_sentence (u : str) (n : nat) : Prop :=
  exists body mark ws rest,
    u = body ++ mark :: ws ++ rest
    /\ n = (List.length body + S (List.length ws))%nat
    /\ is_closing_mark mark = true
    /\ forallb is_space ws = true.

(** ** Facts about the string operations *)

Section StringFacts.

Lemma len_nonneg (s : str) : 0 <= len s.
Proof. unfold len. lia. Qed.

Lemma len_app (s t : str) : len (s ++ t) = len s + len t.
Proof. unfold len. rewrite length_app. lia. Qed.

Lemma norm_index_range (n i : Z) : 0 <= n -> 0 <= norm_index n i <= n.
Proof. unfold norm_index. destruct (Z.ltb_spec i 0); lia. Qed.

Lemma norm_index_id (n i : Z) : 0 <= i <= n -> norm_index n i = i.
Proof. unfold norm_index. destruct (Z.ltb_spec i 0); lia. Qed.

Lemma slice_in_range (s : str) (a b : Z) :
  0 <= a <= len s -> 0 <= b <= len s ->
  slice s a b = firstn (Z.to_nat (b - a)) (skipn (Z.to_nat a) s).
Proof. intros Ha Hb. unfold slice. now rewrite !norm_index_id. Qed.

Lemma slice_empty (s : str) (a : Z) : 0 <= a <= len s -> slice s a a = [].
Proof.
  intros Ha. rewrite slice_in_range by lia. now rewrite Z.sub_diag.
Qed.

Lemma slice_app (s : str) (a b c : Z) :
  0 <= a -> a <= b -> b <= c -> c <= len s ->
  slice s a b ++ slice s b c = slice s a c.
Proof.
  intros Ha Hab Hbc Hc. rewrite !slice_in_range by lia.
  replace (Z.to_nat (c - a)) with (Z.to_nat (b - a) + Z.to_nat (c - b))%nat by lia.
  replace (Z.to_nat b) with (Z.to_nat (b - a) + Z.to_nat a)%nat by lia.
  rewrite <- skipn_skipn.
  generalize (skipn (Z.to_nat a) s) as t. generalize (Z.to_nat (c - b)) as k.
  induction (Z.to_nat (b - a)) as [|n IH]; intros k t; simpl.
  - reflexivity.
  - destruct t as [|x t]; simpl.
    + now rewrite firstn_nil.
    + now rewrite IH.
Qed.

Lemma slice_all (s : str) : slice s 0 (len s) = s.
Proof.
  pose proof (len_nonneg s). rewrite slice_in_range by lia.
  simpl. rewrite Z.sub_0_r. unfold len. rewrite Nat2Z.id. apply firstn_all.
Qed.

Lemma slice_length_le (s : str) (a b : Z) :
  0 <= a <= len s -> len (slice s a b) <= len s - a.
Proof.
  intros Ha. unfold slice. rewrite (norm_index_id _ a) by exact Ha.
  unfold len in *. rewrite length_firstn, length_skipn. lia.
Qed.

Lemma last_index_lt (p : char -> bool) (s : str) (i : nat) :
  last_index p s = Some i -> (i < List.length s)%nat.
Proof.
  revert i. induction s as [|c s IH]; simpl; intros i H; [discriminate|].
  destruct (last_index p s) as [j|].
  - injection H as <-. specialize (IH j eq_refl). lia.
  - destruct (p c); [injection H as <-; lia | discriminate].
Qed.

Lemma take_while_length (p : char -> bool) (s : str) :
  (List.length (take_while p s) <= List.length s)%nat.
Proof.
  induction s as [|c s IH]; simpl; [lia|]. destruct (p c); simpl; lia.
Qed.

Lemma rfind_range (c : char) (s : str) (start stop : Z) :
  rfind c s start stop = -1 \/
  0 <= rfind c s start stop < norm_index (len s) stop.
Proof.
  unfold rfind.
  pose proof (norm_index_range (len s) start (len_nonneg s)) as Ha.
  pose proof (norm_index_range (len s) stop (len_nonneg s)) as Hb.
  set (a := norm_index (len s) start) in *.
  set (b := norm_index (len s) stop) in *.
  destruct (last_index _ _) as [i|] eqn:E; [right | now left].
  apply last_index_lt in E. rewrite length_firstn in E. lia.
Qed.

Lemma match_sentence_sound : sound_matcher match_sentence.
Proof.
  intros [|c rest] n; simpl; [discriminate|].
  destruct (is_terminal c); [|discriminate].
  pose proof (take_while_length is_space rest).
  destruct (List.length (take_while is_space rest)); [discriminate|].
  intros [= <-]. lia.
Qed.

Lemma match_quoted_sound : sound_matcher match_quoted.
Proof.
  intros [|c [|q rest]] n; simpl; try discriminate.
  destruct (is_terminal c && is_closing_quote q); [|discriminate].
  pose proof (take_while_length is_space rest).
  destruct (List.length (take_while is_space rest)); [discriminate|].
  intros [= <-]. lia.
Qed.

Lemma match_paragraph_sound : sound_matcher match_paragraph.
Proof.
  intros [|c rest] n; simpl; [discriminate|].
  destruct (c =? NL)%N; [|discriminate].
  destruct (last_index _ _) as [j|] eqn:E; [|discriminate].
  apply last_index_lt in E. pose proof (take_while_length is_space rest).
  intros [= <-]. lia.
Qed.

(** Every reported end lies after the scan position (and after the part
    of the current match still to pass) and inside the text. *)
Lemma finditer_ends_range (m : str -> option nat) :
  sound_matcher m ->
  forall s pos skip e,
    In e (finditer_ends m s pos skip) ->
    pos + Z.of_nat skip < e <= pos + len s.
Proof.
  intros Hm. unfold len.
  induction s as [|c s IH]; intros pos skip e; simpl; [tauto|].
  destruct skip as [|k].
  - destruct (m (c :: s)) as [n|] eqn:E.
    + apply Hm in E. simpl in E. intros [<- | H]; [lia|].
      apply IH in H. lia.
    + intros H. apply IH in H. lia.
  - intros H. apply IH in H. lia.
Qed.

(** The ends come out in increasing order. *)
Lemma finditer_ends_sorted (m : str -> option nat) :
  sound_matcher m ->
  forall s pos skip, StronglySorted Z.lt (finditer_ends m s pos skip).
Proof.
  intros Hm. induction s as [|c s IH]; intros pos skip; simpl; [constructor|].
  destruct skip as [|k]; [|apply IH].
  destruct (m (c :: s)) as [n|] eqn:E; [|apply IH].
  constructor; [apply IH|]. apply Forall_forall. intros e He.
  apply (finditer_ends_range m Hm) in He. apply Hm in E. lia.
Qed.

Lemma max_default_in (xs : list Z) (d : Z) :
  xs = [] /\ max_default xs d = d \/ xs <> [] /\ In (max_default xs d) xs.
Proof.
  destruct xs as [|x xs]; [now left | right]. split; [discriminate|].
  unfold max_default. revert x.
  induction xs as [|y ys IH]; intros x; [now left|].
  change (fold_left Z.max (y :: ys) x) with (fold_left Z.max ys (Z.max x y)).
  destruct (IH (Z.max x y)) as [H | H].
  - rewrite <- H.
    destruct (Z.max_spec x y) as [[_ E] | [_ E]]; rewrite E; simpl; auto.
  - simpl; auto.
Qed.

Lemma max_default_upper (xs : list Z) (d x : Z) :
  In x xs -> x <= max_default xs d.
Proof.
  destruct xs as [|y ys]; [intros []|]. simpl.
  assert (G : forall l a, a <= fold_left Z.max l a).
  { induction l as [|b l IHl]; intros a; simpl; [lia|].
    specialize (IHl (Z.max a b)). lia. }
  revert y. induction ys as [|z zs IH]; intros y; simpl.
  - intros [-> | []]. lia.
  - intros [-> | [-> | H]].
    + specialize (G zs (Z.max x z)). lia.
    + specialize (G zs (Z.max y x)). lia.
    + apply IH. now right.
Qed.

End StringFacts.

(** ** Facts about the chunker *)

Section ChunkerFacts.

Variable text : str.

Lemma breaks_of_range (m : str -> option nat) (st : str) (ss position ce b : Z) :
  sound_matcher m ->
  In b (breaks_of m st ss position ce) ->
  position < b <= ce + 100 /\ b <= ss + len st.
Proof.
  intros Hm Hb. unfold breaks_of in Hb. apply filter_In in Hb as [Hin Hk].
  apply andb_prop in Hk as [H1 H2].
  apply Z.ltb_lt in H1. apply Z.leb_le in H2.
  apply (finditer_ends_range m Hm) in Hin. lia.
Qed.

(** Every candidate of a search lies after [position] and inside the text. *)
Lemma candidate_range (m : str -> option nat) (position ce b : Z) :
  sound_matcher m ->
  0 <= position -> ce < len text ->
  In b (breaks_of m (slice text (Z.max position (ce - 200)) (ce + 100))
                  (Z.max position (ce - 200)) position ce) ->
  position < b <= len text.
Proof.
  intros Hm H0 Hce Hb.
  destruct (Z.le_gt_cases (len text) position) as [Hge | Hlt].
  - (* nothing to scan: the slice starts at the end of the text *)
    apply (breaks_of_range m _ _ _ _ _ Hm) in Hb.
    assert (Hs : len (slice text (Z.max position (ce - 200)) (ce + 100)) = 0).
    { unfold slice, len. rewrite length_firstn, length_skipn. fold (len text).
      pose proof (norm_index_range (len text) (ce + 100) (len_nonneg text)).
      unfold norm_index at 2.
      destruct (Z.ltb_spec (Z.max position (ce - 200)) 0); unfold len in *; lia. }
    lia.
  - apply (breaks_of_range m _ _ _ _ _ Hm) in Hb.
    pose proof (slice_length_le text (Z.max position (ce - 200)) (ce + 100)).
    lia.
Qed.

Lemma best_break_in (b0 : Z) (rest : list Z) (ce : Z) :
  In (best_break (b0 :: rest) b0 ce) (b0 :: rest).
Proof.
  unfold best_break.
  destruct (max_default_in (filter (fun b => b <=? ce) (b0 :: rest)) b0)
    as [[_ E] | [_ H]].
  - rewrite E. now left.
  - apply filter_In in H. tauto.
Qed.

Lemma sentence_breaks_range (position ce b : Z) :
  0 <= position -> ce < len text ->
  In b (sentence_breaks text position ce) -> position < b <= len text.
Proof.
  intros H0 Hce Hb. unfold sentence_breaks in Hb. apply in_app_or in Hb.
  destruct Hb as [Hb | Hb].
  - exact (candidate_range _ _ _ _ match_sentence_sound H0 Hce Hb).
  - exact (candidate_range _ _ _ _ match_quoted_sound H0 Hce Hb).
Qed.

Lemma para_breaks_range (position ce b : Z) :
  0 <= position -> ce < len text ->
  In b (para_breaks text position ce) -> position < b <= len text.
Proof.
  intros H0 Hce Hb.
  exact (candidate_range _ _ _ _ match_paragraph_sound H0 Hce Hb).
Qed.

(** The cut never passes the end of the text. *)
Lemma cut_point_le (position max_chars : Z) :
  0 <= position -> cut_point text position max_chars <= len text.
Proof.
  intros H0. unfold cut_point. pose proof (len_nonneg text) as Hlen.
  set (ce := Z.min (position + max_chars) (len text)).
  destruct (Z.ltb_spec ce (len text)) as [Hce | Hce]; [|lia].
  destruct (sentence_breaks text position ce) as [|b0 rest] eqn:Es.
  - destruct (para_breaks text position ce) as [|p0 prest] eqn:Ep.
    + destruct (rfind_range SPACE text (ce - 100) ce) as [E | E].
      * rewrite E. destruct (position <? -1); lia.
      * pose proof (norm_index_range (len text) ce (len_nonneg text)).
        destruct (position <? _); lia.
    + pose proof (best_break_in p0 prest ce) as Hin. rewrite <- Ep in Hin at 2.
      apply para_breaks_range in Hin; lia.
  - pose proof (best_break_in b0 rest ce) as Hin. rewrite <- Es in Hin at 2.
    apply sentence_breaks_range in Hin; lia.
Qed.

(** The cut lies strictly after [position]: the guard of every branch. *)
Lemma cut_point_gt (position max_chars : Z) :
  1 <= max_chars -> position < len text ->
  position < cut_point text position max_chars.
Proof.
  intros Hm Hp. unfold cut_point.
  set (ce := Z.min (position + max_chars) (len text)).
  assert (Hgt : forall m st ss b, In b (breaks_of m st ss position ce) -> position < b).
  { intros m st ss b Hb. unfold breaks_of in Hb. apply filter_In in Hb as [_ Hk].
    apply andb_prop in Hk as [H1 _]. now apply Z.ltb_lt in H1. }
  destruct (Z.ltb_spec ce (len text)) as [Hce | Hce]; [|lia].
  destruct (sentence_breaks text position ce) as [|b0 rest] eqn:Es.
  - destruct (para_breaks text position ce) as [|p0 prest] eqn:Ep.
    + destruct (Z.ltb_spec position (rfind SPACE text (ce - 100) ce)); lia.
    + pose proof (best_break_in p0 prest ce) as Hin. rewrite <- Ep in Hin at 2.
      exact (Hgt _ _ _ _ Hin).
  - pose proof (best_break_in b0 rest ce) as Hin. rewrite <- Es in Hin at 2.
    unfold sentence_breaks in Hin. apply in_app_or in Hin.
    destruct Hin as [Hin | Hin]; exact (Hgt _ _ _ _ Hin).
Qed.

End ChunkerFacts.

(** ** The chunking loop *)

Section ChunkLoop.

Variable text : str.
Variables max_chars overlap : Z.

(** More fuel does not change a result. *)
Lemma chunk_loop_fuel_mono (fuel fuel' : nat) :
  (fuel <= fuel')%nat ->
  forall position previous_end its,
    chunk_loop fuel text max_chars overlap position previous_end = Some its ->
    chunk_loop fuel' text max_chars overlap position previous_end = Some its.
Proof.
  revert fuel'. induction fuel as [|fuel IH]; intros fuel' Hle position prev its.
  - destruct fuel'; simpl; destruct (position <? len text); try discriminate; auto.
  - destruct fuel' as [|fuel']; [lia|]. simpl.
    destruct (position <? len text); [|auto].
    destruct (chunk_loop fuel _ _ _ _ _) as [r|] eqn:E; [|discriminate].
    rewrite (IH fuel' ltac:(lia) _ _ _ E). auto.
Qed.

Lemma chunk_loop_deterministic (fuel fuel' : nat) position previous_end its its' :
  chunk_loop fuel text max_chars overlap position previous_end = Some its ->
  chunk_loop fuel' text max_chars overlap position previous_end = Some its' ->
  its = its'.
Proof.
  intros H H'. destruct (Nat.le_ge_cases fuel fuel') as [L | L].
  - rewrite (chunk_loop_fuel_mono _ _ L _ _ _ H) in H'. congruence.
  - rewrite (chunk_loop_fuel_mono _ _ L _ _ _ H') in H. congruence.
Qed.

Hypothesis max_chars_pos : 1 <= max_chars.

(** The loop invariant [0 <= position <= len text] with the variant
    [len text - position]: enough fuel gives the list, whose spans run on
    from [position] to the end of the text, each one non-empty, and whose
    chunk texts are the trimmed spans. *)
Lemma chunk_loop_spec (fuel : nat) :
  forall position previous_end,
    0 <= position <= len text ->
    len text - position <= Z.of_nat fuel ->
    exists its,
      chunk_loop fuel text max_chars overlap position previous_end = Some its /\
      spans_from position its (len text) /\
      Forall (fun it => 0 <= it_position it < it_chunk_end it
                        /\ it_chunk_end it <= len text) its /\
      Forall (fun it => fst (fst (it_chunk it)) = strip (span_text text it)) its /\
      Z.of_nat (List.length its) <= len text - position.
Proof.
  induction fuel as [|fuel IH]; intros position prev Hpos Hfuel.
  - exists []. simpl. destruct (Z.ltb_spec position (len text)); [lia|].
    repeat split; auto; simpl; lia.
  - simpl. destruct (Z.ltb_spec position (len text)) as [Hlt | Hge].
    + pose proof (cut_point_gt text position max_chars max_chars_pos Hlt) as Hgt.
      pose proof (cut_point_le text position max_chars ltac:(lia)) as Hle.
      set (ce := cut_point text position max_chars) in *.
      destruct (IH ce (next_context overlap (strip (slice text position ce)))
                  ltac:(lia) ltac:(lia))
        as (its & E & Hspans & Hrange & Htrim & Hlen).
      rewrite E. simpl. eexists. split; [reflexivity|].
      repeat split; simpl; auto; try lia.
      * constructor; [simpl; lia | exact Hrange].
    + exists []. repeat split; auto; simpl; lia.
Qed.

(** Consecutive non-empty spans concatenate to the slice they bracket. *)
Lemma spans_concat (its : list iteration) :
  forall a b,
    0 <= a -> b <= len text ->
    spans_from a its b ->
    Forall (fun it => 0 <= it_position it < it_chunk_end it
                      /\ it_chunk_end it <= len text) its ->
    a <= b /\ List.concat (List.map (span_text text) its) = slice text a b.
Proof.
  induction its as [|it rest IH]; intros a b Ha Hb Hspans Hrange; simpl in *.
  - subst b. split; [lia|]. now rewrite slice_empty by lia.
  - destruct Hspans as [Hp Hrest]. inversion Hrange as [|? ? [H1 H2] Hr]; subst.
    destruct (IH (it_chunk_end it) b ltac:(lia) Hb Hrest Hr) as [Hle Hcat].
    split; [lia|]. rewrite Hcat. unfold span_text. apply slice_app; lia.
Qed.

End ChunkLoop.

(** ** Properties of [TextChunker.chunk_text] *)

(** C8. With the whole-file value [-1], or with a document no longer than
    [max_chars] (the empty document under any non-negative [max_chars]
    among them), [chunk_text] returns, whatever the fuel, exactly one
    chunk: the whole document, flagged first, with an empty context. *)
Theorem chunk_text_single_segment (fuel : nat) (text : str) (max_chars overlap : Z) :
  (max_chars = -1 \/ len text <= max_chars ->
     chunk_text fuel text max_chars overlap = Some [(text, [], true)]) /\
  (max_chars = -1 \/ 0 <= max_chars ->
     chunk_text fuel [] max_chars overlap = Some [([], [], true)]).
Proof.
  assert (G : forall t, max_chars = -1 \/ len t <= max_chars ->
                        chunk_text fuel t max_chars overlap = Some [(t, [], true)]).
  { intros t H. unfold chunk_text.
    destruct (Z.eqb_spec max_chars (-1)) as [E | E]; [reflexivity|].
    destruct (Z.leb_spec (len t) max_chars); [reflexivity | lia]. }
  split; [apply G|]. intros H. apply G. unfold len. simpl. lia.
Qed.

Lemma chunk_text_single_segment_witness :
  chunk_text 0 (lit "short") 3000 300 = Some [(lit "short", [], true)].
Proof.
  apply (proj1 (chunk_text_single_segment 0 (lit "short") 3000 300)).
  right. vm_compute. discriminate.
Defined.

(** C3. For [max_chars >= 1] the cut of a pass lies strictly after its
    [position] whenever [position < len(text)]; hence the loop, given
    [len(text)] units of fuel, returns after at most [len(text)] passes,
    no pass has [chunk_end <= position], and [chunk_text] returns. *)
Theorem chunk_text_terminates (text : str) (max_chars overlap : Z) :
  1 <= max_chars ->
  (forall position, position < len text ->
     position < cut_point text position max_chars) /\
  exists its,
    chunk_loop (List.length text) text max_chars overlap 0 [] = Some its /\
    (List.length its <= List.length text)%nat /\
    Forall (fun it => it_position it < it_chunk_end it) its /\
    exists chunks, chunk_text (List.length text) text max_chars overlap = Some chunks.
Proof.
  intros Hm. split.
  - intros position Hp. now apply cut_point_gt.
  - pose proof (len_nonneg text) as Hlen.
    destruct (chunk_loop_spec text max_chars overlap Hm (List.length text) 0 []
                ltac:(lia) ltac:(unfold len; lia))
      as (its & E & _ & Hrange & _ & Hcount).
    exists its. split; [exact E|]. split; [unfold len in Hcount; lia|]. split.
    + eapply Forall_impl; [|exact Hrange]. simpl. intros it H. lia.
    + unfold chunk_text. destruct (max_chars =? -1); [eauto|].
      destruct (len text <=? max_chars); [eauto|]. rewrite E. simpl. eauto.
Qed.

Lemma chunk_text_terminates_witness :
  exists its,
    chunk_loop 9 (lit "aaaa bbbb") 5 0 0 [] = Some its /\ (List.length its <= 9)%nat.
Proof.
  destruct (chunk_text_terminates (lit "aaaa bbbb") 5 0 ltac:(lia))
    as (_ & its & E & Hn & _).
  exists its. split; [exact E | exact Hn].
Defined.

(** C2. For [max_chars >= 1] the spans [[position, chunk_end)] cut by the
    loop are consecutive, start at 0 and end at [len(text)], and their
    slices concatenate to the document; each returned chunk text is its
    span, trimmed.  When the loop is not entered the single chunk is the
    document itself. *)
Theorem chunk_spans_cover (text : str) (max_chars overlap : Z) :
  1 <= max_chars ->
  exists its,
    chunk_loop (List.length text) text max_chars overlap 0 [] = Some its /\
    spans_from 0 its (len text) /\
    List.concat (List.map (span_text text) its) = text /\
    Forall (fun it => fst (fst (it_chunk it)) = strip (span_text text it)) its /\
    forall fuel chunks,
      chunk_text fuel text max_chars overlap = Some chunks ->
      (len text <= max_chars /\ chunks = [(text, [], true)]) \/
      (max_chars < len text /\ chunks = List.map it_chunk its).
Proof.
  intros Hm. pose proof (len_nonneg text) as Hlen.
  destruct (chunk_loop_spec text max_chars overlap Hm (List.length text) 0 []
              ltac:(lia) ltac:(unfold len; lia))
    as (its & E & Hspans & Hrange & Htrim & _).
  exists its. split; [exact E|]. split; [exact Hspans|]. split.
  - destruct (spans_concat text its 0 (len text) ltac:(lia) ltac:(lia) Hspans Hrange)
      as [_ Hcat].
    rewrite Hcat. apply slice_all.
  - split; [exact Htrim|]. intros fuel chunks. unfold chunk_text.
    destruct (Z.eqb_spec max_chars (-1)); [lia|].
    destruct (Z.leb_spec (len text) max_chars) as [Hle | Hgt].
    + intros [= <-]. now left.
    + destruct (chunk_loop fuel _ _ _ _ _) as [its'|] eqn:E'; [|discriminate].
      simpl. intros [= <-]. right. split; [exact Hgt|].
      now rewrite (chunk_loop_deterministic _ _ _ _ _ _ _ _ _ E E').
Qed.

Lemma chunk_spans_cover_witness :
  exists its,
    chunk_loop 9 (lit "aaaa bbbb") 5 0 0 [] = Some its /\
    List.concat (List.map (span_text (lit "aaaa bbbb")) its) = lit "aaaa bbbb".
Proof.
  destruct (chunk_spans_cover (lit "aaaa bbbb") 5 0 ltac:(lia))
    as (its & E & _ & Hcat & _).
  exists its. split; [exact E | exact Hcat].
Defined.

(** *** The overlap context *)

(** With a positive [overlap] the context is the tail of the chunk text,
    at most [min(overlap, len(chunk_text))] long. *)
Lemma next_context_bound (overlap : Z) (chunk_text : str) :
  1 <= overlap ->
  len (next_context overlap chunk_text) <= Z.min overlap (len chunk_text).
Proof.
  intros Ho. unfold next_context. pose proof (len_nonneg chunk_text) as Hl.
  destruct (Z.ltb_spec (Z.min overlap (len chunk_text)) (len chunk_text)) as [H | H].
  - unfold slice_from, norm_index.
    destruct (Z.ltb_spec (- Z.min overlap (len chunk_text)) 0); [|lia].
    unfold len in *. rewrite length_skipn. lia.
  - lia.
Qed.

(** With [overlap = 0] the test [len(chunk_text) > 0] sends a non-empty
    chunk to [chunk_text[-0:]], which is the whole chunk text. *)
Lemma next_context_zero (chunk_text : str) :
  next_context 0 chunk_text = chunk_text.
Proof.
  unfold next_context. pose proof (len_nonneg chunk_text) as Hl.
  destruct (Z.ltb_spec (Z.min 0 (len chunk_text)) (len chunk_text)); [|reflexivity].
  rewrite Z.min_l by lia. unfold slice_from, norm_index. simpl.
  rewrite Z.min_l by lia. reflexivity.
Qed.

(** C1. At [overlap = 0] the second chunk of ["aaaa bbbb"] cut at 5
    carries the whole first chunk as its context: four characters, where
    [min(overlap, len(previous))] is 0. *)
Theorem overlap_zero_context_is_whole_chunk :
  chunk_text 9 (lit "aaaa bbbb") 5 0
  = Some [(lit "aaaa", [], true); (lit "bbbb", lit "aaaa", false)]
  /\ Z.min 0 (len (lit "aaaa")) < len (lit "aaaa").
Proof. split; vm_compute; reflexivity. Qed.

(** *** The choice among sentence breaks *)

Lemma filter_none {A : Type} (f : A -> bool) (l : list A) :
  (forall x, In x l -> f x = false) -> filter f l = [].
Proof.
  induction l as [|x l IH]; intros H; simpl; [reflexivity|].
  rewrite (H x (or_introl eq_refl)). apply IH. intros y Hy. apply H. now right.
Qed.

Lemma sorted_filter (f : Z -> bool) (l : list Z) :
  StronglySorted Z.lt l -> StronglySorted Z.lt (filter f l).
Proof.
  induction 1 as [|x l Hs IH Hall]; simpl; [constructor|].
  destruct (f x); [|exact IH]. constructor; [exact IH|].
  apply Forall_forall. intros y Hy. apply filter_In in Hy as [Hy _].
  rewrite Forall_forall in Hall. now apply Hall.
Qed.

Lemma sorted_head_least (x : Z) (l : list Z) :
  StronglySorted Z.lt (x :: l) -> forall y, In y (x :: l) -> x <= y.
Proof.
  intros Hs y [<- | Hy]; [lia|]. inversion Hs as [|? ? _ Hall]; subst.
  rewrite Forall_forall in Hall. specialize (Hall y Hy). lia.
Qed.

Lemma breaks_of_sorted (m : str -> option nat) (st : str) (ss position ce : Z) :
  sound_matcher m -> StronglySorted Z.lt (breaks_of m st ss position ce).
Proof.
  intros Hm. unfold breaks_of. apply sorted_filter. now apply finditer_ends_sorted.
Qed.

(** C6, as the code has it.  When the search runs ([position + max_chars]
    is short of the end) and finds a sentence break, the cut is one of the
    breaks found: the latest one not after the naive cut when there is
    one; otherwise the first of the list as collected, that is the
    earliest match of the plain pattern when it matched, and the earliest
    match of the closing-quote pattern only when the plain one did not. *)
Theorem sentence_cut_choice (text : str) (position max_chars : Z) :
  let naive := position + max_chars in
  let candidates := sentence_breaks text position naive in
  let plain := plain_breaks text position naive in
  let quoted := quoted_breaks text position naive in
  let cut := cut_point text position max_chars in
  naive < len text ->
  candidates <> [] ->
  In cut candidates /\
  ((exists b, In b candidates /\ b <= naive) ->
     cut <= naive /\ forall b, In b candidates -> b <= naive -> b <= cut) /\
  ((forall b, In b candidates -> naive < b) ->
     (plain <> [] -> In cut plain /\ forall b, In b plain -> cut <= b) /\
     (plain = [] -> In cut quoted /\ forall b, In b quoted -> cut <= b)).
Proof.
  intros naive candidates plain quoted cut Hnaive Hne.
  assert (Ecut : exists b0 rest, candidates = b0 :: rest
                                 /\ cut = best_break (b0 :: rest) b0 naive).
  { subst cut. unfold cut_point. fold naive. rewrite Z.min_l by lia.
    destruct (Z.ltb_spec naive (len text)); [|lia]. fold candidates.
    destruct candidates as [|b0 rest]; [contradiction|]. eauto. }
  destruct Ecut as (b0 & rest & Ec & Ecut). rewrite Ecut, Ec.
  split; [apply best_break_in|]. split.
  - intros (b & Hb & Hle). unfold best_break.
    destruct (max_default_in (filter (fun b => b <=? naive) (b0 :: rest)) b0)
      as [[En _] | [_ Hin]].
    + assert (Hf : In b (filter (fun b => b <=? naive) (b0 :: rest))).
      { apply filter_In. split; [exact Hb | now apply Z.leb_le]. }
      rewrite En in Hf. destruct Hf.
    + split.
      * apply filter_In in Hin as [_ Hin]. now apply Z.leb_le in Hin.
      * intros b' Hb' Hle'. apply max_default_upper. apply filter_In.
        split; [exact Hb' | now apply Z.leb_le].
  - intros Hall.
    assert (E0 : best_break (b0 :: rest) b0 naive = b0).
    { unfold best_break. rewrite filter_none; [reflexivity|].
      intros x Hx. apply Z.leb_gt. now apply Hall. }
    rewrite E0. subst candidates. unfold sentence_breaks in Ec. fold plain quoted in Ec.
    split.
    + intros Hp. destruct plain as [|p ps] eqn:Ep; [contradiction|].
      simpl in Ec. injection Ec as -> _. split; [now left|].
      apply sorted_head_least. rewrite <- Ep.
      apply breaks_of_sorted, match_sentence_sound.
    + intros Hp. rewrite Hp in Ec. simpl in Ec. rewrite Ec. split; [now left|].
      apply sorted_head_least. rewrite <- Ec.
      apply breaks_of_sorted, match_quoted_sound.
Qed.

Lemma sentence_cut_choice_witness :
  In (cut_point quote_then_plain 0 5) (sentence_breaks quote_then_plain 0 5).
Proof.
  apply (sentence_cut_choice quote_then_plain 0 5).
  - vm_compute. reflexivity.
  - vm_compute. discriminate.
Defined.

(** C6 as stated fails twice.  In [quote_then_plain] every candidate is
    after the naive cut and the cut is 15 although the candidate 10 is
    earlier.  In [early_break] a sentence end lies after the chunk start
    and before the naive cut, but more than 200 characters before it, so
    the search never sees it and the cut is the naive one. *)
Lemma sentence_cut_not_earliest :
  (sentence_breaks quote_then_plain 0 5 = [15; 10]
   /\ cut_point quote_then_plain 0 5 = 15)
  /\ (In 3 (finditer_ends match_sentence early_break 0 0)
      /\ sentence_breaks early_break 0 300 = []
      /\ cut_point early_break 0 300 = 300).
Proof.
  split; [split; vm_compute; reflexivity|].
  split; [left; vm_compute; reflexivity|].
  split; vm_compute; reflexivity.
Qed.

(** *** Trimming and splitting *)

Section SplitFacts.

Lemma str_pair_ind (P : str -> Prop) :
  P [] -> (forall c, P [c]) ->
  (forall c d s, P s -> P (d :: s) -> P (c :: d :: s)) ->
  forall s, P s.
Proof.
  intros H0 H1 H2 s.
  assert (G : P s /\ forall c, P (c :: s)).
  { induction s as [|d s [IHs IHc]]; split; auto. }
  exact (proj1 G).
Qed.

Lemma lstrip_head (s : str) :
  lstrip s = [] \/ exists c t, lstrip s = c :: t /\ is_space c = false.
Proof.
  unfold lstrip. induction s as [|c s IH]; simpl; [now left|].
  destruct (is_space c) eqn:E; [exact IH|]. right. eauto.
Qed.

Lemma rstrip_keeps_head (c : char) (s : str) :
  is_space c = false -> exists r, rstrip (c :: s) = c :: r.
Proof.
  intros E. simpl. destruct (rstrip s); [rewrite E|]; eauto.
Qed.

Lemma rstrip_head_of (s : str) (d : char) (r : str) :
  rstrip s = d :: r -> exists t, s = d :: t.
Proof.
  destruct s as [|c s]; simpl; [discriminate|].
  destruct (rstrip s); [destruct (is_space c)|]; intros [= <- _] || discriminate; eauto.
Qed.

Lemma rstrip_rstrip (s : str) : rstrip (rstrip s) = rstrip s.
Proof.
  induction s as [|c s IH]; simpl; [reflexivity|].
  destruct (rstrip s) as [|d r] eqn:E.
  - destruct (is_space c) eqn:Ec; simpl; [reflexivity | now rewrite Ec].
  - simpl in *. rewrite IH. reflexivity.
Qed.

Lemma strip_strip (s : str) : strip (strip s) = strip s.
Proof.
  unfold strip at 2 3. destruct (lstrip_head s) as [E | (c & t & E & Hc)]; rewrite E.
  - reflexivity.
  - destruct (rstrip_keeps_head c t Hc) as [r Er]. unfold strip.
    assert (El : lstrip (rstrip (c :: t)) = rstrip (c :: t)).
    { rewrite Er. unfold lstrip. simpl. now rewrite Hc. }
    rewrite El. apply rstrip_rstrip.
Qed.

Lemma rstrip_last_ok (s : str) : last_ok (rstrip s).
Proof.
  induction s as [|c s IH]; simpl; [exact I|].
  destruct (rstrip s) as [|d r] eqn:E.
  - destruct (is_space c) eqn:Ec; simpl; auto.
  - exact IH.
Qed.

Lemma drop_while_blank_free (p : char -> bool) (s : str) :
  blank_free s -> blank_free (drop_while p s).
Proof.
  induction s as [|c s IH]; simpl; [auto|]. intros [H1 H2].
  destruct (p c); [auto | simpl; auto].
Qed.

Lemma rstrip_blank_free (s : str) : blank_free s -> blank_free (rstrip s).
Proof.
  induction s as [|c s IH]; simpl; [auto|]. intros [H1 H2].
  destruct (rstrip s) as [|d r] eqn:E.
  - destruct (is_space c); simpl; auto.
  - split; [|auto]. destruct (rstrip_head_of s d r E) as [t ->]. exact H1.
Qed.

Lemma strip_blank_free (s : str) : blank_free s -> blank_free (strip s).
Proof.
  intros H. unfold strip, lstrip. now apply rstrip_blank_free, drop_while_blank_free.
Qed.

Lemma cons_head_nonempty (c : char) (l : list str) : cons_head c l <> [].
Proof. destruct l; discriminate. Qed.

Lemma split_blank_nonempty (s : str) : split_blank s <> [].
Proof.
  destruct s as [|c [|d s]]; try discriminate.
  change (split_blank (c :: d :: s))
    with (if ((c =? NL) && (d =? NL))%N then [] :: split_blank s
          else cons_head c (split_blank (d :: s))).
  destruct ((c =? NL) && (d =? NL))%N; [discriminate | apply cons_head_nonempty].
Qed.

Lemma split_blank_head (d : char) (t p : str) (ps : list str) :
  split_blank (d :: t) = p :: ps -> p = [] \/ exists p', p = d :: p'.
Proof.
  destruct t as [|e t].
  - simpl. intros [= <- _]. eauto.
  - change (split_blank (d :: e :: t))
      with (if ((d =? NL) && (e =? NL))%N then [] :: split_blank t
            else cons_head d (split_blank (e :: t))).
    destruct ((d =? NL) && (e =? NL))%N.
    + intros [= <- _]. now left.
    + destruct (split_blank (e :: t)); intros [= <- _]; eauto.
Qed.

Lemma both_newline (c d : char) :
  ((c =? NL) && (d =? NL))%N = true <-> c = NL /\ d = NL.
Proof.
  rewrite andb_true_iff, !N.eqb_eq. tauto.
Qed.

Lemma split_blank_pieces (s : str) : Forall blank_free (split_blank s).
Proof.
  induction s as [| c | c d s IHs IHd] using str_pair_ind.
  - repeat constructor.
  - repeat constructor.
  - change (split_blank (c :: d :: s))
      with (if ((c =? NL) && (d =? NL))%N then [] :: split_blank s
            else cons_head c (split_blank (d :: s))).
    destruct ((c =? NL) && (d =? NL))%N eqn:E.
    + constructor; [exact I | exact IHs].
    + destruct (split_blank (d :: s)) as [|p ps] eqn:Ep.
      * repeat constructor.
      * inversion IHd as [|? ? Hp Hps]; subst. constructor; [|exact Hps].
        simpl. split; [|exact Hp].
        destruct (split_blank_head d s p ps Ep) as [-> | [p' ->]]; [exact I|].
        intros H. apply both_newline in H. congruence.
Qed.

Lemma join_cons_head (sep : str) (c : char) (l : list str) :
  l <> [] -> join sep (cons_head c l) = c :: join sep l.
Proof.
  destruct l as [|p [|q l]]; [contradiction | reflexivity | reflexivity].
Qed.

(** Joining the pieces of a split on the separator gives the text back. *)
Lemma join_split_blank (s : str) : join [NL; NL] (split_blank s) = s.
Proof.
  induction s as [| c | c d s IHs IHd] using str_pair_ind.
  - reflexivity.
  - reflexivity.
  - change (split_blank (c :: d :: s))
      with (if ((c =? NL) && (d =? NL))%N then [] :: split_blank s
            else cons_head c (split_blank (d :: s))).
    destruct ((c =? NL) && (d =? NL))%N eqn:E.
    + apply both_newline in E as [-> ->].
      pose proof (split_blank_nonempty s) as Hne.
      destruct (split_blank s) as [|p ps] eqn:Ep; [contradiction|].
      change (join [NL; NL] ([] :: p :: ps)) with (NL :: NL :: join [NL; NL] (p :: ps)).
      now rewrite IHs.
    + rewrite join_cons_head by apply split_blank_nonempty. now rewrite IHd.
Qed.

Lemma split_blank_free (p : str) : blank_free p -> split_blank p = [p].
Proof.
  induction p as [| c | c d s IHs IHd] using str_pair_ind; try reflexivity.
  intros [H1 H2].
  change (split_blank (c :: d :: s))
    with (if ((c =? NL) && (d =? NL))%N then [] :: split_blank s
          else cons_head c (split_blank (d :: s))).
  destruct ((c =? NL) && (d =? NL))%N eqn:E.
  - apply both_newline in E. contradiction.
  - rewrite (IHd H2). reflexivity.
Qed.

Lemma split_blank_app (p t : str) :
  blank_free p -> last_ok p ->
  split_blank (p ++ NL :: NL :: t) = p :: split_blank t.
Proof.
  induction p as [|c p IH]; intros Hb Hl; [reflexivity|].
  destruct p as [|d p].
  - simpl in Hl. change (([c] ++ NL :: NL :: t)) with (c :: NL :: NL :: t).
    change (split_blank (c :: NL :: NL :: t))
      with (if ((c =? NL) && (NL =? NL))%N then [] :: split_blank (NL :: t)
            else cons_head c (split_blank (NL :: NL :: t))).
    destruct ((c =? NL) && (NL =? NL))%N eqn:E.
    + apply both_newline in E as [-> _]. discriminate.
    + reflexivity.
  - destruct Hb as [H1 H2].
    change (((c :: d :: p) ++ NL :: NL :: t)) with (c :: d :: (p ++ NL :: NL :: t)).
    change (split_blank (c :: d :: (p ++ NL :: NL :: t)))
      with (if ((c =? NL) && (d =? NL))%N then [] :: split_blank (p ++ NL :: NL :: t)
            else cons_head c (split_blank ((d :: p) ++ NL :: NL :: t))).
    destruct ((c =? NL) && (d =? NL))%N eqn:E.
    + apply both_newline in E. contradiction.
    + rewrite (IH H2 Hl). reflexivity.
Qed.

(** Splitting a join of paragraphs that hold no blank line and do not end
    in whitespace gives the paragraphs back. *)
Lemma split_blank_join (ps : list str) :
  ps <> [] ->
  Forall (fun p => blank_free p /\ last_ok p) ps ->
  split_blank (join [NL; NL] ps) = ps.
Proof.
  induction ps as [|p ps IH]; [contradiction|]. intros _ Hall.
  inversion Hall as [|? ? [Hb Hl] Hrest]; subst.
  destruct ps as [|q ps].
  - simpl. now apply split_blank_free.
  - change (join [NL; NL] (p :: q :: ps))
      with (p ++ NL :: NL :: join [NL; NL] (q :: ps)).
    rewrite split_blank_app by assumption.
    rewrite IH; [reflexivity | discriminate | exact Hrest].
Qed.

End SplitFacts.

(** *** The deduplication loop *)

Section DedupFacts.

Variable lower : str -> str.

(** What the loop appends: trimmed, non-empty copies of input paragraphs
    whose normalised forms are pairwise distinct and new to [seen]. *)
Lemma dedup_loop_out (paragraphs : list str) :
  forall seen,
    Forall (fun p => p <> [] /\ strip p = p /\ exists q, In q paragraphs /\ p = strip q)
           (dedup_loop lower paragraphs seen)
    /\ NoDup (List.map (normalize lower) (dedup_loop lower paragraphs seen))
    /\ forall p, In p (dedup_loop lower paragraphs seen) -> ~ In (normalize lower p) seen.
Proof.
  induction paragraphs as [|para rest IH]; intros seen; simpl.
  - repeat split; [constructor | constructor | intros p []].
  - assert (Hweak : forall out,
               Forall (fun p => p <> [] /\ strip p = p
                                /\ exists q, In q rest /\ p = strip q) out ->
               Forall (fun p => p <> [] /\ strip p = p
                                /\ exists q, (para = q \/ In q rest) /\ p = strip q) out).
    { intros out H. eapply Forall_impl; [|exact H]. simpl.
      intros p (H1 & H2 & q & Hq & Hp). eauto 6. }
    destruct (strip para) as [|c sp] eqn:Es.
    + destruct (IH seen) as (H1 & H2 & H3).
      split; [exact (Hweak _ H1) | split; assumption].
    + destruct (in_dec str_eq_dec (normalize lower (c :: sp)) seen) as [Hin | Hnin].
      * destruct (IH seen) as (H1 & H2 & H3).
        split; [exact (Hweak _ H1) | split; assumption].
      * destruct (IH (normalize lower (c :: sp) :: seen)) as (H1 & H2 & H3).
        split; [|split].
        -- constructor; [|exact (Hweak _ H1)].
           split; [discriminate|]. split; [rewrite <- Es; apply strip_strip|].
           exists para. auto.
        -- simpl. constructor; [|exact H2]. intros Hin.
           apply in_map_iff in Hin as (p & Ep & Hp).
           apply (H3 p Hp). left. now symmetry.
        -- intros p [<- | Hp]; [exact Hnin|].
           intros Hin. apply (H3 p Hp). now right.
Qed.

(** A list of that shape passes through the loop unchanged. *)
Lemma dedup_loop_fixed (out : list str) :
  forall seen,
    Forall (fun p => p <> [] /\ strip p = p) out ->
    NoDup (List.map (normalize lower) out) ->
    (forall p, In p out -> ~ In (normalize lower p) seen) ->
    dedup_loop lower out seen = out.
Proof.
  induction out as [|p out IH]; intros seen Hall Hnd Hseen; simpl; [reflexivity|].
  inversion Hall as [|? ? [Hne Hs] Hrest]; subst.
  inversion Hnd as [|? ? Hnotin Hnd']; subst.
  rewrite Hs. destruct p as [|c p]; [contradiction|].
  destruct (in_dec str_eq_dec (normalize lower (c :: p)) seen) as [Hin | _].
  - exfalso. apply (Hseen (c :: p)); [now left | exact Hin].
  - f_equal. apply IH; [exact Hrest | exact Hnd' |].
    intros q Hq [E | Hin].
    + apply Hnotin. rewrite E. now apply in_map.
    + apply (Hseen q); [now right | exact Hin].
Qed.

Lemma dedup_loop_split_join (out : list str) :
  Forall (fun p => p <> [] /\ strip p = p) out ->
  Forall blank_free out ->
  NoDup (List.map (normalize lower) out) ->
  dedup_loop lower (split_blank (join [NL; NL] out)) [] = out.
Proof.
  intros Hclean Hfree Hnd. destruct out as [|p out].
  - reflexivity.
  - rewrite split_blank_join.
    + apply dedup_loop_fixed; [exact Hclean | exact Hnd | intros q _ []].
    + discriminate.
    + rewrite Forall_forall in *. intros q Hq. split; [now apply Hfree|].
      destruct (Hclean q Hq) as [_ <-]. unfold strip. apply rstrip_last_ok.
Qed.

End DedupFacts.

(** C7, as the code has it.  [deduplicate_paragraphs] is idempotent for
    every lowering function, and it returns unchanged a text whose
    paragraphs are non-empty, already trimmed, and pairwise distinct after
    normalisation. *)
Theorem dedup_idempotent (lower : str -> str) (text : str) :
  deduplicate_paragraphs lower (deduplicate_paragraphs lower text)
  = deduplicate_paragraphs lower text
  /\ (Forall (fun p => p <> [] /\ strip p = p) (split_blank text) ->
      NoDup (List.map (normalize lower) (split_blank text)) ->
      deduplicate_paragraphs lower text = text).
Proof.
  split.
  - unfold deduplicate_paragraphs.
    destruct (dedup_loop_out lower (split_blank text) []) as (H1 & H2 & _).
    rewrite dedup_loop_split_join; [reflexivity | | | exact H2].
    + eapply Forall_impl; [|exact H1]. simpl. tauto.
    + eapply Forall_impl; [|exact H1]. simpl. intros p (_ & _ & q & Hq & ->).
      apply strip_blank_free.
      pose proof (split_blank_pieces text) as Hp. rewrite Forall_forall in Hp. auto.
  - intros Hclean Hnd. unfold deduplicate_paragraphs.
    rewrite dedup_loop_fixed; [apply join_split_blank | exact Hclean | exact Hnd |].
    intros p _ [].
Qed.

Lemma dedup_idempotent_witness :
  deduplicate_paragraphs ascii_lower (lit "a") = lit "a".
Proof.
  apply (proj2 (dedup_idempotent ascii_lower (lit "a"))).
  - repeat constructor. discriminate.
  - repeat constructor. intros [].
Defined.

(** C7 as stated fails on its second half: the one-paragraph text [" a"]
    repeats no paragraph, yet it comes back trimmed. *)
Lemma dedup_changes_untrimmed_text :
  NoDup (List.map (normalize ascii_lower) (List.map strip (split_blank (lit " a"))))
  /\ NoDup (List.map (normalize ascii_lower) (split_blank (lit " a")))
  /\ deduplicate_paragraphs ascii_lower (lit " a") <> lit " a".
Proof.
  split; [|split].
  - repeat constructor. intros [].
  - repeat constructor. intros [].
  - vm_compute. discriminate.
Qed.

(** *** Facts about the gateway *)

Section GatewayFacts.

Variable lib : library.
Variable env : environment.

(** Every exception finds a clause, and the clause gives the placeholder
    of its kind. *)
Lemma dispatch_total (text model : str) (e : exn) :
  exists error_msg,
    dispatch (except_clauses text model) e
    = Some (error_msg, placeholder (failure_tag e) text).
Proof. destruct e; simpl; eauto. Qed.

(** Reading the response raises nothing but [Exception] (the re-raised
    parse error) or [TypeError]: what the last clause catches. *)
Lemma interpret_response_raises (response : pyval) (e : exn) :
  interpret_response lib response = Raise e -> failure_tag e = "ERROR"%string.
Proof.
  unfold interpret_response, subscript, call_strip, getattr.
  repeat match goal with
         | |- context [match ?x with _ => _ end] =>
             lazymatch x with
             | context [match _ with _ => _ end] => fail
             | _ => destruct x; simpl
             end
         end; try discriminate; intros [= <-]; reflexivity.
Qed.

(** What one call does to the world: one request, one suspension point,
    at most one signal, which is an error signal exactly when the [try]
    body raised. *)
Lemma process_with_llm_effect (text system_prompt user_prompt model : str)
    (temperature : Q) (w : world) :
  let r := {| req_model := model; req_system := system_prompt;
              req_user := user_prompt; req_temperature := temperature |} in
  exists value w',
    process_with_llm lib env text system_prompt user_prompt model temperature w
    = Some (Ok value, w')
    /\ is_running w' = running_after env w
    /\ clock w' = S (clock w)
    /\ requests w' = r :: requests w
    /\ output_base_path w' = output_base_path w
    /\ files w' = files w
    /\ (forall e, chat_reply env (clock w) r = Raise e ->
          value = placeholder (failure_tag e) text
          /\ exists error_msg, signals w' = processing_error error_msg :: signals w)
    /\ (forall response, chat_reply env (clock w) r = Ok response ->
          (exists result, interpret_response lib response = Ok result
                          /\ signals w' = signals w)
          \/ (value = placeholder "ERROR" text
              /\ exists error_msg, signals w' = processing_error error_msg :: signals w)).
Proof.
  intros r. unfold process_with_llm, try_body, bind, client_chat, lift, ret.
  fold r. cbv beta iota. unfold running_after.
  assert (Hw : is_running (suspend env (add_request r w))
                          = (if stop_during env (clock w) then false else is_running w)
                          /\ clock (suspend env (add_request r w)) = S (clock w)
                          /\ requests (suspend env (add_request r w)) = r :: requests w
                          /\ output_base_path (suspend env (add_request r w))
                             = output_base_path w
                          /\ files (suspend env (add_request r w)) = files w
                          /\ signals (suspend env (add_request r w)) = signals w).
  { unfold suspend. simpl. destruct (stop_during env (clock w)); simpl; tauto. }
  destruct Hw as (H1 & H2 & H3 & H4 & H5 & H6).
  set (w1 := suspend env (add_request r w)) in *. clearbody w1.
  destruct (chat_reply env (clock w) r) as [response | e] eqn:Ec; cbv beta iota.
  - destruct (interpret_response lib response) as [result | e] eqn:Ei; cbv beta iota.
    + do 2 eexists. split; [reflexivity|]. repeat split; auto; try discriminate.
      intros ? [= <-]. left. eauto.
    + destruct (dispatch_total text model e) as [msg Ed]. rewrite Ed.
      do 2 eexists. split; [reflexivity|]. simpl.
      rewrite (interpret_response_raises _ _ Ei). repeat split; auto; try discriminate.
      intros ? _. right. rewrite H6. eauto.
  - destruct (dispatch_total text model e) as [msg Ed]. rewrite Ed.
    do 2 eexists. split; [reflexivity|]. simpl.
    split; [exact H1|]. split; [exact H2|]. split; [exact H3|].
    split; [exact H4|]. split; [exact H5|]. split; [|discriminate].
    intros ? [= <-]. rewrite H6. eauto.
Qed.

End GatewayFacts.

(** *** Facts about the stage loops *)

Section LoopFacts.

Variable lib : library.
Variable env : environment.

Lemma suspend_effect (w : world) :
  is_running (suspend env w) = running_after env w
  /\ clock (suspend env w) = S (clock w)
  /\ requests (suspend env w) = requests w
  /\ output_base_path (suspend env w) = output_base_path w.
Proof.
  unfold suspend, running_after. destruct (stop_during env (clock w)); simpl; tauto.
Qed.

Lemma save_step_effect (content step : str) (w : world) :
  exists w',
    save_step lib env content step w = Some (Ok tt, w')
    /\ is_running w' = is_running w
    /\ clock w' = clock w
    /\ requests w' = requests w
    /\ output_base_path w' = output_base_path w.
Proof.
  unfold save_step. destruct (generate_step_filename lib w step) as [f|].
  - destruct (write_error env f); eexists; (split; [reflexivity|]); simpl; tauto.
  - eexists. split; [reflexivity|]. tauto.
Qed.

(** One pass of the translation loop on a running processor whose prompts
    format: the call returns whatever the service did, and the loop goes
    on with the next chunk two suspension points later. *)
Lemma translation_loop_pass (st : op_settings) (total : Z) (c : chunk)
    (rest : list chunk) (i : Z) (parts : list str) (last : str) (w : world)
    (r : request) :
  is_running w = true ->
  translation_request lib st c = Some r ->
  exists v w',
    translation_loop lib env st total (c :: rest) i parts last w
    = translation_loop lib env st total rest (i + 1) (parts ++ [v])
                       (translation_tail (get (overlap st) 200) v) w'
    /\ is_running w' = negb (stop_during env (clock w))
                       && negb (stop_during env (S (clock w)))
    /\ clock w' = S (S (clock w))
    /\ requests w' = r :: requests w
    /\ output_base_path w' = output_base_path w
    /\ (forall e, chat_reply env (clock w) r = Raise e ->
          v = placeholder (failure_tag e) (fst (fst c))).
Proof.
  intros Hrun Hreq. unfold translation_request in Hreq.
  destruct (translation_prompts lib st c) as [p|] eqn:Hp; [|discriminate].
  injection Hreq as <-.
  destruct (process_with_llm_effect lib env (fst (fst c)) (fst p) (snd p)
              (model_of st) (3 # 10) w)
    as (v & w1 & E1 & R1 & C1 & Q1 & B1 & _ & F1 & _).
  destruct (save_step_effect (join blank_line (parts ++ [v]))
              (get (step_name (config st)) (lit "translation") ++ lit "_progress") w1)
    as (w2 & E2 & R2 & C2 & Q2 & B2).
  set (w3 := add_signal
               (processing_progress (i + 1) total
                  (lit "Translating (" ++ src_lang_of st ++ lit " " ++ [8594%N]
                     ++ lit " " ++ target_lang_of st ++ lit ")")) w2).
  destruct (suspend_effect w3) as (R4 & C4 & Q4 & B4).
  exists v, (suspend env w3). split.
  - cbn [translation_loop]. rewrite Hrun. cbn [negb].
    unfold bind at 1. unfold lift at 1. rewrite Hp.
    unfold bind at 1. rewrite E1.
    unfold bind at 1. rewrite E2.
    unfold bind at 1. unfold emit at 1.
    unfold bind at 1. unfold sleep at 1. reflexivity.
  - rewrite R4, C4, Q4, B4. unfold running_after, w3. simpl.
    rewrite C2, C1, R2, R1, Q2, Q1, B2, B1. unfold running_after. rewrite Hrun.
    split; [|split; [reflexivity|split; [reflexivity|split; [reflexivity|]]]].
    + destruct (stop_during env (clock w)), (stop_during env (S (clock w))); reflexivity.
    + intros e He. now apply F1.
Qed.

Lemma translation_loop_requests (st : op_settings) (total : Z) (chunks : list chunk) :
  forall i parts last w,
    exists res w',
      translation_loop lib env st total chunks i parts last w = Some (res, w')
      /\ requests w'
         = rev (issued lib (stop_during env) st chunks (is_running w) (clock w))
           ++ requests w.
Proof.
  induction chunks as [|c rest IH]; intros i parts last w.
  - do 2 eexists. split; reflexivity.
  - destruct (is_running w) eqn:Hrun.
    + destruct (translation_request lib st c) as [r|] eqn:Hreq.
      * destruct (translation_loop_pass st total c rest i parts last w r Hrun Hreq)
          as (v & w1 & E & R1 & C1 & Q1 & _).
        destruct (IH (i + 1) (parts ++ [v])
                     (translation_tail (get (overlap st) 200) v) w1)
          as (res & w' & E' & Q').
        exists res, w'. split; [now rewrite E|].
        rewrite Q', R1, C1, Q1. cbn [issued]. rewrite Hreq. cbn [rev].
        now rewrite <- app_assoc.
      * unfold translation_request in Hreq.
        destruct (translation_prompts lib st c) as [p|e] eqn:Hp; [discriminate|].
        exists (Raise e), w. split.
        -- cbn [translation_loop]. rewrite Hrun. cbn [negb].
           unfold bind at 1. unfold lift at 1. now rewrite Hp.
        -- cbn [issued]. unfold translation_request. now rewrite Hp.
    + exists (Ok parts), w. split.
      * cbn [translation_loop]. now rewrite Hrun.
      * reflexivity.
Qed.

(** What is issued is, call by call, the request of the chunk at the same
    index. *)
Lemma issued_by_index (stop : nat -> bool) (st : op_settings) (chunks : list chunk) :
  forall running clk i r,
    nth_error (issued lib stop st chunks running clk) i = Some r ->
    exists c, nth_error chunks i = Some c /\ translation_request lib st c = Some r.
Proof.
  induction chunks as [|c rest IH]; intros running clk i r; cbn [issued].
  - destruct i; discriminate.
  - destruct running; [|destruct i; discriminate].
    destruct (translation_request lib st c) as [r0|] eqn:E; [|destruct i; discriminate].
    destruct i as [|i]; simpl.
    + intros [= <-]. eauto.
    + apply IH.
Qed.

(** With nobody pressing stop and prompts that format, the translation
    loop handles every chunk, whatever the service does. *)
Lemma translation_loop_completes (st : op_settings) (total : Z) (chunks : list chunk) :
  (forall n, stop_during env n = false) ->
  (forall c, In c chunks -> translation_request lib st c <> None) ->
  forall i parts last w,
    is_running w = true ->
    exists parts' w',
      translation_loop lib env st total chunks i parts last w
      = Some (Ok (parts ++ parts'), w')
      /\ List.length parts' = List.length chunks
      /\ List.length (requests w')
         = (List.length chunks + List.length (requests w))%nat.
Proof.
  intros Hstop. induction chunks as [|c rest IH]; intros Hfmt i parts last w Hrun.
  - exists [], w. rewrite app_nil_r. repeat split.
  - destruct (translation_request lib st c) as [r|] eqn:Hreq;
      [|exfalso; apply (Hfmt c); [now left | exact Hreq]].
    destruct (translation_loop_pass st total c rest i parts last w r Hrun Hreq)
      as (v & w1 & E & R1 & C1 & Q1 & _).
    rewrite !Hstop in R1. simpl in R1.
    destruct (IH (fun c' H => Hfmt c' (or_intror H)) (i + 1) (parts ++ [v])
                 (translation_tail (get (overlap st) 200) v) w1 R1)
      as (parts' & w' & E' & L1 & L2).
    exists (v :: parts'), w'. rewrite E, E', <- app_assoc. simpl.
    rewrite L1, L2, Q1. simpl. repeat split. lia.
Qed.

(** The same for the loop of the combined operation. *)
Lemma combined_loop_completes (st : op_settings) (task_count total : Z)
    (system_prompt template : str) (chunks : list chunk) :
  (forall n, stop_during env n = false) ->
  (forall c, In c chunks ->
     exists u, format lib template [("text"%string, fst (fst c))] = Ok u) ->
  forall idx processed w,
    is_running w = true ->
    exists processed' w',
      combined_loop lib env st task_count total system_prompt template chunks idx
                    processed w
      = Some (Ok (processed ++ processed'), w')
      /\ List.length processed' = List.length chunks
      /\ List.length (requests w')
         = (List.length chunks + List.length (requests w))%nat.
Proof.
  intros Hstop. induction chunks as [|c rest IH]; intros Hfmt idx processed w Hrun.
  - exists [], w. rewrite app_nil_r. repeat split.
  - destruct (Hfmt c (or_introl eq_refl)) as [u Hu].
    destruct (process_with_llm_effect lib env (fst (fst c)) system_prompt u
                (model_of st) (get (temperature st) (1 # 2)) w)
      as (v & w1 & E1 & R1 & C1 & Q1 & _).
    unfold running_after in R1. rewrite Hstop, Hrun in R1.
    set (w2 := suspend env
                 (add_signal
                    (processing_progress (idx + 1) total
                       (get (tab_name (config st)) (lit "Processing") ++ lit " ("
                          ++ decimal task_count ++ lit " tasks combined)")) w1)).
    assert (R2 : is_running w2 = true).
    { unfold w2, suspend. rewrite Hstop. simpl. exact R1. }
    assert (Q2 : requests w2 = requests w1).
    { unfold w2, suspend. rewrite Hstop. reflexivity. }
    destruct (IH (fun c' H => Hfmt c' (or_intror H)) (idx + 1) (processed ++ [v]) w2 R2)
      as (processed' & w' & E' & L1 & L2).
    exists (v :: processed'), w'. split.
    + cbn [combined_loop]. rewrite Hrun. cbn [negb].
      unfold bind at 1. unfold lift at 1. rewrite Hu.
      unfold bind at 1. rewrite E1.
      unfold bind at 1. unfold emit at 1.
      unfold bind at 1. unfold sleep at 1.
      fold w2. rewrite E', <- app_assoc. reflexivity.
    + simpl. rewrite L1, L2, Q2, Q1. simpl. split; lia.
Qed.

End LoopFacts.

(** ** Properties of the gateway and the stages *)

Lemma slice_to_firstn (s : str) (n : nat) :
  slice_to s (Z.of_nat n) = firstn n s.
Proof.
  unfold slice_to, norm_index. destruct (Z.ltb_spec (Z.of_nat n) 0); [lia|].
  unfold len. destruct (Nat.le_gt_cases n (List.length s)) as [H' | H'].
  - rewrite Z.min_l by lia. now rewrite Nat2Z.id.
  - rewrite Z.min_r by lia. rewrite Nat2Z.id.
    rewrite firstn_all. symmetry. apply firstn_all2. lia.
Qed.

(** A raised exception goes through the clauses as [dispatch] says. *)
Lemma catch_exception (clauses : list (exn_class * (exn -> str * str))) (e : exn) :
  catch clauses (AnException e) = dispatch clauses e.
Proof.
  induction clauses as [|[c handler] rest IH]; simpl; [reflexivity|].
  now rewrite IH.
Qed.

(** No clause names a class outside [Exception]. *)
Lemma catch_base_only (clauses : list (exn_class * (exn -> str * str)))
    (type_name text : str) :
  catch clauses (BaseOnly type_name text) = None.
Proof. induction clauses as [|[c handler] rest IH]; simpl; auto. Qed.

(** The call, run in a world, ends as [process_with_llm_ending] says of
    the answer it got. *)
Lemma process_with_llm_agrees (lib : library) (env : environment)
    (text system_prompt user_prompt model : str) (temperature : Q) (w : world) :
  exists value emitted w',
    process_with_llm lib env text system_prompt user_prompt model temperature w
    = Some (Ok value, w')
    /\ process_with_llm_ending lib text model
         (awaited_of
            (chat_reply env (clock w)
               {| req_model := model; req_system := system_prompt;
                  req_user := user_prompt; req_temperature := temperature |}))
       = Returns value emitted
    /\ signals w' = error_signals emitted ++ signals w.
Proof.
  unfold process_with_llm, try_body, bind, client_chat, lift, ret,
    process_with_llm_ending.
  set (r := {| req_model := model; req_system := system_prompt;
               req_user := user_prompt; req_temperature := temperature |}).
  assert (H6 : signals (suspend env (add_request r w)) = signals w).
  { unfold suspend. simpl. destruct (stop_during env (clock w)); reflexivity. }
  set (w1 := suspend env (add_request r w)) in *. clearbody w1.
  destruct (chat_reply env (clock w) r) as [response | e]; cbn [awaited_of];
    cbv beta iota.
  - destruct (interpret_response lib response) as [result | e]; cbv beta iota.
    + do 3 eexists. split; [reflexivity|]. split; [reflexivity|]. exact H6.
    + rewrite catch_exception.
      destruct (dispatch_total text model e) as [msg Ed]. rewrite Ed.
      do 3 eexists. split; [reflexivity|]. split; [reflexivity|].
      simpl. now rewrite H6.
  - rewrite catch_exception.
    destruct (dispatch_total text model e) as [msg Ed]. rewrite Ed.
    do 3 eexists. split; [reflexivity|]. split; [reflexivity|].
    simpl. now rewrite H6.
Qed.

(** C9, as the code has it.  Whatever the generation call returns, and
    whatever instance of [Exception] it raises or the reading of its
    answer raises, [process_with_llm] returns a string and lets nothing
    through: a raise of the call gives the placeholder of its kind and
    one error signal, a failed reading (the parse error included) gives
    the [ERROR] placeholder and the [Unexpected Error] signal.  The call
    in a world ends as the [try] statement does on the answer it got; and
    an object of a class that derives from [BaseException] alone, raised
    at the [await], is caught by no clause and goes on to the caller. *)
Theorem process_with_llm_catches_exceptions (lib : library) (text model : str) :
  (forall env system_prompt user_prompt temperature w,
     exists value emitted w',
       process_with_llm lib env text system_prompt user_prompt model temperature w
       = Some (Ok value, w')
       /\ process_with_llm_ending lib text model
            (awaited_of
               (chat_reply env (clock w)
                  {| req_model := model; req_system := system_prompt;
                     req_user := user_prompt; req_temperature := temperature |}))
          = Returns value emitted
       /\ signals w' = error_signals emitted ++ signals w)
  /\ (forall env system_prompt user_prompt temperature w e,
        chat_reply env (clock w)
          {| req_model := model; req_system := system_prompt;
             req_user := user_prompt; req_temperature := temperature |} = Raise e ->
        exists error_msg w',
          process_with_llm lib env text system_prompt user_prompt model temperature w
          = Some (Ok (placeholder (failure_tag e) text), w')
          /\ signals w' = processing_error error_msg :: signals w)
  /\ (forall env system_prompt user_prompt temperature w response e,
        chat_reply env (clock w)
          {| req_model := model; req_system := system_prompt;
             req_user := user_prompt; req_temperature := temperature |} = Ok response ->
        interpret_response lib response = Raise e ->
        exists w',
          process_with_llm lib env text system_prompt user_prompt model temperature w
          = Some (Ok (placeholder "ERROR" text), w')
          /\ signals w'
             = processing_error
                 ([10060]%N ++ lit " Unexpected Error: " ++ exn_type_name e ++ lit ": "
                    ++ exn_str e) :: signals w)
  /\ (forall a,
        (forall type_name text', a <> Threw (BaseOnly type_name text')) ->
        exists value emitted,
          process_with_llm_ending lib text model a = Returns value emitted)
  /\ (forall type_name text',
        process_with_llm_ending lib text model (Threw (BaseOnly type_name text'))
        = Propagates (BaseOnly type_name text')).
Proof.
  split; [|split; [|split; [|split]]].
  - intros. apply process_with_llm_agrees.
  - intros env system_prompt user_prompt temperature w e He.
    destruct (process_with_llm_effect lib env text system_prompt user_prompt model
                temperature w) as (v & w' & E & _ & _ & _ & _ & _ & F & _).
    destruct (F e He) as [-> [msg Hs]]. eauto.
  - intros env system_prompt user_prompt temperature w response e Hc Hi.
    unfold process_with_llm, try_body, bind, client_chat, lift, ret.
    rewrite Hc. cbv beta iota. rewrite Hi. cbv beta iota.
    pose proof (interpret_response_raises lib response e Hi) as Ht.
    assert (Hd : dispatch (except_clauses text model) e
                 = Some ([10060]%N ++ lit " Unexpected Error: " ++ exn_type_name e
                           ++ lit ": " ++ exn_str e,
                         placeholder "ERROR" text)).
    { destruct e; simpl in Ht; try discriminate; reflexivity. }
    rewrite Hd. eexists. split; [reflexivity|].
    unfold suspend. simpl. destruct (stop_during env (clock w)); reflexivity.
  - intros a Ha. unfold process_with_llm_ending. destruct a as [response | [e | n t]].
    + destruct (interpret_response lib response) as [result | e]; [eauto|].
      rewrite catch_exception.
      destruct (dispatch_total text model e) as [msg Ed]. rewrite Ed. eauto.
    + rewrite catch_exception.
      destruct (dispatch_total text model e) as [msg Ed]. rewrite Ed. eauto.
    + exfalso. exact (Ha n t eq_refl).
  - intros type_name text'. unfold process_with_llm_ending.
    now rewrite catch_base_only.
Qed.

Lemma process_with_llm_catches_exceptions_witness :
  exists w',
    process_with_llm Example.lib env_no_message (lit "Hello") [] [] (lit "m")
                     (3 # 10) Example.started
    = Some (Ok (lit "[ERROR: Hello...]"), w')
    /\ signals w'
       = [processing_error
            ([10060]%N
               ++ lit " Unexpected Error: Exception: Cannot parse Ollama response: <class 'dict'>. Error: 'message'")].
Proof.
  exact (proj1 (proj2 (proj2 (process_with_llm_catches_exceptions
                                Example.lib (lit "Hello") (lit "m"))))
               env_no_message [] [] (3 # 10) Example.started
               (VDict [(lit "done", VNone)])
               (OtherException (lit "Exception")
                  (lit "Cannot parse Ollama response: <class 'dict'>. Error: 'message'"))
               eq_refl eq_refl).
Defined.

(** C9 as stated fails.  The task that awaits the generation call is
    cancelled: [asyncio.CancelledError], which derives from
    [BaseException] alone, is raised at the [await]; no clause catches it
    and the call returns no string. *)
Lemma cancellation_reaches_the_caller :
  process_with_llm_ending Example.lib (lit "Hello") (lit "m")
    (Threw (BaseOnly (lit "CancelledError") []))
  = Propagates (BaseOnly (lit "CancelledError") [])
  /\ forall value emitted,
       process_with_llm_ending Example.lib (lit "Hello") (lit "m")
         (Threw (BaseOnly (lit "CancelledError") []))
       <> Returns value emitted.
Proof. split; [reflexivity | discriminate]. Qed.

(** C5. A failed generation call makes [process_with_llm] return the
    bracketed placeholder of the failure's kind around the first 100
    characters of the chunk, with exactly one error signal added; and
    both chunk loops, while nobody stops the run, go through every chunk
    whatever the service answers or raises. *)
Theorem generation_failure_recovered (lib : library) (env : environment) :
  (forall text system_prompt user_prompt model temperature w e,
     chat_reply env (clock w)
       {| req_model := model; req_system := system_prompt;
          req_user := user_prompt; req_temperature := temperature |} = Raise e ->
     exists error_msg w',
       process_with_llm lib env text system_prompt user_prompt model temperature w
       = Some (Ok (lit "[" ++ lit (failure_tag e) ++ lit ": " ++ firstn 100 text
                     ++ lit "...]"), w')
       /\ signals w' = processing_error error_msg :: signals w)
  /\ (forall st total chunks i parts last w,
        (forall n, stop_during env n = false) ->
        (forall c, In c chunks -> translation_request lib st c <> None) ->
        is_running w = true ->
        exists parts' w',
          translation_loop lib env st total chunks i parts last w
          = Some (Ok (parts ++ parts'), w')
          /\ List.length parts' = List.length chunks
          /\ List.length (requests w')
             = (List.length chunks + List.length (requests w))%nat)
  /\ (forall st task_count total system_prompt template chunks idx processed w,
        (forall n, stop_during env n = false) ->
        (forall c, In c chunks ->
           exists u, format lib template [("text"%string, fst (fst c))] = Ok u) ->
        is_running w = true ->
        exists processed' w',
          combined_loop lib env st task_count total system_prompt template chunks
                        idx processed w
          = Some (Ok (processed ++ processed'), w')
          /\ List.length processed' = List.length chunks
          /\ List.length (requests w')
             = (List.length chunks + List.length (requests w))%nat).
Proof.
  split; [|split].
  - intros text system_prompt user_prompt model temperature w e He.
    destruct (process_with_llm_effect lib env text system_prompt user_prompt model
                temperature w) as (v & w' & E & _ & _ & _ & _ & _ & F & _).
    destruct (F e He) as [-> [msg Hs]].
    exists msg, w'. split; [|exact Hs].
    rewrite E. unfold placeholder.
    replace (slice_to text 100) with (firstn 100 text)
      by (symmetry; exact (slice_to_firstn text 100)).
    reflexivity.
  - intros. now apply translation_loop_completes.
  - intros. now apply combined_loop_completes.
Qed.

Lemma generation_failure_recovered_witness :
  exists error_msg w',
    process_with_llm Example.lib Example.env_down (lit "Hello") [] [] (lit "m")
                     (3 # 10) Example.started
    = Some (Ok (lit "[CONNECTION ERROR: Hello...]"), w')
    /\ signals w' = [processing_error error_msg].
Proof.
  exact (proj1 (generation_failure_recovered Example.lib Example.env_down)
               (lit "Hello") [] [] (lit "m") (3 # 10) Example.started
               (ConnectionError (lit "refused")) eq_refl).
Defined.

(** The requests of a whole translation stage. *)
Lemma execute_translation_requests (lib : library) (env : environment) (fuel : nat)
    (text : str) (st : op_settings) (w : world) (chunks : list chunk) :
  chunk_text fuel text (get (chunk_size st) 2500) (get (overlap st) 200) = Some chunks ->
  exists res w1,
    execute_translation lib env fuel text st w = Some (res, w1)
    /\ requests w1
       = rev (if Z.of_nat (List.length chunks) =? 0 then []
              else issued lib (stop_during env) st chunks (is_running w) (clock w))
         ++ requests w.
Proof.
  intros Hc. unfold execute_translation. rewrite Hc.
  destruct (Z.of_nat (List.length chunks) =? 0).
  - exists (Ok text), w. split; reflexivity.
  - unfold bind at 1. unfold emit at 1. cbv beta iota. unfold bind at 1.
    match goal with
    | |- context [translation_loop _ _ _ _ _ _ _ _ ?w0] =>
        destruct (translation_loop_requests lib env st (Z.of_nat (List.length chunks))
                    chunks 0 [] [] w0) as (res & w1 & E & Q)
    end.
    simpl in Q. unfold bind, ret. rewrite E.
    destruct res as [parts | e]; do 2 eexists; (split; [reflexivity | exact Q]).
Qed.

(** C10. In [execute_translation] the requests sent are the same under
    any two behaviours of the service, and the request at index [i] is
    built from the chunk at index [i] of the chunker's output, the
    settings and nothing else. *)
Theorem translation_requests_ignore_outputs (lib : library) (env : environment)
    (reply' : nat -> request -> result pyval) (fuel : nat) (text : str)
    (st : op_settings) (w : world) (chunks : list chunk) :
  chunk_text fuel text (get (chunk_size st) 2500) (get (overlap st) 200) = Some chunks ->
  exists res w1 res' w1' sent,
    execute_translation lib env fuel text st w = Some (res, w1)
    /\ execute_translation lib (with_chat_reply reply' env) fuel text st w
       = Some (res', w1')
    /\ requests w1 = rev sent ++ requests w
    /\ requests w1' = rev sent ++ requests w
    /\ forall i r,
         nth_error sent i = Some r ->
         exists c, nth_error chunks i = Some c
                   /\ translation_request lib st c = Some r.
Proof.
  intros Hc.
  destruct (execute_translation_requests lib env fuel text st w chunks Hc)
    as (res & w1 & E & Q).
  destruct (execute_translation_requests lib (with_chat_reply reply' env) fuel text
              st w chunks Hc) as (res' & w1' & E' & Q').
  exists res, w1, res', w1'.
  exists (if Z.of_nat (List.length chunks) =? 0 then []
          else issued lib (stop_during env) st chunks (is_running w) (clock w)).
  split; [exact E|]. split; [exact E'|]. split; [exact Q|]. split; [exact Q'|].
  intros i r. destruct (Z.of_nat (List.length chunks) =? 0).
  - destruct i; discriminate.
  - apply issued_by_index.
Qed.

Lemma translation_requests_ignore_outputs_witness :
  exists res w1 res' w1' sent,
    execute_translation Example.lib (Example.env 7) 20 (lit "aaaa bbbb cccc")
                        Example.translation_stage Example.started = Some (res, w1)
    /\ execute_translation Example.lib
         (with_chat_reply (chat_reply Example.env_down) (Example.env 7)) 20
         (lit "aaaa bbbb cccc") Example.translation_stage Example.started
       = Some (res', w1')
    /\ requests w1 = rev sent ++ []
    /\ requests w1' = rev sent ++ [].
Proof.
  destruct (translation_requests_ignore_outputs Example.lib (Example.env 7)
              (chat_reply Example.env_down) 20 (lit "aaaa bbbb cccc")
              Example.translation_stage Example.started
              [(lit "aaaa", [], true); (lit "bbbb", lit "aa", false);
               (lit "cccc", lit "bb", false)] eq_refl)
    as (res & w1 & res' & w1' & sent & H1 & H2 & H3 & H4 & _).
  exists res, w1, res', w1', sent. repeat split; assumption.
Defined.

(** ** Cancellation *)

(** Once the stages [before] have left the flag off, the stages after
    them change nothing. *)
Lemma run_stages_stopped (lib : library) (env : environment)
    (build_combined_prompt : op_settings -> list str -> result (str * str))
    (fuel : nat) (after : list op_settings) :
  forall before text step_counter w text1 w1,
    run_stages lib env build_combined_prompt fuel before text step_counter w
    = Some (Ok text1, w1) ->
    is_running w1 = false ->
    run_stages lib env build_combined_prompt fuel (before ++ after) text step_counter w
    = Some (Ok text1, w1).
Proof.
  assert (Hskip : forall pipeline text step_counter w,
             is_running w = false ->
             run_stages lib env build_combined_prompt fuel pipeline text step_counter w
             = Some (Ok text, w)).
  { intros [|st rest] text step_counter w Hrun; cbn [run_stages]; [reflexivity|].
    now rewrite Hrun. }
  induction before as [|st rest IH]; intros text step_counter w text1 w1 H Hoff.
  - injection H as <- <-. now apply Hskip.
  - cbn [app run_stages] in *. destruct (is_running w); cbn [negb] in *; [|exact H].
    unfold bind at 1 in H. unfold bind at 1.
    unfold emit at 1 in H. unfold emit at 1. cbv beta iota in *.
    destruct (str_eq_dec (operation_id st) (lit "translation")) as [Hop | Hop].
    + unfold bind at 1 in H. unfold bind at 1.
      destruct (execute_translation _ _ _ _ _ _) as [[[text'|e] wa]|];
        try discriminate.
      unfold bind at 1 in H. unfold bind at 1.
      destruct (save_step _ _ _ _ _) as [[[[]|e] wb]|]; try discriminate.
      now apply IH.
    + destruct (enabled_sub_ops_of st) as [|e0 enabled]; [now apply IH|].
      unfold bind at 1 in H. unfold bind at 1.
      destruct (execute_combined_operation _ _ _ _ _ _ _ _) as [[[text'|e] wa]|];
        try discriminate.
      unfold bind at 1 in H. unfold bind at 1.
      destruct (save_step _ _ _ _ _) as [[[[]|e] wb]|]; try discriminate.
      now apply IH.
Qed.

(** C4, as the code has it.  A stage whose start check finds the flag
    cleared does nothing, and neither do the stages after it: when the
    stages before it have left the flag off, the run sends no further
    request, writes no further file (no snapshot, no numbered step, no
    final output) and emits no further signal, and it ends with the flag
    off.  An accepted run whose probe and read succeed is this stage
    loop, final write and reset, begun right after its status signals;
    and whenever a run that was accepted (the flag was off on entry)
    returns, the flag is off. *)
Theorem stopped_before_stage_persists_nothing (lib : library) (env : environment)
    (build_combined_prompt : op_settings -> list str -> result (str * str))
    (fuel : nat) :
  (forall pipeline text step_counter w,
     is_running w = false ->
     run_stages lib env build_combined_prompt fuel pipeline text step_counter w
     = Some (Ok text, w))
  /\ (forall output_path before after text step_counter w text1 w1,
        run_stages lib env build_combined_prompt fuel before text step_counter w
        = Some (Ok text1, w1) ->
        is_running w1 = false ->
        exists w',
          stages_onward lib env build_combined_prompt fuel output_path
                        (before ++ after) text step_counter w = Some (Ok tt, w')
          /\ files w' = files w1 /\ requests w' = requests w1
          /\ signals w' = signals w1
          /\ is_running w' = false)
  /\ (forall input_path output_path pipeline text w,
        is_running w = false ->
        probe_reply env (clock w) = Ok tt ->
        read_file env input_path = Ok text ->
        process_pipeline lib env build_combined_prompt fuel input_path output_path
                         pipeline w
        = stages_onward lib env build_combined_prompt fuel output_path pipeline text 1
            (at_first_stage env output_path text w))
  /\ (forall input_path output_path pipeline w w',
        is_running w = false ->
        process_pipeline lib env build_combined_prompt fuel input_path output_path
                         pipeline w = Some (Ok tt, w') ->
        is_running w' = false).
Proof.
  split; [|split; [|split]].
  - intros [|st rest] text step_counter w Hrun; cbn [run_stages]; [reflexivity|].
    now rewrite Hrun.
  - intros output_path before after text step_counter w text1 w1 H Hoff.
    unfold stages_onward. unfold bind at 1.
    rewrite (run_stages_stopped lib env build_combined_prompt fuel after before text
               step_counter w text1 w1 H Hoff).
    cbv beta iota. unfold bind at 1. unfold write_output at 1.
    rewrite Hoff. cbv beta iota. unfold stop_run.
    eexists. split; [reflexivity|]. simpl. tauto.
  - intros input_path output_path pipeline text w Hrun Hp Hr.
    unfold process_pipeline, at_first_stage. rewrite Hrun.
    cbv zeta. replace (clock (add_signal _ (set_base_path _ (set_running true w))))
      with (clock w) by reflexivity.
    rewrite Hp, Hr. reflexivity.
  - intros input_path output_path pipeline w w' Hrun.
    unfold process_pipeline. rewrite Hrun.
    set (w1 := add_signal _ (set_base_path _ (set_running true w))).
    destruct (probe_reply env (clock w1)) as [[]|e]; [|now intros [= <-]].
    destruct (read_file env input_path) as [text|e]; [|now intros [= <-]].
    unfold bind at 1. unfold emit at 1. cbv beta iota. unfold bind at 1.
    destruct (run_stages _ _ _ _ _ _ _ _) as [[[text'|e] w5]|]; try discriminate.
    unfold bind at 1. unfold write_output at 1.
    destruct (is_running w5); [destruct (write_error env output_path)|];
      unfold stop_run; now intros [= <-].
Qed.

Lemma stopped_before_stage_persists_nothing_witness :
  exists w1 w',
    run_stages Example.lib (Example.env 1) Example.no_compose 10
               [Example.translation_stage] (lit "Hello") 1 Example.started
    = Some (Ok (lit "Ahoj"), w1)
    /\ stages_onward Example.lib (Example.env 1) Example.no_compose 10 (lit "out.txt")
         ([Example.translation_stage] ++ [Example.translation_stage]) (lit "Hello") 1
         Example.started = Some (Ok tt, w')
    /\ files w' = files w1 /\ requests w' = requests w1
    /\ signals w' = signals w1
    /\ is_running w' = false.
Proof.
  eexists.
  destruct (proj1 (proj2 (stopped_before_stage_persists_nothing Example.lib
                            (Example.env 1) Example.no_compose 10))
                  (lit "out.txt") [Example.translation_stage]
                  [Example.translation_stage] (lit "Hello") 1 Example.started
                  (lit "Ahoj") _ ltac:(vm_compute; reflexivity) ltac:(reflexivity))
    as (w' & H).
  exists w'. split; [vm_compute; reflexivity | exact H].
Defined.

(** C4 as stated fails.  Suspension point 0 is the connection probe and
    point 1 the generation call of the first chunk; the stop arrives
    during that call, when no chunk of the translation stage has
    completed.  The stage still writes its numbered artifact. *)
Lemma stopped_mid_stage_still_persists :
  stop_during (Example.env 1) 1 = true
  /\ exists w',
       process_pipeline Example.lib (Example.env 1) Example.no_compose 10
                        (lit "in.txt") (lit "out.txt") [Example.translation_stage]
                        Example.idle = Some (Ok tt, w')
       /\ In (lit "out_step_01_translated.txt", lit "Ahoj") (files w')
       /\ files Example.idle = []
       /\ is_running w' = false.
Proof.
  split; [reflexivity|]. eexists. split; [vm_compute; reflexivity|].
  vm_compute. intuition.
Qed.

(** ** Further properties of the chunker *)

Section ChunkerMore.

Variable text : str.
Variables max_chars overlap : Z.

Lemma drop_while_length (p : char -> bool) (s : str) :
  (List.length (drop_while p s) <= List.length s)%nat.
Proof.
  induction s as [|c s IH]; simpl; [lia|]. destruct (p c); simpl; lia.
Qed.

Lemma rstrip_length (s : str) : (List.length (rstrip s) <= List.length s)%nat.
Proof.
  induction s as [|c s IH]; simpl; [lia|].
  destruct (rstrip s); [destruct (is_space c)|]; simpl in *; lia.
Qed.

Lemma strip_length (s : str) : len (strip s) <= len s.
Proof.
  unfold strip, lstrip, len.
  pose proof (rstrip_length (drop_while is_space s)).
  pose proof (drop_while_length is_space s). lia.
Qed.

Lemma slice_length_span (s : str) (a b : Z) :
  0 <= a -> a <= b -> len (slice s a b) <= b - a.
Proof.
  intros Ha Hab. unfold slice, len. rewrite length_firstn.
  pose proof (norm_index_range (Z.of_nat (List.length s)) a ltac:(lia)).
  unfold norm_index.
  destruct (Z.ltb_spec a 0); [lia|]. destruct (Z.ltb_spec b 0); [lia|]. lia.
Qed.

(** The loop, one pass at a time. *)
Lemma chunk_loop_pass (fuel : nat) (position : Z) (previous_end : str)
    (its : list iteration) :
  chunk_loop fuel text max_chars overlap position previous_end = Some its ->
  (len text <= position /\ its = [])
  \/ (position < len text
      /\ exists fuel' rest,
           fuel = S fuel'
           /\ its = {| it_position := position;
                       it_chunk_end := cut_point text position max_chars;
                       it_chunk := (strip (slice text position
                                             (cut_point text position max_chars)),
                                    previous_end, position =? 0) |} :: rest
           /\ chunk_loop fuel' text max_chars overlap
                (cut_point text position max_chars)
                (next_context overlap
                   (strip (slice text position (cut_point text position max_chars))))
              = Some rest).
Proof.
  destruct fuel as [|fuel]; simpl;
    destruct (Z.ltb_spec position (len text)) as [Hlt | Hge];
    try discriminate; try (intros [= <-]; now left).
  destruct (chunk_loop fuel _ _ _ _ _) as [rest|] eqn:E; [|discriminate].
  simpl. intros [= <-]. right. split; [exact Hlt|]. eauto.
Qed.

(** The cut is at most 100 characters after the naive cut. *)
Lemma cut_point_upper (position : Z) :
  0 <= position -> 1 <= max_chars ->
  cut_point text position max_chars <= position + max_chars + 100.
Proof.
  intros H0 Hm. unfold cut_point.
  set (ce := Z.min (position + max_chars) (len text)).
  assert (Hce : 0 <= ce <= position + max_chars)
    by (pose proof (len_nonneg text); lia).
  assert (Hup : forall m st ss b, In b (breaks_of m st ss position ce) -> b <= ce + 100).
  { intros m st ss b Hb. unfold breaks_of in Hb. apply filter_In in Hb as [_ Hk].
    apply andb_prop in Hk as [_ H2]. now apply Z.leb_le in H2. }
  destruct (Z.ltb_spec ce (len text)) as [Hlt | Hge]; [|lia].
  destruct (sentence_breaks text position ce) as [|b0 rest] eqn:Es.
  - destruct (para_breaks text position ce) as [|p0 prest] eqn:Ep.
    + destruct (rfind_range SPACE text (ce - 100) ce) as [E | E].
      * rewrite E. destruct (position <? -1); lia.
      * assert (norm_index (len text) ce <= ce).
        { unfold norm_index. destruct (Z.ltb_spec ce 0); lia. }
        destruct (position <? _); lia.
    + pose proof (best_break_in p0 prest ce) as Hin. rewrite <- Ep in Hin at 2.
      apply Hup in Hin. lia.
  - pose proof (best_break_in b0 rest ce) as Hin. rewrite <- Es in Hin at 2.
    unfold sentence_breaks in Hin. apply in_app_or in Hin.
    destruct Hin as [Hin | Hin]; apply Hup in Hin; lia.
Qed.

Lemma chunk_loop_bounded (fuel : nat) :
  1 <= max_chars ->
  forall position previous_end its,
    0 <= position ->
    chunk_loop fuel text max_chars overlap position previous_end = Some its ->
    Forall (fun it => it_chunk_end it - it_position it <= max_chars + 100
                      /\ len (fst (fst (it_chunk it))) <= max_chars + 100
                      /\ strip (fst (fst (it_chunk it))) = fst (fst (it_chunk it))) its.
Proof.
  intros Hm. induction fuel as [|fuel IH]; intros position prev its H0 H;
    destruct (chunk_loop_pass _ _ _ _ H) as [[_ ->] | (Hlt & fuel' & rest & Ef & -> & Hrest)];
    try constructor; try discriminate.
  - injection Ef as <-. simpl.
    pose proof (cut_point_upper position H0 Hm).
    pose proof (cut_point_gt text position max_chars Hm Hlt).
    pose proof (strip_length (slice text position (cut_point text position max_chars))).
    pose proof (slice_length_span text position (cut_point text position max_chars)
                  H0 ltac:(lia)).
    split; [lia|]. split; [lia|]. apply strip_strip.
  - injection Ef as <-. eapply IH; [|exact Hrest].
    pose proof (cut_point_gt text position max_chars Hm Hlt). lia.
Qed.

End ChunkerMore.

(** X1. When the loop runs ([1 <= max_chars < len(text)]) every returned
    chunk text is trimmed and at most [max_chars + 100] characters long. *)
Theorem chunk_text_size_bound (fuel : nat) (text : str) (max_chars overlap : Z)
    (chunks : list chunk) :
  1 <= max_chars -> max_chars < len text ->
  chunk_text fuel text max_chars overlap = Some chunks ->
  Forall (fun c => len (fst (fst c)) <= max_chars + 100
                   /\ strip (fst (fst c)) = fst (fst c)) chunks.
Proof.
  intros Hm Hlen. unfold chunk_text.
  destruct (Z.eqb_spec max_chars (-1)); [lia|].
  destruct (Z.leb_spec (len text) max_chars); [lia|].
  destruct (chunk_loop fuel _ _ _ _ _) as [its|] eqn:E; [|discriminate].
  intros [= <-]. apply Forall_map.
  eapply Forall_impl; [|exact (chunk_loop_bounded text max_chars overlap fuel Hm 0 []
                                 its ltac:(lia) E)].
  simpl. tauto.
Qed.

Lemma chunk_text_size_bound_witness :
  Forall (fun c => len (fst (fst c)) <= 5 + 100 /\ strip (fst (fst c)) = fst (fst c))
         [(lit "aaaa", [], true); (lit "bbbb", lit "aaaa", false)].
Proof.
  apply (chunk_text_size_bound 9 (lit "aaaa bbbb") 5 0); [lia | vm_compute; reflexivity |].
  vm_compute. reflexivity.
Defined.

Section ChunkerContexts.

Variable text : str.
Variables max_chars overlap : Z.
Hypothesis max_chars_pos : 1 <= max_chars.
Hypothesis overlap_pos : 1 <= overlap.

(** With a positive [overlap] the context is the suffix of the chunk text
    of length [min(overlap, len(chunk_text))]. *)
Lemma next_context_suffix (t : str) :
  len (next_context overlap t) = Z.min overlap (len t)
  /\ next_context overlap t
     = skipn (List.length t - List.length (next_context overlap t)) t.
Proof.
  unfold next_context. pose proof (len_nonneg t) as Hl.
  destruct (Z.ltb_spec (Z.min overlap (len t)) (len t)) as [H | H].
  - unfold slice_from, norm_index.
    destruct (Z.ltb_spec (- Z.min overlap (len t)) 0); [|lia].
    unfold len in *. rewrite length_skipn. split; [lia|]. f_equal. lia.
  - split; [lia|]. now rewrite Nat.sub_diag.
Qed.

Lemma chunk_loop_linked (fuel : nat) :
  forall position previous_end its,
    0 <= position ->
    chunk_loop fuel text max_chars overlap position previous_end = Some its ->
    (forall it rest, its = it :: rest ->
       snd (fst (it_chunk it)) = previous_end /\ snd (it_chunk it) = (position =? 0))
    /\ forall i a b,
         nth_error its i = Some a -> nth_error its (S i) = Some b ->
         snd (it_chunk b) = false
         /\ snd (fst (it_chunk b)) = next_context overlap (fst (fst (it_chunk a))).
Proof.
  induction fuel as [|fuel IH]; intros position prev its H0 H;
    destruct (chunk_loop_pass _ _ _ _ _ _ _ H)
      as [[_ ->] | (Hlt & fuel' & rest & Ef & -> & Hrest)];
    try discriminate.
  - split; [discriminate | intros [|i] a b; discriminate].
  - split; [discriminate | intros [|i] a b; discriminate].
  - injection Ef as <-.
    pose proof (cut_point_gt text position max_chars max_chars_pos Hlt) as Hgt.
    destruct (IH (cut_point text position max_chars) _ _ ltac:(lia) Hrest)
      as [Hhead Hpairs].
    split.
    + intros it rest' [= <- <-]. simpl. auto.
    + intros [|i] a b; simpl.
      * intros [= <-]. destruct rest as [|b' rest']; [discriminate|].
        intros [= <-]. destruct (Hhead b' rest' eq_refl) as [Hc Hf].
        simpl. rewrite Hc, Hf. split; [|reflexivity].
        apply Z.eqb_neq. lia.
      * apply Hpairs.
Qed.

End ChunkerContexts.

(** X2. For [max_chars >= 1] and [overlap >= 1] the first returned chunk
    is flagged first with an empty context, and every later chunk is not
    flagged and carries as context exactly the last
    [min(overlap, len(previous))] characters of the chunk text before it. *)
Theorem chunk_contexts_follow (fuel : nat) (text : str) (max_chars overlap : Z)
    (chunks : list chunk) :
  1 <= max_chars -> 1 <= overlap ->
  chunk_text fuel text max_chars overlap = Some chunks ->
  (exists t rest, chunks = (t, [], true) :: rest)
  /\ forall i t1 c1 f1 t2 c2 f2,
       nth_error chunks i = Some (t1, c1, f1) ->
       nth_error chunks (S i) = Some (t2, c2, f2) ->
       f2 = false
       /\ len c2 = Z.min overlap (len t1)
       /\ c2 = skipn (List.length t1 - List.length c2) t1.
Proof.
  intros Hm Ho. unfold chunk_text.
  destruct (Z.eqb_spec max_chars (-1)); [lia|].
  destruct (Z.leb_spec (len text) max_chars) as [Hle | Hgt].
  - intros [= <-]. split; [eauto|]. intros [|i] ? ? ? ? ? ? H1 H2; [discriminate|].
    destruct i; discriminate.
  - destruct (chunk_loop fuel _ _ _ _ _) as [its|] eqn:E; [|discriminate].
    intros [= <-].
    destruct (chunk_loop_linked text max_chars overlap Hm fuel 0 [] its ltac:(lia) E)
      as [Hhead Hpairs].
    split.
    + destruct (chunk_loop_pass _ _ _ _ _ _ _ E)
        as [[Hbad _] | (_ & fuel' & rest & _ & -> & _)]; [lia|].
      simpl. eauto.
    + intros i t1 c1 f1 t2 c2 f2. rewrite !nth_error_map.
      destruct (nth_error its i) as [a|] eqn:Ea; [|discriminate].
      destruct (nth_error its (S i)) as [b|] eqn:Eb; [|discriminate].
      simpl. intros [= Ha] [= Hb].
      destruct (Hpairs i a b Ea Eb) as [Hf Hc]. rewrite Ha, Hb in *. simpl in *.
      destruct (next_context_suffix overlap Ho t1) as [Hlen Hsuf].
      subst c2. auto.
Qed.

Lemma chunk_contexts_follow_witness :
  exists t rest,
    [(lit "Sentence one.", [], true); (lit "Sentence two.", lit " one.", false);
     (lit "Sentence three.", lit " two.", false)] = (t, [], true) :: rest.
Proof.
  refine (proj1 (chunk_contexts_follow 43
                   (lit "Sentence one. Sentence two. Sentence three.") 20 5 _
                   ltac:(lia) ltac:(lia) _)).
  vm_compute. reflexivity.
Defined.

(** *** The fallback boundaries *)

Section Fallbacks.

Variable text : str.

Lemma last_index_none (p : char -> bool) (s : str) :
  last_index p s = None -> forall j c, nth_error s j = Some c -> p c = false.
Proof.
  induction s as [|y s IHs]; intros E j c; [destruct j; discriminate|].
  simpl in E. destruct (last_index p s) as [k|] eqn:E'; [discriminate|].
  destruct (p y) eqn:Ey; [discriminate|].
  destruct j as [|j]; simpl; [intros [= <-]; exact Ey|]. now apply IHs.
Qed.

Lemma last_index_found (p : char -> bool) (s : str) (i : nat) :
  last_index p s = Some i ->
  (exists c, nth_error s i = Some c /\ p c = true)
  /\ forall j c, (i < j)%nat -> nth_error s j = Some c -> p c = false.
Proof.
  revert i. induction s as [|x s IH]; simpl; intros i H; [discriminate|].
  destruct (last_index p s) as [k|] eqn:E.
  - injection H as <-. destruct (IH k eq_refl) as [Hc Hafter]. split; [exact Hc|].
    intros [|j] c Hj; [lia|]. simpl. apply Hafter. lia.
  - destruct (p x) eqn:Ex; [|discriminate]. injection H as <-.
    split; [exists x; split; [reflexivity | exact Ex]|].
    intros [|j] c Hj; [lia|]. simpl. now apply last_index_none.
Qed.

(** [rfind]: the index found holds the character and nothing after it in
    the range does; [-1] means the range holds none. *)
Lemma rfind_found (c : char) (s : str) (start stop : Z) :
  let a := norm_index (len s) start in
  let b := norm_index (len s) stop in
  (rfind c s start stop = -1
   /\ forall j, a <= j < b -> nth_error s (Z.to_nat j) <> Some c)
  \/ (a <= rfind c s start stop < b
      /\ nth_error s (Z.to_nat (rfind c s start stop)) = Some c
      /\ forall j, rfind c s start stop < j < b -> nth_error s (Z.to_nat j) <> Some c).
Proof.
  intros a b. unfold rfind. fold a b.
  pose proof (norm_index_range (len s) start (len_nonneg s)) as Ha. fold a in Ha.
  pose proof (norm_index_range (len s) stop (len_nonneg s)) as Hb. fold b in Hb.
  assert (Hnth : forall k, (k < Z.to_nat (b - a))%nat ->
                   nth_error (firstn (Z.to_nat (b - a)) (skipn (Z.to_nat a) s)) k
                   = nth_error s (Z.to_nat a + k)).
  { intros k Hk. rewrite nth_error_firstn.
    destruct (Nat.ltb_spec k (Z.to_nat (b - a))); [|lia]. apply nth_error_skipn. }
  destruct (last_index _ _) as [i|] eqn:E.
  - right. pose proof (last_index_lt _ _ _ E) as Hi. rewrite length_firstn in Hi.
    destruct (last_index_found _ _ _ E) as [(x & Hx & Ex) Hafter].
    apply N.eqb_eq in Ex. subst x. rewrite Hnth in Hx by lia.
    split; [lia|]. split.
    + replace (Z.to_nat (a + Z.of_nat i)) with (Z.to_nat a + i)%nat by lia. exact Hx.
    + intros j Hj Hc.
      specialize (Hafter (Z.to_nat (j - a)) c ltac:(lia)).
      rewrite Hnth in Hafter by lia.
      replace (Z.to_nat a + Z.to_nat (j - a))%nat with (Z.to_nat j) in Hafter by lia.
      specialize (Hafter Hc). now rewrite N.eqb_refl in Hafter.
  - left. split; [reflexivity|]. intros j Hj Hc.
    pose proof (last_index_none _ _ E (Z.to_nat (j - a)) c) as Hn.
    rewrite Hnth in Hn by lia.
    replace (Z.to_nat a + Z.to_nat (j - a))%nat with (Z.to_nat j) in Hn by lia.
    specialize (Hn Hc). now rewrite N.eqb_refl in Hn.
Qed.

End Fallbacks.

(** X3. When the search finds no sentence break but finds paragraph
    breaks, the cut is one of them: the latest not after the naive cut
    when there is one, otherwise the earliest. *)
Theorem paragraph_cut_choice (text : str) (position max_chars : Z) :
  let naive := position + max_chars in
  let candidates := para_breaks text position naive in
  let cut := cut_point text position max_chars in
  naive < len text ->
  sentence_breaks text position naive = [] ->
  candidates <> [] ->
  In cut candidates
  /\ ((exists b, In b candidates /\ b <= naive) ->
        cut <= naive /\ forall b, In b candidates -> b <= naive -> b <= cut)
  /\ ((forall b, In b candidates -> naive < b) ->
        forall b, In b candidates -> cut <= b).
Proof.
  intros naive candidates cut Hnaive Hs Hne.
  assert (Ecut : exists b0 rest, candidates = b0 :: rest
                                 /\ cut = best_break (b0 :: rest) b0 naive).
  { subst cut. unfold cut_point. fold naive. rewrite Z.min_l by lia.
    destruct (Z.ltb_spec naive (len text)); [|lia]. rewrite Hs. fold candidates.
    destruct candidates as [|b0 rest]; [contradiction|]. eauto. }
  destruct Ecut as (b0 & rest & Ec & Ecut). rewrite Ecut, Ec.
  split; [apply best_break_in|]. split.
  - intros (b & Hb & Hle). unfold best_break.
    destruct (max_default_in (filter (fun b => b <=? naive) (b0 :: rest)) b0)
      as [[En _] | [_ Hin]].
    + assert (Hf : In b (filter (fun b => b <=? naive) (b0 :: rest))).
      { apply filter_In. split; [exact Hb | now apply Z.leb_le]. }
      rewrite En in Hf. destruct Hf.
    + split.
      * apply filter_In in Hin as [_ Hin]. now apply Z.leb_le in Hin.
      * intros b' Hb' Hle'. apply max_default_upper. apply filter_In.
        split; [exact Hb' | now apply Z.leb_le].
  - intros Hall.
    assert (E0 : best_break (b0 :: rest) b0 naive = b0).
    { unfold best_break. rewrite filter_none; [reflexivity|].
      intros x Hx. apply Z.leb_gt. now apply Hall. }
    rewrite E0. apply sorted_head_least. rewrite <- Ec.
    apply breaks_of_sorted, match_paragraph_sound.
Qed.

Lemma paragraph_cut_choice_witness :
  In (cut_point two_paragraphs 0 8) (para_breaks two_paragraphs 0 8).
Proof.
  apply (paragraph_cut_choice two_paragraphs 0 8).
  - vm_compute. reflexivity.
  - vm_compute. reflexivity.
  - vm_compute. discriminate.
Defined.

(** X4. When the search finds neither a sentence nor a paragraph break,
    the cut is either the naive cut or lies right after a space that is
    after [position] and before the naive cut, no space standing between
    that one and the naive cut; and when the naive cut is at least 100 and
    is kept, no space after [position] stands in the 100 characters
    before it. *)
Theorem space_cut_choice (text : str) (position max_chars : Z) :
  let naive := position + max_chars in
  let cut := cut_point text position max_chars in
  0 <= position -> 1 <= max_chars -> naive < len text ->
  sentence_breaks text position naive = [] ->
  para_breaks text position naive = [] ->
  (cut = naive
   /\ (100 <= naive ->
       forall j, position < j -> naive - 100 <= j < naive ->
                 nth_error text (Z.to_nat j) <> Some SPACE))
  \/ (position < cut <= naive
      /\ nth_error text (Z.to_nat (cut - 1)) = Some SPACE
      /\ forall j, cut <= j < naive -> nth_error text (Z.to_nat j) <> Some SPACE).
Proof.
  intros naive cut H0 Hm Hnaive Hs Hp. subst cut. unfold cut_point. fold naive.
  rewrite Z.min_l by lia. destruct (Z.ltb_spec naive (len text)); [|lia].
  rewrite Hs, Hp.
  assert (Hb : norm_index (len text) naive = naive) by (apply norm_index_id; lia).
  destruct (rfind_found SPACE text (naive - 100) naive) as [[E Hnone] | (Hr & Hc & Hafter)].
  - left. rewrite E. destruct (Z.ltb_spec position (-1)); [lia|]. split; [reflexivity|].
    intros H100 j Hj Hrange. apply Hnone. rewrite Hb.
    rewrite norm_index_id by lia. lia.
  - rewrite Hb in *. destruct (Z.ltb_spec position (rfind SPACE text (naive - 100) naive))
      as [Hgt | Hle].
    + right. split; [lia|]. split.
      * now replace (rfind SPACE text (naive - 100) naive + 1 - 1)
          with (rfind SPACE text (naive - 100) naive) by lia.
      * intros j Hj. apply Hafter. lia.
    + left. split; [reflexivity|]. intros H100 j Hj Hrange. apply Hafter. lia.
Qed.

Lemma space_cut_choice_witness :
  cut_point (lit "aaaa bbbb") 0 5 = 0 + 5
  \/ (0 < cut_point (lit "aaaa bbbb") 0 5 <= 0 + 5
      /\ nth_error (lit "aaaa bbbb") (Z.to_nat (cut_point (lit "aaaa bbbb") 0 5 - 1))
         = Some SPACE).
Proof.
  destruct (space_cut_choice (lit "aaaa bbbb") 0 5 ltac:(lia) ltac:(lia)
              ltac:(vm_compute; reflexivity) eq_refl eq_refl)
    as [[H _] | (H1 & H2 & _)]; [left; exact H | right; split; assumption].
Defined.

(** X5. A naive cut below 100 in a document of at least 100 characters
    never falls back to a space: the start [chunk_end - 100] of the
    [rfind] range is negative, counts from the end of the document and
    lands at or after the naive cut, so the range is empty. *)
Theorem space_search_wraps (text : str) (position max_chars : Z) :
  0 <= position -> 1 <= max_chars ->
  position + max_chars < 100 -> 100 <= len text ->
  sentence_breaks text position (position + max_chars) = [] ->
  para_breaks text position (position + max_chars) = [] ->
  rfind SPACE text (position + max_chars - 100) (position + max_chars) = -1
  /\ cut_point text position max_chars = position + max_chars.
Proof.
  intros H0 Hm Hlt Hlen Hs Hp.
  assert (E : rfind SPACE text (position + max_chars - 100) (position + max_chars) = -1).
  { unfold rfind, norm_index.
    destruct (Z.ltb_spec (position + max_chars - 100) 0); [|lia].
    destruct (Z.ltb_spec (position + max_chars) 0); [lia|].
    replace (Z.to_nat (Z.min (position + max_chars) (len text)
                       - Z.max 0 (position + max_chars - 100 + len text)))
      with O by lia.
    reflexivity. }
  split; [exact E|]. unfold cut_point. rewrite Z.min_l by lia.
  destruct (Z.ltb_spec (position + max_chars) (len text)); [|lia].
  rewrite Hs, Hp, E. destruct (Z.ltb_spec position (-1)); [lia | reflexivity].
Qed.

Lemma space_search_wraps_witness :
  nth_error spaced_words 9 = Some SPACE /\ cut_point spaced_words 0 12 = 0 + 12.
Proof.
  split; [reflexivity|].
  apply (space_search_wraps spaced_words 0 12); try lia.
  - vm_compute. discriminate.
  - vm_compute. reflexivity.
  - vm_compute. reflexivity.
Defined.

(** ** Further properties of the deduplication *)

Section DedupMore.

Variable lower : str -> str.

(** The paragraphs kept are, in order, trimmed copies of input
    paragraphs. *)
Lemma dedup_loop_subseq (paragraphs : list str) :
  forall seen,
    subseq (dedup_loop lower paragraphs seen) (List.map strip paragraphs).
Proof.
  induction paragraphs as [|para rest IH]; intros seen; simpl; [constructor|].
  destruct (strip para) as [|c sp] eqn:Es.
  - apply subseq_skip, IH.
  - destruct (in_dec str_eq_dec (normalize lower (c :: sp)) seen).
    + apply subseq_skip, IH.
    + apply subseq_keep, IH.
Qed.

(** No normalised form is lost: a paragraph that is not kept is empty
    once trimmed, or its normalised form was seen before or is kept. *)
Lemma dedup_loop_complete (paragraphs : list str) :
  forall seen q,
    In q paragraphs -> strip q <> [] ->
    In (normalize lower (strip q)) seen
    \/ exists p, In p (dedup_loop lower paragraphs seen)
                 /\ normalize lower p = normalize lower (strip q).
Proof.
  induction paragraphs as [|para rest IH]; intros seen q Hq Hne; [destruct Hq|].
  simpl. destruct Hq as [-> | Hq].
  - destruct (strip q) as [|c sp] eqn:Es; [contradiction|].
    destruct (in_dec str_eq_dec (normalize lower (c :: sp)) seen) as [Hin | Hnin].
    + now left.
    + right. exists (c :: sp). split; [now left | reflexivity].
  - destruct (strip para) as [|c sp] eqn:Es; [now apply IH|].
    destruct (in_dec str_eq_dec (normalize lower (c :: sp)) seen) as [Hin | Hnin].
    + now apply IH.
    + destruct (IH (normalize lower (c :: sp) :: seen) q Hq Hne)
        as [[E | Hin] | (p & Hp & Ep)].
      * right. exists (c :: sp). split; [now left | exact E].
      * now left.
      * right. exists p. split; [now right | exact Ep].
Qed.

Lemma join_length (sep p : str) (l : list str) :
  len (join sep (p :: l))
  = len p + match l with [] => 0 | _ :: _ => len sep + len (join sep l) end.
Proof.
  destruct l as [|q l]; [simpl; lia|].
  change (join sep (p :: q :: l)) with (p ++ sep ++ join sep (q :: l)).
  rewrite !len_app. lia.
Qed.

Lemma dedup_loop_shorter (paragraphs : list str) :
  forall seen,
    len (join [NL; NL] (dedup_loop lower paragraphs seen))
    <= len (join [NL; NL] paragraphs).
Proof.
  induction paragraphs as [|para rest IH]; intros seen; [simpl; lia|].
  assert (Hskip : forall seen',
             len (join [NL; NL] (dedup_loop lower rest seen'))
             <= len (join [NL; NL] (para :: rest))).
  { intros seen'. specialize (IH seen'). rewrite join_length.
    pose proof (len_nonneg para).
    destruct rest as [|q rest]; [unfold len in *; simpl in *; lia|].
    pose proof (len_nonneg [NL; NL]). lia. }
  simpl dedup_loop. destruct (strip para) as [|c sp] eqn:Es; [apply Hskip|].
  destruct (in_dec str_eq_dec (normalize lower (c :: sp)) seen); [apply Hskip|].
  rewrite !join_length. pose proof (strip_length para) as Hs. rewrite Es in Hs.
  specialize (IH (normalize lower (c :: sp) :: seen)).
  destruct (dedup_loop lower rest (normalize lower (c :: sp) :: seen)) as [|o out] eqn:Eo.
  - destruct rest as [|q rest]; [lia|]. pose proof (len_nonneg (join [NL; NL] (q :: rest))).
    unfold len at 3. simpl List.length. lia.
  - destruct rest as [|q rest]; [discriminate|]. lia.
Qed.

End DedupMore.

(** X6. A non-empty result of [deduplicate_paragraphs] splits back into
    the paragraphs kept; these are non-empty, trimmed, pairwise distinct
    after normalisation, and each is the trimmed form of a paragraph of
    the input. *)
Theorem dedup_output_paragraphs (lower : str -> str) (text : str) :
  deduplicate_paragraphs lower text = []
  \/ (split_blank (deduplicate_paragraphs lower text)
      = dedup_loop lower (split_blank text) []
      /\ NoDup (List.map (normalize lower)
                  (split_blank (deduplicate_paragraphs lower text)))
      /\ Forall (fun p => p <> [] /\ strip p = p
                          /\ exists q, In q (split_blank text) /\ p = strip q)
                (split_blank (deduplicate_paragraphs lower text))).
Proof.
  unfold deduplicate_paragraphs.
  destruct (dedup_loop_out lower (split_blank text) []) as (H1 & H2 & _).
  destruct (dedup_loop lower (split_blank text) []) as [|p out] eqn:E; [now left|].
  right.
  assert (Es : split_blank (join [NL; NL] (p :: out)) = p :: out).
  { apply split_blank_join; [discriminate|].
    rewrite Forall_forall in *. intros x Hx.
    destruct (H1 x Hx) as (_ & Hs & q & Hq & Ex). split.
    - rewrite Ex. apply strip_blank_free.
      pose proof (split_blank_pieces text) as Hp. rewrite Forall_forall in Hp. auto.
    - rewrite <- Hs. unfold strip. apply rstrip_last_ok. }
  rewrite Es. auto.
Qed.

(** X7. The paragraphs kept by [deduplicate_paragraphs] are the trimmed
    input paragraphs with some left out, in the input's order; and every
    input paragraph that is not blank has its normalised form among the
    ones kept. *)
Theorem dedup_keeps_every_form (lower : str -> str) (text : str) :
  subseq (dedup_loop lower (split_blank text) []) (List.map strip (split_blank text))
  /\ forall q,
       In q (split_blank text) -> strip q <> [] ->
       exists p, In p (dedup_loop lower (split_blank text) [])
                 /\ normalize lower p = normalize lower (strip q).
Proof.
  split; [apply dedup_loop_subseq|]. intros q Hq Hne.
  destruct (dedup_loop_complete lower (split_blank text) [] q Hq Hne) as [[] | H].
  exact H.
Qed.

(** X8. [deduplicate_paragraphs] never returns a longer text. *)
Theorem dedup_never_longer (lower : str -> str) (text : str) :
  len (deduplicate_paragraphs lower text) <= len text.
Proof.
  unfold deduplicate_paragraphs.
  pose proof (dedup_loop_shorter lower (split_blank text) []) as H.
  now rewrite join_split_blank in H.
Qed.

(** ** Further properties of the gateway *)

Section GatewayMore.

Variable lib : library.
Variable env : environment.

Lemma interpret_response_trimmed (response : pyval) (result : str) :
  interpret_response lib response = Ok result -> strip result = result.
Proof.
  unfold interpret_response, subscript, call_strip, getattr.
  repeat match goal with
         | |- context [match ?x with _ => _ end] =>
             lazymatch x with
             | context [match _ with _ => _ end] => fail
             | _ => destruct x; simpl
             end
         end; try discriminate; intros [= <-]; apply strip_strip.
Qed.

Lemma remove_prefix_trimmed (prefixes : list str) (result result_lower : str) :
  strip result = result ->
  strip (remove_prefix prefixes result result_lower)
  = remove_prefix prefixes result result_lower.
Proof.
  intros H. induction prefixes as [|p ps IH]; simpl; [exact H|].
  destruct (startswith result_lower p); [apply strip_strip | exact IH].
Qed.

End GatewayMore.

(** X9. One call of [process_with_llm] sends exactly one chat request,
    carrying the model, prompts and temperature it was given, passes one
    suspension point, writes no file, and emits nothing or one error
    signal: it never retries. *)
Theorem process_with_llm_single_request (lib : library) (env : environment)
    (text system_prompt user_prompt model : str) (temperature : Q) (w : world) :
  exists value w',
    process_with_llm lib env text system_prompt user_prompt model temperature w
    = Some (Ok value, w')
    /\ requests w'
       = {| req_model := model; req_system := system_prompt;
            req_user := user_prompt; req_temperature := temperature |} :: requests w
    /\ clock w' = S (clock w)
    /\ files w' = files w
    /\ (signals w' = signals w
        \/ exists error_msg, signals w' = processing_error error_msg :: signals w).
Proof.
  destruct (process_with_llm_effect lib env text system_prompt user_prompt model
              temperature w) as (v & w' & E & _ & C & Q & _ & F & Hr & Ho).
  exists v, w'. repeat (split; [assumption|]).
  destruct (chat_reply env (clock w) _) as [response | e] eqn:Ec.
  - destruct (Ho response eq_refl) as [(r & _ & Hs) | (_ & Hs)]; auto.
  - destruct (Hr e eq_refl) as [_ Hs]. auto.
Qed.

Lemma slice_from_skipn (s : str) (n : nat) :
  slice_from s (Z.of_nat n) = skipn n s.
Proof.
  unfold slice_from, norm_index. destruct (Z.ltb_spec (Z.of_nat n) 0); [lia|].
  unfold len. destruct (Nat.le_gt_cases n (List.length s)) as [H' | H'].
  - rewrite Z.min_l by lia. now rewrite Nat2Z.id.
  - rewrite Z.min_r by lia. rewrite Nat2Z.id.
    rewrite skipn_all. symmetry. apply skipn_all2. lia.
Qed.

Lemma startswith_begins (s phrase : str) :
  startswith s phrase = true <-> begins_with s phrase.
Proof.
  unfold begins_with. revert s.
  induction phrase as [|p phrase IH]; intros s.
  - split; [intros _; now exists s | intros _; now destruct s].
  - destruct s as [|c s]; simpl.
    + split; [discriminate | intros [rest H]; discriminate].
    + rewrite andb_true_iff, N.eqb_eq, IH. split.
      * intros [-> [rest ->]]. now exists rest.
      * intros [rest [= -> ->]]. split; [reflexivity | now exists rest].
Qed.

(** The loop over the phrases stops at the first one the lowered text
    begins with and drops as many characters as that phrase has. *)
Lemma remove_prefix_cases (prefixes : list str) (result result_lower : str) :
  ((forall phrase, In phrase prefixes -> ~ begins_with result_lower phrase)
   /\ remove_prefix prefixes result result_lower = result)
  \/ exists earlier phrase later,
       prefixes = earlier ++ phrase :: later
       /\ (forall other, In other earlier -> ~ begins_with result_lower other)
       /\ begins_with result_lower phrase
       /\ remove_prefix prefixes result result_lower
          = strip (skipn (List.length phrase) result).
Proof.
  induction prefixes as [|p ps IH]; simpl.
  - left. split; [intros phrase [] | reflexivity].
  - destruct (startswith result_lower p) eqn:Ep.
    + right. exists [], p, ps. split; [reflexivity|]. split; [intros other []|].
      split; [now apply startswith_begins|].
      unfold len. now rewrite slice_from_skipn.
    + assert (Hp : ~ begins_with result_lower p).
      { intros H. apply startswith_begins in H. congruence. }
      destruct IH as [[Hnone E] | (earlier & phrase & later & -> & Hno & Hyes & E)].
      * left. split; [|exact E]. intros phrase [<- | Hin]; [exact Hp | now apply Hnone].
      * right. exists (p :: earlier), phrase, later. split; [reflexivity|].
        split; [|split; assumption].
        intros other [<- | Hin]; [exact Hp | now apply Hno].
Qed.

(** X10. When the service answers and the answer can be read, no signal
    is emitted and the value returned has no leading or trailing
    whitespace.  It is the text read when the lowered text begins with
    none of the eight boilerplate phrases; otherwise it is the text read
    without its first characters, as many as the first phrase of the list
    that the lowered text begins with has, trimmed. *)
Theorem process_with_llm_success_trimmed (lib : library) (env : environment)
    (text system_prompt user_prompt model : str) (temperature : Q) (w : world)
    (response : pyval) (result : str) :
  chat_reply env (clock w)
    {| req_model := model; req_system := system_prompt;
       req_user := user_prompt; req_temperature := temperature |} = Ok response ->
  interpret_response lib response = Ok result ->
  exists value w',
    process_with_llm lib env text system_prompt user_prompt model temperature w
    = Some (Ok value, w')
    /\ (((forall phrase, In phrase unwanted_prefixes ->
            ~ begins_with (lower lib result) phrase)
         /\ value = result)
        \/ exists earlier phrase later,
             unwanted_prefixes = earlier ++ phrase :: later
             /\ (forall other, In other earlier ->
                   ~ begins_with (lower lib result) other)
             /\ begins_with (lower lib result) phrase
             /\ value = strip (skipn (List.length phrase) result))
    /\ strip value = value
    /\ signals w' = signals w.
Proof.
  intros Hc Hi. do 2 eexists. split.
  - unfold process_with_llm, try_body, bind, client_chat, lift, ret.
    rewrite Hc. cbv beta iota. rewrite Hi. reflexivity.
  - split; [apply remove_prefix_cases|]. split.
    + apply remove_prefix_trimmed. eapply interpret_response_trimmed; eassumption.
    + unfold suspend. simpl. destruct (stop_during env (clock w)); reflexivity.
Qed.

Lemma process_with_llm_success_trimmed_witness :
  exists value w',
    process_with_llm Example.lib env_prefixed (lit "Hello") [] [] (lit "m")
                     (3 # 10) Example.started = Some (Ok value, w')
    /\ (((forall phrase, In phrase unwanted_prefixes ->
            ~ begins_with (ascii_lower (lit "Translation:  Ahoj")) phrase)
         /\ value = lit "Translation:  Ahoj")
        \/ exists earlier phrase later,
             unwanted_prefixes = earlier ++ phrase :: later
             /\ (forall other, In other earlier ->
                   ~ begins_with (ascii_lower (lit "Translation:  Ahoj")) other)
             /\ begins_with (ascii_lower (lit "Translation:  Ahoj")) phrase
             /\ value = strip (skipn (List.length phrase) (lit "Translation:  Ahoj")))
    /\ strip value = value
    /\ signals w' = [].
Proof.
  exact (process_with_llm_success_trimmed Example.lib env_prefixed (lit "Hello")
           [] [] (lit "m") (3 # 10) Example.started
           (VDict [(lit "message",
                    VDict [(lit "content", VStr (lit "Translation:  Ahoj "))])])
           (lit "Translation:  Ahoj") eq_refl eq_refl).
Defined.

(** With the answer [Translation:  Ahoj ] the call returns [Ahoj]. *)
Lemma prefixed_answer_is_cut :
  exists w',
    process_with_llm Example.lib env_prefixed (lit "Hello") [] [] (lit "m")
                     (3 # 10) Example.started = Some (Ok (lit "Ahoj"), w').
Proof. eexists. vm_compute. reflexivity. Qed.

(** X11. A [dict] answer without the key [message], or whose [message]
    is a [dict] without the key [content], is reported as a parse error:
    the call returns the [ERROR] placeholder and emits one error signal
    that names the missing key. *)
Theorem missing_key_is_parse_error (lib : library) (env : environment)
    (text system_prompt user_prompt model : str) (temperature : Q) (w : world)
    (items : list (str * pyval)) (key : string) :
  (key = "message"%string /\ lookup (lit "message") items = None
   \/ key = "content"%string
      /\ exists inner, lookup (lit "message") items = Some (VDict inner)
                       /\ lookup (lit "content") inner = None) ->
  chat_reply env (clock w)
    {| req_model := model; req_system := system_prompt;
       req_user := user_prompt; req_temperature := temperature |} = Ok (VDict items) ->
  exists w',
    process_with_llm lib env text system_prompt user_prompt model temperature w
    = Some (Ok (placeholder "ERROR" text), w')
    /\ signals w'
       = processing_error
           ([10060%N]
              ++ lit " Unexpected Error: Exception: Cannot parse Ollama response: <class 'dict'>. Error: '"
              ++ lit key ++ lit "'") :: signals w.
Proof.
  intros Hk Hc.
  assert (Hi : interpret_response lib (VDict items)
               = Raise (OtherException (lit "Exception")
                          (lit "Cannot parse Ollama response: <class 'dict'>. Error: '"
                             ++ lit key ++ lit "'"))).
  { unfold interpret_response, subscript.
    destruct Hk as [[-> Hm] | [-> (inner & Hm & Hin)]]; rewrite Hm; [reflexivity|].
    rewrite Hin. reflexivity. }
  eexists. split.
  - unfold process_with_llm, try_body, bind, client_chat, lift, ret.
    rewrite Hc. cbv beta iota. rewrite Hi. cbv beta iota. reflexivity.
  - unfold suspend. simpl.
    destruct Hk as [[-> _] | [-> _]];
      destruct (stop_during env (clock w)); reflexivity.
Qed.

Lemma missing_key_is_parse_error_witness :
  exists w',
    process_with_llm Example.lib env_no_message (lit "Hello") [] [] (lit "m")
                     (3 # 10) Example.started
    = Some (Ok (lit "[ERROR: Hello...]"), w').
Proof.
  destruct (missing_key_is_parse_error Example.lib env_no_message (lit "Hello") [] []
              (lit "m") (3 # 10) Example.started [(lit "done", VNone)] "message"
              (or_introl (conj eq_refl eq_refl)) eq_refl) as (w' & E & _).
  exists w'. exact E.
Defined.

(** X12. Step files never collide: two step names that give the same
    file are the same name, and when [splitext] splits the output path
    (its two parts concatenate to it) no step file is the output file. *)
Theorem step_files_distinct (lib : library) (w : world) (step1 step2 f : str) :
  generate_step_filename lib w step1 = Some f ->
  (generate_step_filename lib w step2 = Some f -> step1 = step2)
  /\ (forall path, output_base_path w = Some path ->
        fst (splitext lib path) ++ snd (splitext lib path) = path -> f <> path).
Proof.
  unfold generate_step_filename.
  destruct (output_base_path w) as [[|c path]|]; try discriminate.
  destruct (splitext lib (c :: path)) as [base ext] eqn:Es.
  intros [= <-]. split.
  - intros [= H]. apply app_inv_head in H. injection H as H.
    apply app_inv_tail in H. now symmetry.
  - intros path' [= <-]. rewrite Es. simpl. intros Hsplit H.
    apply (f_equal (@List.length char)) in H. rewrite <- Hsplit in H.
    rewrite !length_app in H. unfold lit in H. simpl in H.
    rewrite length_app in H. lia.
Qed.

Lemma step_files_distinct_witness :
  lit "out_step_01_translated.txt" <> lit "out.txt".
Proof.
  exact (proj2 (step_files_distinct Example.lib Example.started (lit "01_translated")
                  (lit "01_translated") (lit "out_step_01_translated.txt") eq_refl)
               (lit "out.txt") eq_refl eq_refl).
Defined.

(** ** Further properties of the pipeline *)

Section FlagFacts.

Variable lib : library.
Variable env : environment.
Variable build_combined_prompt : op_settings -> list str -> result (str * str).

Lemma follows_refl (w : world) : follows env w w.
Proof.
  split; [lia|]. split.
  - split; [intros H; split; [exact H | intros n Hn; lia] | tauto].
  - exists []. split; reflexivity.
Qed.

Lemma follows_trans (w1 w2 w3 : world) :
  follows env w1 w2 -> follows env w2 w3 -> follows env w1 w3.
Proof.
  intros (C1 & R1 & n1 & S1 & F1) (C2 & R2 & n2 & S2 & F2).
  split; [lia|]. split.
  - rewrite R2, R1. unfold quiet. split.
    + intros [[Hr Hq1] Hq2]. split; [exact Hr|]. intros n Hn.
      destruct (Nat.lt_ge_cases n (clock w2)); [apply Hq1 | apply Hq2]; lia.
    + intros [Hr Hq]. repeat split; [exact Hr | |]; intros n Hn; apply Hq; lia.
  - exists (n2 ++ n1). split.
    + now rewrite S2, S1, app_assoc.
    + rewrite forallb_app, F1, F2. reflexivity.
Qed.

(** A step that only adds one signal, a file or a request. *)
Lemma follows_still (w w' : world) (new : list signal) :
  clock w' = clock w -> is_running w' = is_running w ->
  signals w' = new ++ signals w ->
  forallb (fun s => negb (is_finished s)) new = true ->
  follows env w w'.
Proof.
  intros C R S F. split; [lia|]. split.
  - rewrite R, C. split; [intros H; split; [exact H | intros n Hn; lia] | tauto].
  - eauto.
Qed.

Lemma follows_suspend (w : world) : follows env w (suspend env w).
Proof.
  unfold suspend. split; [simpl; lia|]. split.
  - unfold quiet. destruct (stop_during env (clock w)) eqn:Es; simpl.
    + split; [discriminate|]. intros [_ Hq]. rewrite Hq in Es by lia. discriminate.
    + split; [|tauto]. intros H. split; [exact H|]. intros n Hn.
      replace n with (clock w) by lia. exact Es.
  - exists []. split; [|reflexivity].
    destruct (stop_during env (clock w)); reflexivity.
Qed.

Lemma keeps_ret {A : Type} (a : A) : keeps env (ret a).
Proof. intros w r w' [= <- <-]. apply follows_refl. Qed.

Lemma keeps_lift {A : Type} (x : result A) : keeps env (lift x).
Proof. intros w r w' [= <- <-]. apply follows_refl. Qed.

Lemma keeps_emit (s : signal) : is_finished s = false -> keeps env (emit s).
Proof.
  intros Hs w r w' [= <- <-]. apply (follows_still _ _ [s]); try reflexivity.
  simpl. now rewrite Hs.
Qed.

Lemma keeps_sleep : keeps env (sleep env).
Proof. intros w r w' [= <- <-]. apply follows_suspend. Qed.

Lemma keeps_bind {A B : Type} (m : M A) (k : A -> M B) :
  keeps env m -> (forall a, keeps env (k a)) -> keeps env (bind m k).
Proof.
  intros Hm Hk w r w'. unfold bind.
  destruct (m w) as [[[a | e] w1]|] eqn:E; [| |discriminate].
  - intros H. eapply follows_trans; [exact (Hm _ _ _ E) | exact (Hk a _ _ _ H)].
  - intros [= <- <-]. exact (Hm _ _ _ E).
Qed.

(** Choosing by the state, as the loops do at their stop check. *)
Lemma keeps_if {A : Type} (test : world -> bool) (m1 m2 : M A) :
  keeps env m1 -> keeps env m2 ->
  keeps env (fun w => if test w then m1 w else m2 w).
Proof.
  intros H1 H2 w r w'. destruct (test w); [apply H1 | apply H2].
Qed.

Lemma keeps_process_with_llm (text system_prompt user_prompt model : str)
    (temperature : Q) :
  keeps env (process_with_llm lib env text system_prompt user_prompt model temperature).
Proof.
  intros w r w' H.
  destruct (process_with_llm_effect lib env text system_prompt user_prompt model
              temperature w) as (v & w1 & E & R & C & _ & _ & _ & Hr & Ho).
  rewrite E in H. injection H as <- <-.
  assert (Hs : exists new, signals w1 = new ++ signals w
                           /\ forallb (fun s => negb (is_finished s)) new = true).
  { destruct (chat_reply env (clock w) _) as [response | e] eqn:Ec.
    - destruct (Ho response eq_refl) as [(x & _ & Hs) | (_ & msg & Hs)].
      + exists []. split; [exact Hs | reflexivity].
      + exists [processing_error msg]. split; [exact Hs | reflexivity].
    - destruct (Hr e eq_refl) as [_ [msg Hs]].
      exists [processing_error msg]. split; [exact Hs | reflexivity]. }
  split; [lia|]. split; [|exact Hs].
  rewrite R, C. unfold running_after, quiet.
  destruct (stop_during env (clock w)) eqn:Es.
  - split; [discriminate|]. intros [_ Hq]. rewrite Hq in Es by lia. discriminate.
  - split; [|tauto]. intros H. split; [exact H|]. intros n Hn.
    replace n with (clock w) by lia. exact Es.
Qed.

Lemma keeps_save_step (content step : str) : keeps env (save_step lib env content step).
Proof.
  intros w r w'. unfold save_step.
  destruct (generate_step_filename lib w step) as [f|].
  - destruct (write_error env f); intros [= <- <-].
    + eapply (follows_still _ _ [_]); reflexivity.
    + eapply (follows_still _ _ [_]); reflexivity.
  - intros [= <- <-]. apply follows_refl.
Qed.

Lemma keeps_translation_loop (st : op_settings) (total : Z) (chunks : list chunk) :
  forall i parts last,
    keeps env (translation_loop lib env st total chunks i parts last).
Proof.
  induction chunks as [|c rest IH]; intros i parts last; cbn [translation_loop].
  - apply keeps_ret.
  - apply (keeps_if (fun w => negb (is_running w))); [apply keeps_ret|].
    apply keeps_bind; [apply keeps_lift|]. intros p.
    apply keeps_bind; [apply keeps_process_with_llm|]. intros v.
    apply keeps_bind; [apply keeps_save_step|]. intros _.
    apply keeps_bind; [now apply keeps_emit|]. intros _.
    apply keeps_bind; [apply keeps_sleep|]. intros _. apply IH.
Qed.

Lemma keeps_combined_loop (st : op_settings) (task_count total : Z)
    (system_prompt template : str) (chunks : list chunk) :
  forall idx processed,
    keeps env (combined_loop lib env st task_count total system_prompt template
                             chunks idx processed).
Proof.
  induction chunks as [|c rest IH]; intros idx processed; cbn [combined_loop].
  - apply keeps_ret.
  - apply (keeps_if (fun w => negb (is_running w))); [apply keeps_ret|].
    apply keeps_bind; [apply keeps_lift|]. intros u.
    apply keeps_bind; [apply keeps_process_with_llm|]. intros v.
    apply keeps_bind; [now apply keeps_emit|]. intros _.
    apply keeps_bind; [apply keeps_sleep|]. intros _. apply IH.
Qed.

Lemma keeps_execute_translation (fuel : nat) (text : str) (st : op_settings) :
  keeps env (execute_translation lib env fuel text st).
Proof.
  intros w r w'. unfold execute_translation.
  destruct (chunk_text fuel text _ _) as [chunks|]; [|discriminate].
  destruct (Z.of_nat (List.length chunks) =? 0); [apply keeps_ret|].
  apply keeps_bind; [now apply keeps_emit|]. intros _.
  apply keeps_bind; [apply keeps_translation_loop|]. intros parts. apply keeps_ret.
Qed.

Lemma keeps_execute_combined_operation (fuel : nat) (text : str) (st : op_settings)
    (enabled : list str) :
  keeps env (execute_combined_operation lib env build_combined_prompt fuel text st
                                        enabled).
Proof.
  unfold execute_combined_operation. destruct enabled as [|e0 enabled];
    [apply keeps_ret|].
  intros w r w'.
  destruct (build_combined_prompt st (e0 :: enabled)) as [[sp ut] | e].
  - destruct (chunk_text fuel text _ _) as [chunks|]; [|discriminate].
    apply keeps_bind; [now apply keeps_emit|]. intros _.
    apply keeps_bind; [apply keeps_combined_loop|]. intros parts. apply keeps_ret.
  - intros [= <- <-]. apply follows_refl.
Qed.

Lemma keeps_run_stages (fuel : nat) (pipeline : list op_settings) :
  forall text step_counter,
    keeps env (run_stages lib env build_combined_prompt fuel pipeline text step_counter).
Proof.
  induction pipeline as [|st rest IH]; intros text step_counter; cbn [run_stages].
  - apply keeps_ret.
  - apply (keeps_if (fun w => negb (is_running w))); [apply keeps_ret|].
    apply keeps_bind; [now apply keeps_emit|]. intros _.
    destruct (str_eq_dec (operation_id st) (lit "translation")).
    + apply keeps_bind; [apply keeps_execute_translation|]. intros text'.
      apply keeps_bind; [apply keeps_save_step|]. intros _. apply IH.
    + destruct (enabled_sub_ops_of st) as [|e0 enabled]; [apply IH|].
      apply keeps_bind; [apply keeps_execute_combined_operation|]. intros text'.
      apply keeps_bind; [apply keeps_save_step|]. intros _. apply IH.
Qed.

End FlagFacts.

(** X13. A run that is refused (one is already running), or whose
    connection probe or input read fails, sends no request and writes no
    file; it emits exactly one error signal, after status signals only;
    a refused run leaves the flag on, the other two leave it off. *)
Theorem setup_failure_runs_nothing (lib : library) (env : environment)
    (build_combined_prompt : op_settings -> list str -> result (str * str))
    (fuel : nat) (input_path output_path : str) (pipeline : list op_settings)
    (w : world) :
  is_running w = true
  \/ (exists e, probe_reply env (clock w) = Raise e)
  \/ (exists e, read_file env input_path = Raise e) ->
  exists w' error_msg statuses,
    process_pipeline lib env build_combined_prompt fuel input_path output_path
                     pipeline w = Some (Ok tt, w')
    /\ requests w' = requests w
    /\ files w' = files w
    /\ signals w' = processing_error error_msg :: statuses ++ signals w
    /\ forallb is_status statuses = true
    /\ is_running w' = is_running w.
Proof.
  intros H. unfold process_pipeline. destruct (is_running w) eqn:Hrun.
  - do 2 eexists. exists []. split; [reflexivity|]. simpl. auto.
  - destruct H as [H | H]; [discriminate|].
    set (w1 := add_signal _ (set_base_path _ (set_running true w))).
    assert (H2 : requests (suspend env w1) = requests w
                 /\ files (suspend env w1) = files w
                 /\ exists s, signals (suspend env w1) = s :: signals w
                              /\ is_status s = true).
    { unfold suspend. destruct (stop_during env (clock w1)); simpl; eauto. }
    destruct H2 as (Q2 & F2 & s2 & S2 & Hs2).
    replace (clock w1) with (clock w) by reflexivity.
    set (w2 := suspend env w1) in *. clearbody w2.
    destruct (probe_reply env (clock w)) as [[]|e] eqn:Ep.
    + destruct H as [[e He] | [e He]]; [discriminate|]. rewrite He.
      do 2 eexists.
      exists [step_status ([128214%N] ++ lit " Reading input file...");
              step_status ([9989%N] ++ lit " Ollama connected successfully"); s2].
      split; [reflexivity|]. simpl.
      rewrite Q2, F2, S2, Hs2. auto.
    + do 2 eexists. exists [s2]. split; [reflexivity|]. simpl.
      rewrite Q2, F2, S2, Hs2. auto.
Qed.

Lemma setup_failure_runs_nothing_witness :
  exists w' error_msg statuses,
    process_pipeline Example.lib (Example.env 7) Example.no_compose 10
                     (lit "in.txt") (lit "out.txt") [Example.translation_stage]
                     Example.started = Some (Ok tt, w')
    /\ requests w' = [] /\ files w' = []
    /\ signals w' = processing_error error_msg :: statuses ++ [].
Proof.
  destruct (setup_failure_runs_nothing Example.lib (Example.env 7) Example.no_compose
              10 (lit "in.txt") (lit "out.txt") [Example.translation_stage]
              Example.started (or_introl eq_refl))
    as (w' & msg & statuses & E & Q & F & S & _).
  exists w', msg, statuses. repeat split; assumption.
Defined.

(** An accepted run whose probe and read succeed is the stage loop, the
    final write and the reset, begun after its four status signals. *)
Lemma process_pipeline_onward (lib : library) (env : environment)
    (build_combined_prompt : op_settings -> list str -> result (str * str))
    (fuel : nat) (input_path output_path : str) (pipeline : list op_settings)
    (text : str) (w : world) :
  is_running w = false ->
  probe_reply env (clock w) = Ok tt ->
  read_file env input_path = Ok text ->
  process_pipeline lib env build_combined_prompt fuel input_path output_path pipeline w
  = stages_onward lib env build_combined_prompt fuel output_path pipeline text 1
      (at_first_stage env output_path text w)
  /\ exists s1 s2 s3 s4,
       signals (at_first_stage env output_path text w) = [s4; s3; s2; s1] ++ signals w
       /\ forallb (fun s => negb (is_finished s)) [s4; s3; s2; s1] = true.
Proof.
  intros Hrun Hp Hr. split.
  - unfold process_pipeline, at_first_stage. rewrite Hrun. cbv zeta.
    replace (clock (add_signal _ (set_base_path _ (set_running true w))))
      with (clock w) by reflexivity.
    rewrite Hp, Hr. reflexivity.
  - unfold at_first_stage, suspend. do 4 eexists.
    destruct (stop_during env _); simpl; split; reflexivity.
Qed.

(** X14. Among the signals an accepted run emits, the completion signal
    comes at most once and last.  When it is there it carries the output
    path the run was given, the stage loop had returned with the flag
    still on, and the last file written is the output file, holding the
    text the stage loop returned.  And when the probe and the read
    succeed, the stage loop returns with the flag on and the output can
    be written, the run does emit it. *)
Theorem completion_signal_comes_last (lib : library) (env : environment)
    (build_combined_prompt : op_settings -> list str -> result (str * str))
    (fuel : nat) (input_path output_path : str) (pipeline : list op_settings)
    (w w' : world) :
  is_running w = false ->
  process_pipeline lib env build_combined_prompt fuel input_path output_path
                   pipeline w = Some (Ok tt, w') ->
  exists new,
    signals w' = new ++ signals w
    /\ (forall p, In (processing_finished p) new ->
          p = output_path
          /\ exists earlier text text' w6,
               new = processing_finished output_path :: earlier
               /\ (forall q, ~ In (processing_finished q) earlier)
               /\ read_file env input_path = Ok text
               /\ run_stages lib env build_combined_prompt fuel pipeline text 1
                    (at_first_stage env output_path text w) = Some (Ok text', w6)
               /\ is_running w6 = true
               /\ files w' = (output_path, text') :: files w6)
    /\ (forall text text' w6,
          probe_reply env (clock w) = Ok tt ->
          read_file env input_path = Ok text ->
          run_stages lib env build_combined_prompt fuel pipeline text 1
            (at_first_stage env output_path text w) = Some (Ok text', w6) ->
          is_running w6 = true ->
          write_error env output_path = None ->
          In (processing_finished output_path) new).
Proof.
  intros Hrun.
  destruct (probe_reply env (clock w)) as [[]|e] eqn:Ep.
  2:{ unfold process_pipeline. rewrite Hrun. cbv zeta.
      replace (clock (add_signal _ (set_base_path _ (set_running true w))))
        with (clock w) by reflexivity.
      rewrite Ep. intros [= <-]. eexists [_; _]. split.
      - unfold suspend. destruct (stop_during env _); reflexivity.
      - split; [|discriminate].
        intros p [H | [H | []]]; discriminate. }
  destruct (read_file env input_path) as [text|e] eqn:Er.
  2:{ unfold process_pipeline. rewrite Hrun. cbv zeta.
      replace (clock (add_signal _ (set_base_path _ (set_running true w))))
        with (clock w) by reflexivity.
      rewrite Ep, Er. intros [= <-]. eexists [_; _; _; _]. split.
      - unfold suspend. destruct (stop_during env _); reflexivity.
      - split; [|discriminate].
        intros p [H | [H | [H | [H | []]]]]; discriminate. }
  destruct (process_pipeline_onward lib env build_combined_prompt fuel input_path
              output_path pipeline text w Hrun Ep Er)
    as (-> & s1 & s2 & s3 & s4 & S5 & F5).
  remember (at_first_stage env output_path text w) as w5 eqn:E5.
  unfold stages_onward. unfold bind at 1.
  destruct (run_stages _ _ _ _ _ _ _ w5) as [[[text'|e] w6]|] eqn:Est;
    try discriminate.
  destruct (keeps_run_stages lib env build_combined_prompt fuel pipeline text 1
              _ _ _ Est) as (_ & _ & n6 & S6 & F6).
  assert (Hold : forall p, ~ In (processing_finished p) (n6 ++ [s4; s3; s2; s1])).
  { intros p Hin.
    assert (F : forallb (fun s => negb (is_finished s)) (n6 ++ [s4; s3; s2; s1])
                = true) by (rewrite forallb_app, F6, F5; reflexivity).
    rewrite forallb_forall in F. specialize (F _ Hin). discriminate. }
  unfold bind at 1. unfold write_output at 1.
  destruct (is_running w6) eqn:Hr6.
  - destruct (write_error env output_path) as [e|] eqn:Ew; cbv beta iota;
      unfold stop_run; intros [= <-]; simpl; rewrite S6, S5.
    + exists (processing_error (lit "File writing error: " ++ exn_str e)
                :: n6 ++ [s4; s3; s2; s1]).
      split; [simpl; now rewrite <- app_assoc|]. split.
      * intros p [H | H]; [discriminate | destruct (Hold p H)].
      * intros t t' w6' _ _ _ _ H. discriminate.
    + exists (processing_finished output_path :: n6 ++ [s4; s3; s2; s1]).
      split; [simpl; now rewrite <- app_assoc|]. split.
      * intros p [[= <-] | H]; [|destruct (Hold p H)].
        split; [reflexivity|]. exists (n6 ++ [s4; s3; s2; s1]), text, text', w6.
        split; [reflexivity|]. split; [exact Hold|]. split; [reflexivity|].
        split; [now rewrite <- E5|]. split; [exact Hr6 | reflexivity].
      * intros. now left.
  - cbv beta iota. unfold stop_run. intros [= <-]. simpl. rewrite S6, S5.
    exists (n6 ++ [s4; s3; s2; s1]).
    split; [now rewrite <- app_assoc|]. split.
    + intros p H. destruct (Hold p H).
    + intros t t' w6' _ [= <-] H Hon _. rewrite <- E5, Est in H.
      injection H as _ <-.
      rewrite Hr6 in Hon. discriminate.
Qed.

Lemma completion_signal_comes_last_witness :
  exists w' new,
    process_pipeline Example.lib (Example.env 7) Example.no_compose 10
                     (lit "in.txt") (lit "out.txt") [Example.translation_stage]
                     Example.idle = Some (Ok tt, w')
    /\ signals w' = new ++ []
    /\ In (processing_finished (lit "out.txt")) new.
Proof.
  eexists.
  destruct (completion_signal_comes_last Example.lib (Example.env 7)
              Example.no_compose 10 (lit "in.txt") (lit "out.txt")
              [Example.translation_stage] Example.idle _ eq_refl
              ltac:(vm_compute; reflexivity))
    as (new & S & _ & Hfin).
  exists new. split; [vm_compute; reflexivity|]. split; [exact S|].
  eapply (Hfin (lit "Hello")); [reflexivity | reflexivity | vm_compute; reflexivity
                               | reflexivity | reflexivity].
Defined.

(** ** Properties of the prompt composer *)

Section ComposerFacts.

Variable sub_ops : list (str * sub_operation).

Lemma take_while_stops (p : char -> bool) (s : str) (c : char) :
  In c (take_while p s) -> p c = true.
Proof.
  induction s as [|x s IH]; simpl; [intros []|].
  destruct (p x) eqn:E; [|intros []]. intros [<- | H]; auto.
Qed.

Lemma core_instruction_one_line (original_system : str) :
  ~ In NL (core_instruction original_system).
Proof.
  intros H. apply take_while_stops in H. discriminate.
Qed.

(** The loop adds one numbered line and one task name per known id. *)
Lemma compose_loop_result (ids : list str) :
  forall idx system_parts task_descriptions,
    exists lines,
      compose_loop sub_ops ids idx system_parts task_descriptions
      = (system_parts ++ lines,
         task_descriptions ++ List.map task_name (filter (known sub_ops) ids))
      /\ List.length lines = List.length (filter (known sub_ops) ids)
      /\ Forall (fun line => exists n core,
                     line = [NL] ++ decimal n ++ lit ". " ++ core
                     /\ idx <= n /\ ~ In NL core) lines.
Proof.
  induction ids as [|id rest IH]; intros idx sp td; cbn [compose_loop filter].
  - exists []. rewrite !app_nil_r. repeat split. constructor.
  - destruct (lookup id sub_ops) as [cfg|] eqn:E;
      [assert (Hk : known sub_ops id = true) by (unfold known; now rewrite E)
      |assert (Hk : known sub_ops id = false) by (unfold known; now rewrite E)];
      rewrite Hk.
    + destruct (IH (idx + 1) (sp ++ [[NL] ++ decimal idx ++ lit ". "
                                       ++ core_instruction (get (sub_system cfg) [])])
                   (td ++ [task_name id])) as (lines & El & Hlen & Hall).
      exists (([NL] ++ decimal idx ++ lit ". "
                 ++ core_instruction (get (sub_system cfg) [])) :: lines).
      rewrite El. split; [|split].
      * cbn [List.map]. now rewrite <- !app_assoc.
      * cbn [List.length]. now rewrite Hlen.
      * constructor.
        -- exists idx, (core_instruction (get (sub_system cfg) [])).
           split; [reflexivity|]. split; [lia | apply core_instruction_one_line].
        -- eapply Forall_impl; [|exact Hall]. simpl.
           intros l (n & core & -> & Hn & Hc). exists n, core. repeat split; auto. lia.
    + destruct (IH (idx + 1) sp td) as (lines & El & Hlen & Hall).
      exists lines. rewrite El. split; [reflexivity|]. split; [exact Hlen|].
      eapply Forall_impl; [|exact Hall]. simpl.
      intros l (n & core & -> & Hn & Hc). exists n, core. repeat split; auto. lia.
Qed.

Lemma tasks_list_ok (t : str) (ts : list str) :
  exists tasks, tasks_list (t :: ts) = Ok tasks.
Proof.
  unfold tasks_list. destruct (1 <? Z.of_nat (List.length (t :: ts))); eauto.
Qed.

Lemma lookup_key {A : Type} (key : str) (items : list (str * A)) :
  In key (List.map fst items) -> lookup key items <> None.
Proof.
  induction items as [|[k v] items IH]; simpl; [intros []|].
  destruct (str_eq_dec key k); [discriminate|].
  intros [E | H]; [congruence | now apply IH].
Qed.

End ComposerFacts.

(** X15. [build_combined_prompt] returns a prompt pair when no task is
    enabled or when at least one enabled id is a key of the stage's
    sub-operations, which is always so for the ids [process_pipeline]
    collects; with enabled ids none of which is a key it raises
    [IndexError]. *)
Theorem build_combined_prompt_outcome (st : op_settings) (enabled : list str) :
  (enabled = []
   \/ (exists id, In id enabled /\ lookup id (sub_operations (config st)) <> None) ->
   exists system_prompt user_prompt,
     build_combined_prompt st enabled = Ok (system_prompt, user_prompt))
  /\ (enabled <> [] ->
      (forall id, In id enabled -> lookup id (sub_operations (config st)) = None) ->
      build_combined_prompt st enabled
      = Raise (OtherException (lit "IndexError") (lit "list index out of range")))
  /\ exists system_prompt user_prompt,
       build_combined_prompt st (enabled_sub_ops_of st) = Ok (system_prompt, user_prompt).
Proof.
  assert (Hsome : forall ids,
             (ids = [] \/ exists id, In id ids
                                     /\ lookup id (sub_operations (config st)) <> None) ->
             exists sp up, build_combined_prompt st ids = Ok (sp, up)).
  { intros ids H. unfold build_combined_prompt. destruct ids as [|i0 ids]; [eauto|].
    destruct H as [H | (id & Hin & Hk)]; [discriminate|].
    destruct (compose_loop_result (sub_operations (config st)) (i0 :: ids) 1
                system_head []) as (lines & E & _). rewrite E.
    assert (Hf : In id (filter (known (sub_operations (config st))) (i0 :: ids))).
    { apply filter_In. split; [exact Hin|]. unfold known.
      destruct (lookup id _); [reflexivity | contradiction]. }
    destruct (filter _ (i0 :: ids)) as [|t ts]; [destruct Hf|].
    cbn [List.map app]. destruct (tasks_list_ok (task_name t) (List.map task_name ts))
      as [tasks Et]. rewrite Et. eauto. }
  split; [apply Hsome|]. split.
  - intros Hne Hnone. unfold build_combined_prompt.
    destruct enabled as [|i0 ids]; [contradiction|].
    destruct (compose_loop_result (sub_operations (config st)) (i0 :: ids) 1
                system_head []) as (lines & E & _). rewrite E.
    rewrite filter_none; [reflexivity|].
    intros id Hin. unfold known. now rewrite (Hnone id Hin).
  - apply Hsome. destruct (enabled_sub_ops_of st) as [|i0 ids] eqn:E; [now left|].
    right. exists i0. split; [now left|]. apply lookup_key.
    assert (Hin : In i0 (enabled_sub_ops_of st)) by (rewrite E; now left).
    unfold enabled_sub_ops_of in Hin. apply in_map_iff in Hin as (kv & <- & Hkv).
    apply filter_In in Hkv as [Hkv _]. now apply in_map.
Qed.

Lemma build_combined_prompt_outcome_witness :
  build_combined_prompt rewrite_stage [lit "nope"]
  = Raise (OtherException (lit "IndexError") (lit "list index out of range")).
Proof.
  apply (proj1 (proj2 (build_combined_prompt_outcome rewrite_stage [lit "nope"]))).
  - discriminate.
  - intros id [<- | []]. reflexivity.
Defined.

(** X16. The system prompt built for a non-empty task list is the fixed
    head, one numbered line per enabled id that is a key of the
    sub-operations, and the fixed rules; each numbered line is a newline,
    a number at least 1, a dot and an instruction free of newlines.  The
    user template is the fixed opening, the task list and the fixed
    closing with the [{text}] field. *)
Theorem build_combined_prompt_shape (st : op_settings) (enabled : list str)
    (system_prompt user_prompt : str) :
  enabled <> [] ->
  build_combined_prompt st enabled = Ok (system_prompt, user_prompt) ->
  exists lines tasks,
    system_prompt
    = List.concat system_head ++ List.concat lines ++ List.concat system_rules
    /\ List.length lines
       = List.length (filter (known (sub_operations (config st))) enabled)
    /\ Forall (fun line => exists n core,
                   line = [NL] ++ decimal n ++ lit ". " ++ core
                   /\ 1 <= n /\ ~ In NL core) lines
    /\ user_prompt
       = lit "Process this text by applying these tasks: " ++ tasks
           ++ lit "." ++ [NL; NL] ++ lit "Text to process:" ++ [NL; NL] ++ lit "{text}".
Proof.
  intros Hne. unfold build_combined_prompt. destruct enabled as [|i0 ids]; [contradiction|].
  destruct (compose_loop_result (sub_operations (config st)) (i0 :: ids) 1
              system_head []) as (lines & E & Hlen & Hall). rewrite E.
  destruct (tasks_list _) as [tasks|e]; [|discriminate].
  intros [= <- <-]. exists lines, tasks. split; [|auto].
  now rewrite !concat_app.
Qed.

Lemma build_combined_prompt_shape_witness :
  exists system_prompt user_prompt lines tasks,
    build_combined_prompt rewrite_stage (enabled_sub_ops_of rewrite_stage)
    = Ok (system_prompt, user_prompt)
    /\ system_prompt
       = List.concat system_head ++ List.concat lines ++ List.concat system_rules
    /\ List.length lines = 2%nat
    /\ user_prompt
       = lit "Process this text by applying these tasks: " ++ tasks
           ++ lit "." ++ [NL; NL] ++ lit "Text to process:" ++ [NL; NL] ++ lit "{text}".
Proof.
  destruct (build_combined_prompt rewrite_stage (enabled_sub_ops_of rewrite_stage))
    as [[sp up]|e] eqn:E; [|vm_compute in E; discriminate].
  destruct (build_combined_prompt_shape rewrite_stage (enabled_sub_ops_of rewrite_stage)
              sp up ltac:(vm_compute; discriminate) E)
    as (lines & tasks & H1 & H2 & _ & H4).
  exists sp, up, lines, tasks. repeat split; assumption.
Defined.

(** ** Where a sentence cut leaves the chunk *)

Section SentenceEnd.

Lemma closing_mark_not_space (c : char) :
  is_closing_mark c = true -> is_space c = false.
Proof.
  unfold is_closing_mark, is_terminal, is_closing_quote.
  rewrite !orb_true_iff, !N.eqb_eq. intros H.
  repeat match type of H with _ \/ _ => destruct H as [H | H] end;
    subst c; reflexivity.
Qed.

Lemma take_while_all (p : char -> bool) (s : str) :
  forallb p (take_while p s) = true.
Proof.
  induction s as [|c s IH]; simpl; [reflexivity|].
  destruct (p c) eqn:E; simpl; [now rewrite E | reflexivity].
Qed.

Lemma take_drop_while (p : char -> bool) (s : str) :
  s = take_while p s ++ drop_while p s.
Proof.
  induction s as [|c s IH]; simpl; [reflexivity|].
  destruct (p c); simpl; [now rewrite <- IH | reflexivity].
Qed.

Lemma match_sentence_closes (u : str) (n : nat) :
  match_sentence u = Some n -> closes_sentence u n.
Proof.
  destruct u as [|c rest]; simpl; [discriminate|].
  destruct (is_terminal c) eqn:Ec; [|discriminate].
  destruct (List.length (take_while is_space rest)) as [|k] eqn:El; [discriminate|].
  intros [= <-]. exists [], c, (take_while is_space rest), (drop_while is_space rest).
  split; [simpl; now rewrite <- take_drop_while|]. split; [simpl; now rewrite El|].
  split; [unfold is_closing_mark; now rewrite Ec | apply take_while_all].
Qed.

Lemma match_quoted_closes (u : str) (n : nat) :
  match_quoted u = Some n -> closes_sentence u n.
Proof.
  destruct u as [|c [|q rest]]; simpl; try discriminate.
  destruct (is_terminal c && is_closing_quote q) eqn:Ec; [|discriminate].
  apply andb_prop in Ec as [_ Eq].
  destruct (List.length (take_while is_space rest)) as [|k] eqn:El; [discriminate|].
  intros [= <-]. exists [c], q, (take_while is_space rest), (drop_while is_space rest).
  split; [simpl; now rewrite <- take_drop_while|]. split; [simpl; now rewrite El|].
  split; [unfold is_closing_mark; rewrite Eq; apply orb_true_r | apply take_while_all].
Qed.

(** Every end reported by the scan is the end of a match at some
    offset. *)
Lemma finditer_ends_match (m : str -> option nat) :
  sound_matcher m ->
  forall s pos skip e,
    In e (finditer_ends m s pos skip) ->
    exists k n, e = pos + Z.of_nat k + Z.of_nat n
                /\ m (skipn k s) = Some n
                /\ (k + n <= List.length s)%nat.
Proof.
  intros Hm. induction s as [|c s IH]; intros pos skip e; simpl; [intros []|].
  assert (Hrec : forall skip', In e (finditer_ends m s (pos + 1) skip') ->
                   exists k n, e = pos + Z.of_nat k + Z.of_nat n
                               /\ m (skipn k (c :: s)) = Some n
                               /\ (k + n <= S (List.length s))%nat).
  { intros skip' H. destruct (IH _ _ _ H) as (k & n & -> & Hk & Hl).
    exists (S k), n. split; [lia|]. split; [exact Hk | lia]. }
  destruct skip as [|j]; [|exact (Hrec j)].
  destruct (m (c :: s)) as [n|] eqn:E; [|exact (Hrec O)].
  intros [<- | H]; [|exact (Hrec _ H)].
  exists O, n. split; [lia|]. split; [exact E|]. apply Hm in E. simpl in *. lia.
Qed.

Lemma rstrip_spaces (ws : str) : forallb is_space ws = true -> rstrip ws = [].
Proof.
  induction ws as [|c ws IH]; simpl; [reflexivity|].
  intros H. apply andb_prop in H as [Hc Hws]. now rewrite (IH Hws), Hc.
Qed.

Lemma rstrip_mark (pre ws : str) (mark : char) :
  is_space mark = false -> forallb is_space ws = true ->
  rstrip (pre ++ mark :: ws) = pre ++ [mark].
Proof.
  intros Hm Hws. induction pre as [|x pre IH]; simpl.
  - now rewrite (rstrip_spaces ws Hws), Hm.
  - rewrite IH. destruct pre; reflexivity.
Qed.

Lemma lstrip_mark (pre ws : str) (mark : char) :
  is_space mark = false ->
  exists kept, lstrip (pre ++ mark :: ws) = kept ++ mark :: ws.
Proof.
  intros Hm. unfold lstrip. induction pre as [|x pre IH]; simpl.
  - rewrite Hm. now exists [].
  - destruct (is_space x); [exact IH | now exists (x :: pre)].
Qed.

(** Trimming a text that ends in a closing mark and whitespace leaves the
    mark last. *)
Lemma strip_ends_with_mark (pre ws : str) (mark : char) :
  is_closing_mark mark = true -> forallb is_space ws = true ->
  exists kept, strip (pre ++ mark :: ws) = kept ++ [mark].
Proof.
  intros Hm Hws. apply closing_mark_not_space in Hm.
  destruct (lstrip_mark pre ws mark Hm) as [kept E].
  exists kept. unfold strip. rewrite E. now apply rstrip_mark.
Qed.

Lemma slice_of_parts (front l back : str) (position : Z) :
  0 <= position <= len front ->
  slice (front ++ l ++ back) position (len front + len l)
  = skipn (Z.to_nat position) front ++ l.
Proof.
  intros Hp. pose proof (len_nonneg l). pose proof (len_nonneg back).
  rewrite slice_in_range by (rewrite !len_app; lia).
  unfold len in *. rewrite skipn_app.
  replace (Z.to_nat position - List.length front)%nat with O by lia.
  simpl skipn. rewrite firstn_app, length_skipn.
  replace (Z.to_nat (Z.of_nat (List.length front) + Z.of_nat (List.length l) - position)
           - (List.length front - Z.to_nat position))%nat
    with (List.length l) by lia.
  rewrite firstn_all2 by (rewrite length_skipn; lia).
  rewrite firstn_app, firstn_all, Nat.sub_diag. simpl. now rewrite app_nil_r.
Qed.

Variable text : str.

(** A candidate of either sentence pattern, seen from the chunk start:
    the slice up to it ends in a closing mark and whitespace. *)
Lemma candidate_closes (m : str -> option nat) (position ce b : Z) :
  sound_matcher m ->
  (forall u n, m u = Some n -> closes_sentence u n) ->
  0 <= position -> position <= ce -> ce < len text ->
  In b (breaks_of m (slice text (Z.max position (ce - 200)) (ce + 100))
                  (Z.max position (ce - 200)) position ce) ->
  exists pre mark ws,
    slice text position b = pre ++ mark :: ws
    /\ is_closing_mark mark = true /\ forallb is_space ws = true.
Proof.
  intros Hm Hshape H0 Hpc Hce Hb.
  set (ss := Z.max position (ce - 200)) in *.
  assert (Hss : 0 <= ss < len text /\ position <= ss) by (unfold ss; lia).
  unfold breaks_of in Hb. apply filter_In in Hb as [Hb _].
  destruct (finditer_ends_match m Hm _ _ _ _ Hb) as (k & n & -> & Hk & Hl).
  destruct (Hshape _ _ Hk) as (body & mark & ws & rest & Eu & En & Hmark & Hws).
  set (st := slice text ss (ce + 100)) in *.
  assert (Est : exists tail, skipn (Z.to_nat ss) text = st ++ tail).
  { unfold st, slice. rewrite (norm_index_id _ ss) by lia.
    eexists. symmetry. apply firstn_skipn. }
  destruct Est as [tail Etail].
  assert (Etext : text = (firstn (Z.to_nat ss) text ++ firstn k st)
                         ++ (body ++ mark :: ws) ++ (rest ++ tail)).
  { rewrite <- (firstn_skipn (Z.to_nat ss) text) at 1. rewrite Etail.
    rewrite <- (firstn_skipn k st) at 1. rewrite Eu.
    rewrite <- !app_assoc. simpl. now rewrite <- !app_assoc. }
  assert (Hfront : len (firstn (Z.to_nat ss) text ++ firstn k st) = ss + Z.of_nat k).
  { unfold len in *. rewrite length_app, !length_firstn. lia. }
  exists (skipn (Z.to_nat position) (firstn (Z.to_nat ss) text ++ firstn k st) ++ body),
         mark, ws.
  split; [|split; assumption].
  rewrite Etext at 1.
  replace (ss + Z.of_nat k + Z.of_nat n)
    with (len (firstn (Z.to_nat ss) text ++ firstn k st) + len (body ++ mark :: ws)).
  - rewrite slice_of_parts by lia. now rewrite <- app_assoc.
  - rewrite Hfront. unfold len. rewrite length_app. simpl. lia.
Qed.

End SentenceEnd.

(** X17. When the search finds a sentence break, the chunk cut there
    ends, once trimmed, with terminal punctuation or a closing quote. *)
Theorem sentence_cut_ends_with_mark (text : str) (position max_chars : Z) :
  0 <= position -> 0 <= max_chars ->
  position + max_chars < len text ->
  sentence_breaks text position (position + max_chars) <> [] ->
  exists kept mark,
    strip (slice text position (cut_point text position max_chars)) = kept ++ [mark]
    /\ is_closing_mark mark = true.
Proof.
  intros H0 Hm Hnaive Hne.
  assert (Hin : In (cut_point text position max_chars)
                   (sentence_breaks text position (position + max_chars))).
  { unfold cut_point. rewrite Z.min_l by lia.
    destruct (Z.ltb_spec (position + max_chars) (len text)); [|lia].
    destruct (sentence_breaks text position (position + max_chars)) as [|b0 rest];
      [contradiction | apply best_break_in]. }
  unfold sentence_breaks in Hin. apply in_app_or in Hin.
  assert (Hc : exists pre mark ws,
             slice text position (cut_point text position max_chars) = pre ++ mark :: ws
             /\ is_closing_mark mark = true /\ forallb is_space ws = true).
  { destruct Hin as [Hin | Hin].
    - exact (candidate_closes text match_sentence position (position + max_chars) _
               match_sentence_sound match_sentence_closes H0 ltac:(lia) Hnaive Hin).
    - exact (candidate_closes text match_quoted position (position + max_chars) _
               match_quoted_sound match_quoted_closes H0 ltac:(lia) Hnaive Hin). }
  destruct Hc as (pre & mark & ws & E & Hmark & Hws). rewrite E.
  destruct (strip_ends_with_mark pre ws mark Hmark Hws) as [kept Ek].
  exists kept, mark. split; assumption.
Qed.

Lemma sentence_cut_ends_with_mark_witness :
  exists kept mark,
    strip (slice (lit "Sentence one. Sentence two. Sentence three.") 0
             (cut_point (lit "Sentence one. Sentence two. Sentence three.") 0 20))
    = kept ++ [mark]
    /\ is_closing_mark mark = true.
Proof.
  apply (sentence_cut_ends_with_mark
           (lit "Sentence one. Sentence two. Sentence three.") 0 20); try lia.
  - vm_compute. reflexivity.
  - vm_compute. discriminate.
Defined.

Lemma dedup_keeps_every_form_witness :
  exists p, In p (dedup_loop ascii_lower (split_blank (lit " A")) [])
            /\ normalize ascii_lower p = normalize ascii_lower (strip (lit " A")).
Proof.
  apply (proj2 (dedup_keeps_every_form ascii_lower (lit " A")) (lit " A")).
  - now left.
  - vm_compute. discriminate.
Defined.
